(** * Wardley Map Simple: parser, layout engine and renderer

    A shallow embedding of [src/parser.ts], of [src/renderer.ts]
    ([renderWardleyMap], [calculatePositions], [spreadOverlappingComponents],
    [topologicalSort], [escapeHtml]), of [renderWardleyBlock] of
    [src/main.ts], of the standalone copies of the parser and of the layout
    in [generate-svg.js] and of its [extractWardleyCode], followed by the
    properties of the note -> text -> graph -> placed-graph -> drawing
    pipeline.

    Conventions of the embedding:
    - a JavaScript string is the list of its UTF-16 code units ([list N]);
      string literals of the source are written [js "..."];
    - a [Map] that is only read by key is a [gmap]; the [groups] map of the
      overlap resolution, which is iterated in insertion order, is an
      association list;
    - the [components] array holds mutable objects that are also reached
      through [find] and through the group arrays: it is a list updated by
      index, and a reference to a component is its index; the module
      [InStore] puts these objects into the heap of the program, next to
      the table [STAGE_POSITIONS], where one run of the pipeline finds what
      the runs before it have left;
    - layers and in-degrees are integers ([Z]); coordinates are JavaScript
      numbers, modelled by the exact rationals that the expressions denote
      (the rounding of doubles is not modelled), plus one element for the
      non-finite results ([NaN], [Infinity]) that a division by zero or an
      operation on [undefined] would produce;
    - the [while] loop of [topologicalSort] runs on fuel: [None] means that
      the fuel ran out, and a result is always a result of the source loop;
    - the drawing is the text that the templates of the renderer build; the
      conversion of a number to its text is a parameter of the rendering,
      since the numbers are exact rationals. *)

From Stdlib Require Import ZArith NArith QArith Qround Qabs String Ascii Lia Lqa.
From stdpp Require Import base option list gmap.

Open Scope Z_scope.

(** ** JavaScript strings *)

Abbreviation jsstring := (list N).

Definition js (s : string) : jsstring :=
  map N_of_ascii (list_ascii_of_string s).
Arguments js s%_string.

(** [WhiteSpace] and [LineTerminator] code units of ECMAScript: what
    [String.prototype.trim] strips and what [\s] matches. *)
Definition isLineTerminator (c : N) : bool :=
  (N.eqb c 10 || N.eqb c 13 || N.eqb c 8232 || N.eqb c 8233)%N.

Definition isWhiteSpace (c : N) : bool :=
  (N.eqb c 9 || N.eqb c 11 || N.eqb c 12 || N.eqb c 32 || N.eqb c 160
   || N.eqb c 5760 || (N.leb 8192 c && N.leb c 8202) || N.eqb c 8239
   || N.eqb c 8287 || N.eqb c 12288 || N.eqb c 65279
   || isLineTerminator c)%N.

(** [\w] is [[A-Za-z0-9_]]. *)
Definition isWordChar (c : N) : bool :=
  ((N.leb 48 c && N.leb c 57) || (N.leb 65 c && N.leb c 90)
   || N.eqb c 95 || (N.leb 97 c && N.leb c 122))%N.

Fixpoint dropWhile (p : N -> bool) (s : jsstring) : jsstring :=
  match s with
  | c :: s' => if p c then dropWhile p s' else s
  | [] => []
  end.

Definition trimStart (s : jsstring) : jsstring := dropWhile isWhiteSpace s.
Definition trimEnd (s : jsstring) : jsstring := rev (dropWhile isWhiteSpace (rev s)).

(** [s.trim()] *)
Definition trim (s : jsstring) : jsstring := trimEnd (trimStart s).

(** [s.startsWith(p)] *)
Fixpoint startsWith (p s : jsstring) : bool :=
  match p, s with
  | [], _ => true
  | a :: p', b :: s' => N.eqb a b && startsWith p' s'
  | _ :: _, [] => false
  end.

(** [s.substring(n)] and [s.substring(0, n)], for [0 <= n]. *)
Definition substringFrom (n : nat) (s : jsstring) : jsstring := drop n s.
Definition substringTo (n : nat) (s : jsstring) : jsstring := take n s.

(** [s.indexOf(c)] for a one-unit needle; [None] is the source's [-1]. *)
Fixpoint indexOf (c : N) (s : jsstring) : option nat :=
  match s with
  | [] => None
  | a :: s' => if N.eqb a c then Some 0%nat else S <$> indexOf c s'
  end.

(** [s.includes("->")] *)
Fixpoint includesArrow (s : jsstring) : bool :=
  match s with
  | [] => false
  | a :: s' => startsWith (js "->") s || includesArrow s'
  end.

(** [s.split("\n")]: never empty, [""] splits into [[""]]. *)
Fixpoint splitNewline (s : jsstring) : list jsstring :=
  match s with
  | [] => [[]]
  | c :: s' =>
      if N.eqb c 10 then [] :: splitNewline s'
      else match splitNewline s' with
           | cur :: rest => (c :: cur) :: rest
           | [] => [[c]]
           end
  end.

(** [s.split("->")]: successive non-overlapping occurrences, left to right. *)
Fixpoint splitArrow (s : jsstring) : list jsstring :=
  match s with
  | [] => [[]]
  | c :: s' =>
      match s' with
      | d :: s'' =>
          if N.eqb c 45 && N.eqb d 62 then [] :: splitArrow s''
          else match splitArrow s' with
               | cur :: rest => (c :: cur) :: rest
               | [] => [[c]]
               end
      | [] => [[c]]
      end
  end.

(** ** The regular expressions of the parser

    Every pattern of the source is anchored at both ends and is a sequence
    of literals and of one-or-more repetitions of a character class, some
    of them captured.  [rmatch] is the backtracking matcher of ECMAScript
    on that fragment: a greedy repetition first tries to take one more
    unit, a lazy one first tries to go on with the rest of the pattern. *)

Inductive charClass := Dot | Space | NonSpace | Word.

Definition inClass (k : charClass) (c : N) : bool :=
  match k with
  | Dot => negb (isLineTerminator c)
  | Space => isWhiteSpace c
  | NonSpace => negb (isWhiteSpace c)
  | Word => isWordChar c
  end.

Inductive node :=
  | Lit (s : jsstring)
  | Rep (k : charClass) (greedy capture : bool).

(** [acc] holds the units taken so far by the repetition (at least one). *)
Fixpoint repLoop (rest : jsstring -> option (list jsstring))
    (k : charClass) (greedy capture : bool) (acc s : jsstring)
    : option (list jsstring) :=
  let finish :=
    (fun caps => if capture then acc :: caps else caps) <$> rest s in
  match s with
  | c :: s' =>
      if inClass k c then
        if greedy then
          match repLoop rest k greedy capture (acc ++ [c]) s' with
          | Some caps => Some caps
          | None => finish
          end
        else
          match finish with
          | Some caps => Some caps
          | None => repLoop rest k greedy capture (acc ++ [c]) s'
          end
      else finish
  | [] => finish
  end.

Fixpoint rmatch (r : list node) : jsstring -> option (list jsstring) :=
  match r with
  | [] => fun s => match s with [] => Some [] | _ => None end
  | Lit l :: r' =>
      fun s => if startsWith l s then rmatch r' (drop (length l) s) else None
  | Rep k greedy capture :: r' =>
      fun s =>
        match s with
        | c :: s' =>
            if inClass k c then repLoop (rmatch r') k greedy capture [c] s'
            else None
        | [] => None
        end
  end.

(** [\s+] *)
Definition spaces : node := Rep Space true false.

(** [/^component\s+(.+?)\s+\[(\w+)\]$/] *)
Definition componentRe : list node :=
  [Lit (js "component"); spaces; Rep Dot false true; spaces;
   Lit (js "["); Rep Word true true; Lit (js "]")].

(** [/^anchor\s+(.+?)\s+\[(\w+)\]$/] *)
Definition anchorRe : list node :=
  [Lit (js "anchor"); spaces; Rep Dot false true; spaces;
   Lit (js "["); Rep Word true true; Lit (js "]")].

(** [/^evolve\s+(.+?)\s+->\s+(.+?)\s+\[(\w+)\]$/] *)
Definition evolveRe : list node :=
  [Lit (js "evolve"); spaces; Rep Dot false true; spaces; Lit (js "->");
   spaces; Rep Dot false true; spaces;
   Lit (js "["); Rep Word true true; Lit (js "]")].

(** [/^evolve\s+(.+?)\s+\[(\w+)\]$/] *)
Definition evolveStageRe : list node :=
  [Lit (js "evolve"); spaces; Rep Dot false true; spaces;
   Lit (js "["); Rep Word true true; Lit (js "]")].

(** [/^annotation\s+(\S+)\s+(.+)$/] *)
Definition annotationRe : list node :=
  [Lit (js "annotation"); spaces; Rep NonSpace true true; spaces;
   Rep Dot true true].

(** ** The graph model ([types.ts]) *)

Inductive EvolutionStage := genesis | custom | product | commodity.

Definition stageName (s : EvolutionStage) : jsstring :=
  match s with
  | genesis => js "genesis"
  | custom => js "custom"
  | product => js "product"
  | commodity => js "commodity"
  end.

(** A JavaScript number: a finite value, or a non-finite one. *)
Inductive number := Num (q : Q) | NonFinite.

Record Component := mkComponent {
  name : jsstring;
  stage : EvolutionStage;
  isAnchor : bool;
  x : option number;
  y : option number
}.

Record Dependency := mkDependency {
  from : jsstring;
  to : jsstring;
  label : option jsstring
}.

(** The parser casts the captured stage of an [evolve] line to
    [EvolutionStage] without checking it: the field holds any [\w+] text. *)
Record Evolution := mkEvolution {
  efrom : jsstring;
  eto : jsstring;
  estage : jsstring
}.

Record Annotation := mkAnnotation {
  id : jsstring;
  text : jsstring
}.

Record WardleyMap := mkWardleyMap {
  title : option jsstring;
  components : list Component;
  dependencies : list Dependency;
  evolutions : list Evolution;
  annotations : list Annotation;
  notes : list jsstring
}.

Record ParseError := mkParseError {
  line : nat;
  message : jsstring
}.

(** ** The parser ([parser.ts]) *)

(** [isValidStage], returning the stage that the cast
    [as EvolutionStage] then denotes. *)
Definition isValidStage (s : jsstring) : option EvolutionStage :=
  if decide (s = js "genesis") then Some genesis
  else if decide (s = js "custom") then Some custom
  else if decide (s = js "product") then Some product
  else if decide (s = js "commodity") then Some commodity
  else None.

(** The local state of one call of [parseWardleyMap]: [map], [componentMap]
    and [errors]. *)
Record ParseState := mkParseState {
  pmap : WardleyMap;
  componentMap : gmap jsstring Component;
  errors : list ParseError
}.

Definition emptyMap : WardleyMap := mkWardleyMap None [] [] [] [] [].

Definition initialState : ParseState := mkParseState emptyMap ∅ [].

(** [errors.push({ line, message })] *)
Definition pushError (st : ParseState) (lineNum : nat) (msg : jsstring) : ParseState :=
  mkParseState (pmap st) (componentMap st) (errors st ++ [mkParseError lineNum msg]).

Definition withMap (st : ParseState) (m : WardleyMap) : ParseState :=
  mkParseState m (componentMap st) (errors st).

Definition setTitle (m : WardleyMap) (t : jsstring) : WardleyMap :=
  mkWardleyMap (Some t) (components m) (dependencies m) (evolutions m)
    (annotations m) (notes m).

Definition pushComponent (m : WardleyMap) (c : Component) : WardleyMap :=
  mkWardleyMap (title m) (components m ++ [c]) (dependencies m) (evolutions m)
    (annotations m) (notes m).

Definition pushDependencies (m : WardleyMap) (ds : list Dependency) : WardleyMap :=
  mkWardleyMap (title m) (components m) (dependencies m ++ ds) (evolutions m)
    (annotations m) (notes m).

Definition pushEvolution (m : WardleyMap) (e : Evolution) : WardleyMap :=
  mkWardleyMap (title m) (components m) (dependencies m) (evolutions m ++ [e])
    (annotations m) (notes m).

Definition pushAnnotation (m : WardleyMap) (a : Annotation) : WardleyMap :=
  mkWardleyMap (title m) (components m) (dependencies m) (evolutions m)
    (annotations m ++ [a]) (notes m).

Definition pushNote (m : WardleyMap) (n : jsstring) : WardleyMap :=
  mkWardleyMap (title m) (components m) (dependencies m) (evolutions m)
    (annotations m) (notes m ++ [n]).

(** [componentMap.has(name)] *)
Definition has (cm : gmap jsstring Component) (n : jsstring) : bool :=
  bool_decide (is_Some (cm !! n)).

(** The [component] and [anchor] branches, which differ in [isAnchor] only.
    [caps] are the two capture groups of the pattern. *)
Definition declareComponent (anchor : bool) (lineNum : nat)
    (caps : list jsstring) (st : ParseState) : ParseState :=
  match caps with
  | [n; s] =>
      let name := trim n in
      match isValidStage s with
      | None =>
          pushError st lineNum
            (js "Invalid evolution stage '" ++ s ++
             js "'. Must be: genesis, custom, product, commodity")
      | Some stage =>
          if has (componentMap st) name then
            pushError st lineNum
              (js "Component '" ++ name ++ js "' declared multiple times")
          else
            let component := mkComponent name stage anchor None None in
            mkParseState (pushComponent (pmap st) component)
              (<[name := component]> (componentMap st)) (errors st)
      end
  | _ => st
  end.

(** The [evolve <a> -> <b> [stage]] branch. *)
Definition evolveComponent (lineNum : nat) (caps : list jsstring)
    (st : ParseState) : ParseState :=
  match caps with
  | [f; t; s] =>
      let from := trim f in
      let to := trim t in
      if negb (has (componentMap st) from) then
        pushError st lineNum (js "Component '" ++ from ++ js "' not declared")
      else if negb (has (componentMap st) to) then
        pushError st lineNum (js "Component '" ++ to ++ js "' not declared")
      else withMap st (pushEvolution (pmap st) (mkEvolution from to s))
  | _ => st
  end.

(** The [evolve <a> [stage]] branch: checked, then dropped. *)
Definition evolveStage (lineNum : nat) (caps : list jsstring)
    (st : ParseState) : ParseState :=
  match caps with
  | [n; s] =>
      let name := trim n in
      if negb (has (componentMap st) name) then
        pushError st lineNum (js "Component '" ++ name ++ js "' not declared")
      else st
  | _ => st
  end.

(** One turn of the loop of [parseDependencyChain], on [parts[i]] and
    [parts[i + 1]]. *)
Definition chainEdge (i : nat) (part next : jsstring) : Dependency :=
  let from := trim part in
  let to := trim next in
  let '(to, label) :=
    match indexOf 59 to with
    | Some semicolonIdx =>
        (trim (substringTo semicolonIdx to),
         Some (trim (substringFrom (S semicolonIdx) to)))
    | None => (to, None)
    end in
  let from :=
    if Nat.eqb i 0 then
      match indexOf 59 from with
      | Some fromSemicolonIdx => trim (substringTo fromSemicolonIdx from)
      | None => from
      end
    else from in
  mkDependency from to label.

(** [for (let i = 0; i < parts.length - 1; i++)], on the parts from [i] on. *)
Fixpoint chainEdges (i : nat) (parts : list jsstring) : list Dependency :=
  match parts with
  | part :: rest =>
      match rest with
      | next :: _ => chainEdge i part next :: chainEdges (S i) rest
      | [] => []
      end
  | [] => []
  end.

(** [parseDependencyChain]: the edges that it pushes on [dependencies].  It
    reads neither [componentMap] nor [lineNum] and pushes no error. *)
Definition parseDependencyChain (line : jsstring) : list Dependency :=
  chainEdges 0 (splitArrow line).

(** The body of the loop over the lines; [i] is the index of [raw] in
    [lines].  No statement of the [try] block throws, so that the [catch]
    branch is never taken. *)
Definition parseLine (st : ParseState) (i : nat) (raw : jsstring) : ParseState :=
  let line := trim raw in
  let lineNum := S i in
  if bool_decide (line = []) || startsWith (js "#") line then st
  else if startsWith (js "title ") line then
    withMap st (setTitle (pmap st) (trim (substringFrom 6 line)))
  else match rmatch componentRe line with
  | Some caps => declareComponent false lineNum caps st
  | None =>
  match rmatch anchorRe line with
  | Some caps => declareComponent true lineNum caps st
  | None =>
  match rmatch evolveRe line with
  | Some caps => evolveComponent lineNum caps st
  | None =>
  match rmatch evolveStageRe line with
  | Some caps => evolveStage lineNum caps st
  | None =>
  if includesArrow line then
    withMap st (pushDependencies (pmap st) (parseDependencyChain line))
  else match rmatch annotationRe line with
  | Some [id; text] => withMap st (pushAnnotation (pmap st) (mkAnnotation id text))
  | Some _ => st
  | None =>
  if startsWith (js "note ") line then
    withMap st (pushNote (pmap st) (trim (substringFrom 5 line)))
  else pushError st lineNum (js "Unknown syntax: " ++ line)
  end end end end end.

(** [for (let i = 0; i < lines.length; i++)], on the lines from [i] on. *)
Fixpoint parseLines (st : ParseState) (i : nat) (lines : list jsstring) : ParseState :=
  match lines with
  | [] => st
  | raw :: rest => parseLines (parseLine st i raw) (S i) rest
  end.

(** The errors of the validation pass for one dependency. *)
Definition validateDependency (cm : gmap jsstring Component) (dep : Dependency)
    : list ParseError :=
  (if negb (has cm (from dep)) then
     [mkParseError 0 (js "Component '" ++ from dep ++ js "' referenced but not declared")]
   else []) ++
  (if negb (has cm (to dep)) then
     [mkParseError 0 (js "Component '" ++ to dep ++ js "' referenced but not declared")]
   else []).

(** [// Validate dependencies] *)
Definition validateDependencies (st : ParseState) : list ParseError :=
  errors st ++ concat (map (validateDependency (componentMap st)) (dependencies (pmap st))).

Record ParseResult := mkParseResult {
  map_ : option WardleyMap;
  errors_ : list ParseError
}.

(** [parseWardleyMap] once the source is split into lines: the loop, the
    validation pass and the whole-map outcome. *)
Definition parseProgram (lines : list jsstring) : ParseResult :=
  let st := parseLines initialState 0 lines in
  let errors := validateDependencies st in
  mkParseResult (if bool_decide (length errors = 0%nat) then Some (pmap st) else None) errors.

Definition parseWardleyMap (source : jsstring) : ParseResult :=
  parseProgram (splitNewline source).

(** ** JavaScript numbers

    A finite number is modelled by the rational that the expression
    denotes; [NonFinite] absorbs every operation, so that a result
    [Num q] of the model is always a finite number of the program. *)

Definition ofZ (z : Z) : number := Num (inject_Z z).
Definition ofNat (n : nat) : number := ofZ (Z.of_nat n).

Definition nadd (a b : number) : number :=
  match a, b with Num p, Num q => Num (p + q) | _, _ => NonFinite end.

Definition nsub (a b : number) : number :=
  match a, b with Num p, Num q => Num (p - q) | _, _ => NonFinite end.

Definition nmul (a b : number) : number :=
  match a, b with Num p, Num q => Num (p * q) | _, _ => NonFinite end.

(** A division by zero gives [Infinity] or [NaN]. *)
Definition ndiv (a b : number) : number :=
  match a, b with
  | Num p, Num q => if Qeq_bool q 0 then NonFinite else Num (p / q)
  | _, _ => NonFinite
  end.

(** [Math.max(a, b)] *)
Definition nmax (a b : number) : number :=
  match a, b with
  | Num p, Num q => Num (if Qle_bool p q then q else p)
  | _, _ => NonFinite
  end.

(** The value of an optional field used as a number. *)
Definition toNumber (v : option number) : number :=
  match v with Some n => n | None => NonFinite end.

(** Decimal digits of a natural number, ["0"] for zero. *)
Fixpoint uintDigits (u : Decimal.uint) : jsstring :=
  match u with
  | Decimal.Nil => []
  | Decimal.D0 u => 48%N :: uintDigits u
  | Decimal.D1 u => 49%N :: uintDigits u
  | Decimal.D2 u => 50%N :: uintDigits u
  | Decimal.D3 u => 51%N :: uintDigits u
  | Decimal.D4 u => 52%N :: uintDigits u
  | Decimal.D5 u => 53%N :: uintDigits u
  | Decimal.D6 u => 54%N :: uintDigits u
  | Decimal.D7 u => 55%N :: uintDigits u
  | Decimal.D8 u => 56%N :: uintDigits u
  | Decimal.D9 u => 57%N :: uintDigits u
  end.

Definition digits (n : Z) : jsstring := uintDigits (N.to_uint (Z.to_N n)).

(** [v.toFixed(3)] (below 1e21): the nearest multiple of 1/1000, the larger
    one on a tie, written with at least one digit before the point. *)
Definition toFixed3 (v : number) : jsstring :=
  match v with
  | NonFinite => js "NaN"
  | Num q =>
      let negative := negb (Qle_bool 0 q) in
      let a := if negative then Qopp q else q in
      let n := Qfloor (a * 1000 + (1 # 2)) in
      let m := digits n in
      let m := replicate (4 - length m) 48%N ++ m in
      (if negative then js "-" else []) ++
      take (length m - 3) m ++ js "." ++ drop (length m - 3) m
  end.

(** ** The layout engine ([renderer.ts]) *)

Definition STAGE_POSITIONS (s : EvolutionStage) : number :=
  match s with
  | genesis => Num 0.125
  | custom => Num 0.375
  | product => Num 0.625
  | commodity => Num 0.875
  end.

Definition setX (c : Component) (v : option number) : Component :=
  mkComponent (name c) (stage c) (isAnchor c) v (y c).

Definition setY (c : Component) (v : option number) : Component :=
  mkComponent (name c) (stage c) (isAnchor c) (x c) v.

(** *** [topologicalSort] *)

Record TopoState := mkTopoState {
  layers : gmap jsstring Z;
  inDegree : gmap jsstring Z;
  queue : list jsstring
}.

(** [// Initialize] *)
Definition initInDegree (comps : list Component) : gmap jsstring Z :=
  foldl (fun m comp => <[name comp := 0]> m) ∅ comps.

Definition initGraph (comps : list Component) : gmap jsstring (list jsstring) :=
  foldl (fun g comp => <[name comp := []]> g) ∅ comps.

(** [graph.get(dep.to)?.push(dep.from)] *)
Definition addEdge (g : gmap jsstring (list jsstring)) (dep : Dependency)
    : gmap jsstring (list jsstring) :=
  match g !! to dep with
  | Some arr => <[to dep := arr ++ [from dep]]> g
  | None => g
  end.

(** [inDegree.set(dep.from, (inDegree.get(dep.from) ?? 0) + 1)] *)
Definition countEdge (d : gmap jsstring Z) (dep : Dependency) : gmap jsstring Z :=
  <[from dep := default 0 (d !! from dep) + 1]> d.

(** [// Build graph (reversed: dependencies point upward in value chain)] *)
Definition buildGraph (comps : list Component) (deps : list Dependency)
    : gmap jsstring (list jsstring) :=
  foldl addEdge (initGraph comps) deps.

Definition buildInDegree (comps : list Component) (deps : list Dependency)
    : gmap jsstring Z :=
  foldl countEdge (initInDegree comps) deps.

(** [// Start with nodes that have no dependencies] *)
Definition seed (st : TopoState) (comp : Component) : TopoState :=
  if bool_decide (inDegree st !! name comp = Some 0) then
    mkTopoState (<[name comp := 0]> (layers st)) (inDegree st) (queue st ++ [name comp])
  else st.

(** The body of [for (const neighbor of graph.get(current) ?? [])]. *)
Definition relax (currentLayer : Z) (st : TopoState) (neighbor : jsstring) : TopoState :=
  let newDegree := default 0 (inDegree st !! neighbor) - 1 in
  let neighborLayer := default 0 (layers st !! neighbor) in
  mkTopoState
    (<[neighbor := Z.max neighborLayer (currentLayer + 1)]> (layers st))
    (<[neighbor := newDegree]> (inDegree st))
    (if bool_decide (newDegree = 0) then queue st ++ [neighbor] else queue st).

(** The body of [while (queue.length > 0)]: [queue.shift()], then the
    neighbours of [current]. *)
Definition visit (graph : gmap jsstring (list jsstring)) (current : jsstring)
    (st : TopoState) : TopoState :=
  let currentLayer := default 0 (layers st !! current) in
  foldl (relax currentLayer) st (default [] (graph !! current)).

(** [while (queue.length > 0)], one unit of fuel for each turn. *)
Fixpoint bfs (fuel : nat) (graph : gmap jsstring (list jsstring)) (st : TopoState)
    : option TopoState :=
  match queue st with
  | [] => Some st
  | current :: rest =>
      match fuel with
      | O => None
      | S fuel' =>
          bfs fuel' graph
            (visit graph current (mkTopoState (layers st) (inDegree st) rest))
      end
  end.

Definition topoStart (comps : list Component) (deps : list Dependency) : TopoState :=
  foldl seed (mkTopoState ∅ (buildInDegree comps deps) []) comps.

Definition topologicalSort (fuel : nat) (comps : list Component)
    (deps : list Dependency) : option (gmap jsstring Z) :=
  layers <$> bfs fuel (buildGraph comps deps) (topoStart comps deps).

(** *** [spreadOverlappingComponents] *)

(** [`${comp.y?.toFixed(3)}_${comp.stage}`] *)
Definition groupKey (comp : Component) : jsstring :=
  match y comp with
  | Some v => toFixed3 v
  | None => js "undefined"
  end ++ js "_" ++ stageName (stage comp).

(** [if (!groups.has(key)) groups.set(key, []); groups.get(key).push(comp)]:
    the groups in insertion order, each one the indices of its members. *)
Fixpoint addToGroup (key : jsstring) (i : nat) (groups : list (jsstring * list nat))
    : list (jsstring * list nat) :=
  match groups with
  | [] => [(key, [i])]
  | (k, g) :: rest =>
      if decide (k = key) then (k, g ++ [i]) :: rest
      else (k, g) :: addToGroup key i rest
  end.

(** The grouping loop, on the components from index [i] on. *)
Fixpoint groupFrom (i : nat) (comps : list Component)
    (groups : list (jsstring * list nat)) : list (jsstring * list nat) :=
  match comps with
  | [] => groups
  | comp :: rest => groupFrom (S i) rest (addToGroup (groupKey comp) i groups)
  end.

(** [(index - (group.length - 1) / 2) * (spreadRange / Math.max(group.length - 1, 1))] *)
Definition spreadOffset (spreadRange : number) (len index : nat) : number :=
  nmul (nsub (ofNat index) (ndiv (nsub (ofNat len) (ofZ 1)) (ofZ 2)))
       (ndiv spreadRange (nmax (nsub (ofNat len) (ofZ 1)) (ofZ 1))).

(** [group.forEach((comp, index) => { comp.x = baseX + offset })], on the
    members from [index] on. *)
Fixpoint spreadMembers (baseX spreadRange : number) (len index : nat)
    (members : list nat) (comps : list Component) : list Component :=
  match members with
  | [] => comps
  | i :: rest =>
      let comps' :=
        match comps !! i with
        | Some comp =>
            <[i := setX comp (Some (nadd baseX (spreadOffset spreadRange len index)))]> comps
        | None => comps
        end in
      spreadMembers baseX spreadRange len (S index) rest comps'
  end.

(** The body of [for (const [key, group] of groups)]; [spreadRange] is the
    width chosen for a group of that length. *)
Definition spreadGroup (spreadRange : nat -> number) (comps : list Component)
    (group : list nat) : list Component :=
  if bool_decide (1 < length group)%nat then
    let baseX := toNumber (head group ≫= fun i => comps !! i ≫= x) in
    spreadMembers baseX (spreadRange (length group)) (length group) 0 group comps
  else comps.

Definition spreadWith (spreadRange : nat -> number) (comps : list Component)
    : list Component :=
  foldl (spreadGroup spreadRange) comps (map snd (groupFrom 0 comps [])).

(** [baseSpread * Math.max(1, group.length / 3)] with [baseSpread = 0.12] *)
Definition adaptiveSpread (len : nat) : number :=
  nmul (Num 0.12) (nmax (ofZ 1) (ndiv (ofNat len) (ofZ 3))).

Definition spreadOverlappingComponents (comps : list Component) : list Component :=
  spreadWith adaptiveSpread comps.

(** *** [calculatePositions] *)

(** [Math.max(...layers.values(), 0)] *)
Definition maxLayerOf (layers : gmap jsstring Z) : Z :=
  foldr Z.max 0 (map snd (map_to_list layers)).

(** [layers.get(comp.name) ?? 0] *)
Definition layerOf (layers : gmap jsstring Z) (n : jsstring) : Z :=
  default 0 (layers !! n).

(** The body of the loop that assigns [y], anchors on top. *)
Definition assignY (layers : gmap jsstring Z) (maxLayer : Z) (comp : Component)
    : Component :=
  let layer := layerOf layers (name comp) in
  let comp := setY comp (Some (ndiv (ofZ (maxLayer - layer)) (ofZ (maxLayer + 1)))) in
  if isAnchor comp then setY comp (Some (ofZ 0)) else comp.

(** [map.components.find((c) => c.name === n)], as an index and the object. *)
Definition findComponent (n : jsstring) (comps : list Component)
    : option (nat * Component) :=
  list_find (fun c => name c = n) comps.

(** The body of [for (const evo of map.evolutions)]. *)
Definition inheritY (comps : list Component) (evo : Evolution) : list Component :=
  match findComponent (efrom evo) comps, findComponent (eto evo) comps with
  | Some (_, sourceComp), Some (j, targetComp) =>
      match y sourceComp with
      | Some v => <[j := setY targetComp (Some v)]> comps
      | None => comps
      end
  | _, _ => comps
  end.

Definition withComponents (m : WardleyMap) (comps : list Component) : WardleyMap :=
  mkWardleyMap (title m) comps (dependencies m) (evolutions m) (annotations m) (notes m).

Definition calculatePositions (fuel : nat) (m : WardleyMap) : option WardleyMap :=
  let comps := map (fun comp => setX comp (Some (STAGE_POSITIONS (stage comp)))) (components m) in
  layers ← topologicalSort fuel comps (dependencies m);
  let maxLayer := maxLayerOf layers in
  let comps := map (assignY layers maxLayer) comps in
  let comps := foldl inheritY comps (evolutions m) in
  Some (withComponents m (spreadOverlappingComponents comps)).

(** ** The standalone test tool ([generate-svg.js])

    The copy of the parser and of the layout in [generate-svg.js].  Its
    patterns, its [isValidStage] and its [topologicalSort] are those of the
    plugin ([||] and [??] agree on the numbers and arrays they are applied
    to); what differs is written out here. *)

Module Standalone.

Definition initialState : ParseState := mkParseState emptyMap ∅ [].

Definition declareComponent (anchor : bool) (lineNum : nat)
    (caps : list jsstring) (st : ParseState) : ParseState :=
  match caps with
  | [n; s] =>
      let name := trim n in
      match isValidStage s with
      | None =>
          pushError st lineNum (js "Invalid evolution stage '" ++ s ++ js "'")
      | Some stage =>
          if has (componentMap st) name then
            pushError st lineNum
              (js "Component '" ++ name ++ js "' declared multiple times")
          else
            let component := mkComponent name stage anchor None None in
            mkParseState (pushComponent (pmap st) component)
              (<[name := component]> (componentMap st)) (errors st)
      end
  | _ => st
  end.

(** The [evolve] branch pushes the edge without looking at [componentMap]. *)
Definition evolveComponent (caps : list jsstring) (st : ParseState) : ParseState :=
  match caps with
  | [f; t; s] => withMap st (pushEvolution (pmap st) (mkEvolution (trim f) (trim t) s))
  | _ => st
  end.

(** Only the [to] part is looked at for a label. *)
Definition chainEdge (part next : jsstring) : Dependency :=
  let from := trim part in
  let to := trim next in
  let '(to, label) :=
    match indexOf 59 to with
    | Some semicolonIdx =>
        (trim (substringTo semicolonIdx to),
         Some (trim (substringFrom (S semicolonIdx) to)))
    | None => (to, None)
    end in
  mkDependency from to label.

Fixpoint chainEdges (parts : list jsstring) : list Dependency :=
  match parts with
  | part :: rest =>
      match rest with
      | next :: _ => chainEdge part next :: chainEdges rest
      | [] => []
      end
  | [] => []
  end.

Definition parseDependencyChain (line : jsstring) : list Dependency :=
  chainEdges (splitArrow line).

(** No [evolve <a> [stage]] branch and no error for an unknown line. *)
Definition parseLine (st : ParseState) (i : nat) (raw : jsstring) : ParseState :=
  let line := trim raw in
  let lineNum := S i in
  if bool_decide (line = []) || startsWith (js "#") line then st
  else if startsWith (js "title ") line then
    withMap st (setTitle (pmap st) (trim (substringFrom 6 line)))
  else match rmatch componentRe line with
  | Some caps => declareComponent false lineNum caps st
  | None =>
  match rmatch anchorRe line with
  | Some caps => declareComponent true lineNum caps st
  | None =>
  match rmatch evolveRe line with
  | Some caps => evolveComponent caps st
  | None =>
  if includesArrow line then
    withMap st (pushDependencies (pmap st) (parseDependencyChain line))
  else match rmatch annotationRe line with
  | Some [id; text] => withMap st (pushAnnotation (pmap st) (mkAnnotation id text))
  | Some _ => st
  | None =>
  if startsWith (js "note ") line then
    withMap st (pushNote (pmap st) (trim (substringFrom 5 line)))
  else st
  end end end end.

Fixpoint parseLines (st : ParseState) (i : nat) (lines : list jsstring) : ParseState :=
  match lines with
  | [] => st
  | raw :: rest => parseLines (parseLine st i raw) (S i) rest
  end.

(** No validation pass over the dependencies. *)
Definition parseWardleyMap (source : jsstring) : ParseResult :=
  let st := parseLines initialState 0 (splitNewline source) in
  mkParseResult
    (if bool_decide (length (errors st) = 0%nat) then Some (pmap st) else None)
    (errors st).

(** [const spreadRange = 0.08] *)
Definition spreadOverlappingComponents (comps : list Component) : list Component :=
  spreadWith (fun _ => Num 0.08) comps.

(** No loop over [map.evolutions]. *)
Definition calculatePositions (fuel : nat) (m : WardleyMap) : option WardleyMap :=
  let comps := map (fun comp => setX comp (Some (STAGE_POSITIONS (stage comp)))) (components m) in
  layers ← topologicalSort fuel comps (dependencies m);
  let maxLayer := maxLayerOf layers in
  let comps := map (assignY layers maxLayer) comps in
  Some (withComponents m (spreadOverlappingComponents comps)).

End Standalone.

(** ** The pipeline: parse, then lay out *)

(** What a run hands to the presentation: the errors and, when there is
    none, the placed graph. *)
Record Outcome := mkOutcome {
  reported : list ParseError;
  placed : option WardleyMap
}.

(** [parseWardleyMap] then [renderWardleyMap], as [renderWardleyBlock] of
    the plugin chains them; [None] when the fuel of the layout runs out. *)
Definition run (fuel : nat) (source : jsstring) : option Outcome :=
  let r := parseWardleyMap source in
  match map_ r with
  | Some m => (fun m' => mkOutcome (errors_ r) (Some m')) <$> calculatePositions fuel m
  | None => Some (mkOutcome (errors_ r) None)
  end.

(** The same for [main] of [generate-svg.js]. *)
Definition runStandalone (fuel : nat) (source : jsstring) : option Outcome :=
  let r := Standalone.parseWardleyMap source in
  match map_ r with
  | Some m => (fun m' => mkOutcome (errors_ r) (Some m')) <$> Standalone.calculatePositions fuel m
  | None => Some (mkOutcome (errors_ r) None)
  end.

(** ** The pipeline in the store of the program

    What two runs of the pipeline could share is the store of the program:
    the table [STAGE_POSITIONS], an object of the module [renderer.ts] that
    every call of the layout reads, and the heap of the component objects.
    A component object is created by an object literal of the parser, is
    reached through references (from [map.components], from the result of
    [find], from the group arrays) and is written in place by the layout
    ([comp.x = ...], [comp.y = ...], [targetComp.y = ...]).  A reference is
    an index into the heap, and a creation appends to the heap.  The other
    objects (edges, annotations, errors) are never written once they are
    pushed, and stay values. *)

Module InStore.

Record Store := mkStore {
  stagePositions : EvolutionStage -> number;
  heap : list Component
}.

(** The store once the module is loaded, and the stores that the program
    can reach from it as far as the table is concerned. *)
Definition moduleStore : Store := mkStore STAGE_POSITIONS [].

Definition initialised (s : Store) : Prop :=
  forall stage, stagePositions s stage = STAGE_POSITIONS stage.

(** The map object: [components] is an array of references. *)
Record MapObject := mkMapObject {
  otitle : option jsstring;
  ocomponents : list nat;
  odependencies : list Dependency;
  oevolutions : list Evolution;
  oannotations : list Annotation;
  onotes : list jsstring
}.

(** What [parseWardleyMap] returns: [{ map, errors }]. *)
Record Returned := mkReturned {
  rmap : option MapObject;
  rerrors : list ParseError
}.

(** The objects behind the references of an array. *)
Definition deref (s : Store) (refs : list nat) : list Component :=
  omap (fun r => heap s !! r) refs.

(** The map read through its references. *)
Definition readMap (s : Store) (m : MapObject) : WardleyMap :=
  mkWardleyMap (otitle m) (deref s (ocomponents m)) (odependencies m)
    (oevolutions m) (oannotations m) (onotes m).

(** The object literals [{ name, stage, isAnchor }]: one new object at the
    end of the heap for each, in the order of their creation. *)
Definition create (objects : list Component) (s : Store) : list nat * Store :=
  (seq (length (heap s)) (length objects),
   mkStore (stagePositions s) (heap s ++ objects)).

(** [parseWardleyMap] in the store.  The parser reads nothing of the store
    and writes no component after its creation ([componentMap] holds the
    same objects and is only asked [has]): it creates the components of
    [map.components], in the order of the array, whether the map is returned
    or not, and the map that it returns holds their references. *)
Definition parseWardleyMap (source : jsstring) (s : Store) : Returned * Store :=
  let st := parseLines initialState 0 (splitNewline source) in
  let r := parseWardleyMap source in
  let '(refs, s') := create (components (pmap st)) s in
  (mkReturned
     ((fun m => mkMapObject (title m) refs (dependencies m) (evolutions m)
                  (annotations m) (notes m)) <$> map_ r)
     (errors_ r),
   s').

(** An assignment to the fields of the object behind [r]. *)
Definition write (r : nat) (f : Component -> Component) (s : Store) : Store :=
  match heap s !! r with
  | Some comp => mkStore (stagePositions s) (<[r := f comp]> (heap s))
  | None => s
  end.

(** [comp.x = STAGE_POSITIONS[comp.stage]] *)
Definition placeX (s : Store) (r : nat) : Store :=
  write r (fun comp => setX comp (Some (stagePositions s (stage comp)))) s.

(** The body of the loop that assigns [y]. *)
Definition placeY (layers : gmap jsstring Z) (maxLayer : Z) (s : Store) (r : nat)
    : Store :=
  write r (assignY layers maxLayer) s.

(** [map.components.find((c) => c.name === n)]: the first reference of the
    array whose object has that name, with the object as it is now. *)
Fixpoint find (n : jsstring) (refs : list nat) (s : Store) : option (nat * Component) :=
  match refs with
  | [] => None
  | r :: rest =>
      match heap s !! r with
      | Some comp => if decide (name comp = n) then Some (r, comp) else find n rest s
      | None => find n rest s
      end
  end.

(** The body of [for (const evo of map.evolutions)]. *)
Definition inheritY (refs : list nat) (s : Store) (evo : Evolution) : Store :=
  match find (efrom evo) refs s, find (eto evo) refs s with
  | Some (_, sourceComp), Some (j, _) =>
      match y sourceComp with
      | Some v => write j (fun targetComp => setY targetComp (Some v)) s
      | None => s
      end
  | _, _ => s
  end.

(** The grouping loop of [spreadOverlappingComponents]: the groups hold
    references. *)
Definition groupRefs (s : Store) (refs : list nat) : list (jsstring * list nat) :=
  foldl (fun groups r =>
           match heap s !! r with
           | Some comp => addToGroup (groupKey comp) r groups
           | None => groups
           end) [] refs.

Definition spreadOverlappingComponents (refs : list nat) (s : Store) : Store :=
  mkStore (stagePositions s)
    (foldl (spreadGroup adaptiveSpread) (heap s) (map snd (groupRefs s refs))).

(** [calculatePositions(map)]: it returns nothing and leaves its result in
    the objects of the map. *)
Definition calculatePositions (fuel : nat) (m : MapObject) (s : Store) : option Store :=
  let refs := ocomponents m in
  let s := foldl placeX s refs in
  layers ← topologicalSort fuel (deref s refs) (odependencies m);
  let maxLayer := maxLayerOf layers in
  let s := foldl (placeY layers maxLayer) s refs in
  let s := foldl (inheritY refs) s (oevolutions m) in
  Some (spreadOverlappingComponents refs s).

(** One run of the pipeline: [parseWardleyMap], then the layout of the map
    when there is one.  It returns what the parser returned; the
    coordinates are in the store. *)
Definition run (fuel : nat) (source : jsstring) (s : Store) : option (Returned * Store) :=
  let '(r, s1) := parseWardleyMap source s in
  match rmap r with
  | Some m => (fun s2 => (r, s2)) <$> calculatePositions fuel m s1
  | None => Some (r, s1)
  end.

(** What a caller sees of a result in a store: the errors, and the graph
    with the coordinates of its components, read through the references. *)
Definition observe (s : Store) (r : Returned) : Outcome :=
  mkOutcome (rerrors r) (readMap s <$> rmap r).

(** The map object of a graph whose component objects start at the
    reference [b]. *)
Definition objectOf (b : nat) (m : WardleyMap) : MapObject :=
  mkMapObject (title m) (seq b (length (components m))) (dependencies m)
    (evolutions m) (annotations m) (notes m).

End InStore.

(** The groups of a map whose objects start at the reference [b]. *)
Definition shiftGroups (b : nat) (groups : list (jsstring * list nat))
    : list (jsstring * list nat) :=
  map (fun g => (g.1, map (fun i => (b + i)%nat) g.2)) groups.

(** ** Concrete texts used in the examples *)

Definition nl : jsstring := [10%N].

(** [lines.join("\n")] *)
Fixpoint joinLines (lines : list jsstring) : jsstring :=
  match lines with
  | [] => []
  | [l] => l
  | l :: rest => l ++ nl ++ joinLines rest
  end.

(** The [x] and the [y] of the component called [n], when it is placed. *)
Definition placedComponent (o : option Outcome) (n : jsstring) : option Component :=
  match o with
  | Some (mkOutcome _ (Some m)) => snd <$> findComponent n (components m)
  | _ => None
  end.

Definition xOf (o : option Outcome) (n : jsstring) : option number :=
  match placedComponent o n with Some c => x c | None => None end.

Definition yOf (o : option Outcome) (n : jsstring) : option number :=
  match placedComponent o n with Some c => y c | None => None end.

(** The example of the README. *)
Definition teaShop : jsstring :=
  joinLines
    [js "title Tea Shop"; js "";
     js "anchor Business [product]"; js "anchor Public [commodity]"; js "";
     js "component Cup of Tea [product]"; js "component Cup [commodity]";
     js "component Tea [commodity]"; js "component Hot Water [commodity]";
     js "component Water [commodity]"; js "component Kettle [custom]";
     js "component Electric Kettle [product]"; js "component Power [commodity]";
     js "";
     js "Business -> Cup of Tea"; js "Public -> Cup of Tea";
     js "Cup of Tea -> Cup"; js "Cup of Tea -> Tea"; js "Cup of Tea -> Hot Water";
     js "Hot Water -> Water"; js "Hot Water -> Kettle; limited by";
     js "Kettle -> Power"; js "";
     js "evolve Kettle -> Electric Kettle [product]"; js "";
     js "annotation 1 Standardising power allows Kettles to evolve faster";
     js "annotation 2 Hot water is obvious and well known"].

(** Seven components of the first stage on one row. *)
Definition sevenGenesis : jsstring :=
  joinLines
    [js "component C1 [genesis]"; js "component C2 [genesis]";
     js "component C3 [genesis]"; js "component C4 [genesis]";
     js "component C5 [genesis]"; js "component C6 [genesis]";
     js "component C7 [genesis]"].

(** An anchor that is the target of an evolution edge. *)
Definition evolvedAnchor : jsstring :=
  joinLines
    [js "component S [custom]"; js "component T [custom]";
     js "anchor A [product]"; js "T -> S"; js "evolve S -> A [product]"].

(** A chain of two evolution edges, the second link declared first. *)
Definition reversedChain : jsstring :=
  joinLines
    [js "component A [genesis]"; js "component B [custom]";
     js "component C [product]"; js "component D [commodity]";
     js "A -> D"; js "evolve B -> C [product]"; js "evolve A -> B [custom]"].

(** A cycle between [A] and [B], where [A] also depends on the leaf [C]. *)
Definition cycleWithLeaf : WardleyMap :=
  mkWardleyMap None
    [mkComponent (js "A") genesis false None None;
     mkComponent (js "B") custom false None None;
     mkComponent (js "C") product false None None]
    [mkDependency (js "A") (js "B") None; mkDependency (js "B") (js "A") None;
     mkDependency (js "A") (js "C") None]
    [] [] [].

(** The same chain, first link first, as a graph. *)
Definition forwardChain : WardleyMap :=
  mkWardleyMap None
    [mkComponent (js "A") genesis false None None;
     mkComponent (js "B") custom false None None;
     mkComponent (js "C") product false None None;
     mkComponent (js "D") commodity false None None]
    [mkDependency (js "A") (js "D") None]
    [mkEvolution (js "A") (js "B") (js "custom");
     mkEvolution (js "B") (js "C") (js "product")]
    [] [].

(** A diamond with a shortcut: [A] depends on [B], [C] and [D], and [B]
    and [C] depend on [D]. *)
Definition diamondMap : WardleyMap :=
  mkWardleyMap None
    [mkComponent (js "A") genesis false None None;
     mkComponent (js "B") custom false None None;
     mkComponent (js "C") product false None None;
     mkComponent (js "D") commodity false None None]
    [mkDependency (js "A") (js "D") None; mkDependency (js "A") (js "B") None;
     mkDependency (js "A") (js "C") None; mkDependency (js "B") (js "D") None;
     mkDependency (js "C") (js "D") None]
    [] [] [].

(** A numbering of the nodes of [diamondMap] that decreases along its edges. *)
Definition diamondRank (n : jsstring) : nat :=
  if decide (n = js "A") then 2%nat
  else if decide (n = js "D") then 0%nat else 1%nat.

(** A label on the middle segment of a chain. *)
Definition labelledChain : jsstring :=
  joinLines
    [js "component A [genesis]"; js "component B [custom]";
     js "component C [product]"; js "A -> B; uses -> C"].

Definition twoGenesis : jsstring :=
  joinLines [js "component A [genesis]"; js "component B [genesis]"].

Definition forwardReferences : jsstring :=
  joinLines
    [js "A -> B"; js "component A [genesis]"; js "component B [custom]"].


(** ** Notions used in the statements and in the proofs *)

(** The dependency relation of a graph, and its cycles. *)
Definition dependsOn (deps : list Dependency) (a b : jsstring) : Prop :=
  exists d, d ∈ deps /\ from d = a /\ to d = b.

Definition onCycle (deps : list Dependency) (n : jsstring) : Prop :=
  tc (dependsOn deps) n n.

Definition acyclic (deps : list Dependency) : Prop :=
  forall n, ~ onCycle deps n.

(** Two coordinates that denote the same number. *)
Definition sameNumber (a b : option number) : Prop :=
  match a, b with
  | Some (Num p), Some (Num q) => (p == q)%Q
  | Some NonFinite, Some NonFinite => True
  | None, None => True
  | _, _ => False
  end.

(** The number of names whose in-degree is still positive: with the length
    of the queue, what decreases at each turn of the loop of
    [topologicalSort]. *)
Definition positiveDegrees (d : gmap jsstring Z) : nat :=
  size (filter (fun kv : jsstring * Z => 0 < kv.2) d).

Definition isPositive (z : Z) : nat := if bool_decide (0 < z) then 1%nat else 0%nat.

Definition bfsMeasure (st : TopoState) : nat :=
  (positiveDegrees (inDegree st) + length (queue st))%nat.

(** A coordinate that is defined and finite. *)
Definition isFinite (v : option number) : Prop :=
  exists q, v = Some (Num q).

(** A dependency-chain line: a line that contains [->] and is matched by
    none of the statement forms tried before. *)
Definition isChainLine (line : jsstring) : bool :=
  negb (bool_decide (line = []) || startsWith (js "#") line)
  && negb (startsWith (js "title ") line)
  && bool_decide (rmatch componentRe line = None)
  && bool_decide (rmatch anchorRe line = None)
  && bool_decide (rmatch evolveRe line = None)
  && bool_decide (rmatch evolveStageRe line = None)
  && includesArrow line.

(** The names declared when line [i] is reached, and at the end. *)
Definition declaredBefore (lines : list jsstring) (i : nat) (n : jsstring) : Prop :=
  has (componentMap (parseLines initialState 0 (take i lines))) n = true.

Definition declaredAnywhere (lines : list jsstring) (n : jsstring) : Prop :=
  has (componentMap (parseLines initialState 0 lines)) n = true.

(** The error of the validation pass for the name [n]. *)
Definition undeclaredReference (n : jsstring) : ParseError :=
  mkParseError 0 (js "Component '" ++ n ++ js "' referenced but not declared").

(** What one statement may do to the state: push errors tagged with its
    own line number, declare components, push edges. *)
Record extends (k : nat) (st st' : ParseState) : Prop := {
  ext_errors : exists new, errors st' = errors st ++ new /\ Forall (fun e => line e = k) new;
  ext_declared : forall n, has (componentMap st) n = true -> has (componentMap st') n = true;
  ext_dependencies : exists new, dependencies (pmap st') = dependencies (pmap st) ++ new
}.

(** The name table and the list of components hold the same names, each
    one once. *)
Definition tableAgrees (st : ParseState) : Prop :=
  NoDup (map name (components (pmap st))) /\
  forall n, has (componentMap st) n = true <-> n ∈ map name (components (pmap st)).

(** *** The layering, as the proofs follow it

    [P] is the list of the names dequeued so far. *)

(** The number of dependencies of [n] whose target is not yet in [P]. *)
Fixpoint pendingOf (P : list jsstring) (n : jsstring) (deps : list Dependency) : Z :=
  match deps with
  | [] => 0
  | d :: deps' =>
      (if bool_decide (from d = n /\ (to d ∉ P)) then 1 else 0) + pendingOf P n deps'
  end.

(** The number of dependencies from [n] to [c]. *)
Fixpoint edgesBetween (n c : jsstring) (deps : list Dependency) : Z :=
  match deps with
  | [] => 0
  | d :: deps' =>
      (if bool_decide (from d = n /\ to d = c) then 1 else 0) + edgesBetween n c deps'
  end.

(** The sources of the dependencies on [c], in the order of declaration:
    what [graph.get(c)] holds once the graph is built. *)
Fixpoint dependents (c : jsstring) (deps : list Dependency) : list jsstring :=
  match deps with
  | [] => []
  | d :: deps' =>
      if bool_decide (to d = c) then from d :: dependents c deps'
      else dependents c deps'
  end.

Fixpoint occurrences (n : jsstring) (l : list jsstring) : Z :=
  match l with
  | [] => 0
  | a :: l' => (if bool_decide (a = n) then 1 else 0) + occurrences n l'
  end.

(** A valid graph: unique component names, declared edge endpoints. *)
Definition validGraph (comps : list Component) (deps : list Dependency) : Prop :=
  NoDup (map name comps) /\
  forall d, d ∈ deps -> from d ∈ map name comps /\ to d ∈ map name comps.

(** The invariant of the loop of [topologicalSort] on a valid graph. *)
Record layering (comps : list Component) (deps : list Dependency)
    (P : list jsstring) (st : TopoState) : Prop := {
  lay_degree : forall n, n ∈ map name comps ->
    inDegree st !! n = Some (pendingOf P n deps);
  lay_nodup : NoDup (P ++ queue st);
  lay_ready : forall n, n ∈ P ++ queue st <->
    n ∈ map name comps /\ pendingOf P n deps = 0;
  lay_defined : forall n, n ∈ P ++ queue st -> is_Some (layers st !! n);
  lay_above : forall d, d ∈ deps -> to d ∈ P ->
    exists vf vt, layers st !! from d = Some vf /\ layers st !! to d = Some vt /\ vt < vf;
  lay_max : forall n v, layers st !! n = Some v ->
    0 <= v /\
    (v = 0 \/ exists d, d ∈ deps /\ from d = n /\ to d ∈ P /\
                        layers st !! to d = Some (v - 1))
}.

(** The candidate layers proposed to [n]: one above each of its
    dependencies. *)
Definition candidates (layers : gmap jsstring Z) (n : jsstring)
    (deps : list Dependency) : list Z :=
  (fun d => layerOf layers (to d) + 1) <$> filter (fun d => from d = n) deps.

(** *** Notions on the lines of a text *)

(** The evolution edges pushed so far name declared components. *)
Definition evolutionsDeclared (st : ParseState) : Prop :=
  Forall (fun e => has (componentMap st) (efrom e) = true /\
                   has (componentMap st) (eto e) = true)
    (evolutions (pmap st)).

(** The errors of a list carry strictly increasing line numbers. *)
Definition increasingLines (l : list ParseError) : Prop :=
  forall i j e e', (i < j)%nat -> l !! i = Some e -> l !! j = Some e' ->
    (line e < line e')%nat.



(** ** Escaping of the texts written in the drawing ([renderer.ts]) *)

(** [text.replace(/c/g, by)], for a pattern that is one code unit [c]. *)
Fixpoint replaceAll (c : N) (by_ : jsstring) (text : jsstring) : jsstring :=
  match text with
  | [] => []
  | u :: rest => (if N.eqb u c then by_ else [u]) ++ replaceAll c by_ rest
  end.

(** [escapeHtml]: the five replacements, in the order of the source. *)
Definition escapeHtml (text : jsstring) : jsstring :=
  replaceAll 39 (js "&#039;")
    (replaceAll 34 (js "&quot;")
       (replaceAll 62 (js "&gt;")
          (replaceAll 60 (js "&lt;")
             (replaceAll 38 (js "&amp;") text)))).

(** The five code units that [escapeHtml] replaces: [&], [<], [>], the
    double quote and the single quote. *)
Definition isMarkup (u : N) : bool :=
  (N.eqb u 38 || N.eqb u 60 || N.eqb u 62 || N.eqb u 34 || N.eqb u 39)%N.

(** What one code unit becomes. *)
Definition entity (u : N) : jsstring :=
  if N.eqb u 38 then js "&amp;"
  else if N.eqb u 60 then js "&lt;"
  else if N.eqb u 62 then js "&gt;"
  else if N.eqb u 34 then js "&quot;"
  else if N.eqb u 39 then js "&#039;"
  else [u].

(** The five entity references that [escapeHtml] writes. *)
Definition entities : list jsstring :=
  [js "&amp;"; js "&lt;"; js "&gt;"; js "&quot;"; js "&#039;"].

(** ** The code blocks of a note ([extractWardleyCode] of [test-svg.mjs]
    and of [generate-svg.js]) *)

(** The two literal parts of [/```wardley\n([\s\S]*?)\n```/g]. *)
Definition fenceOpen : jsstring := js "```wardley" ++ nl.
Definition fenceClose : jsstring := nl ++ js "```".

(** [([\s\S]*?)\n```] at the start of [s]: the lazy group takes one more
    code unit, of any kind, only when the closing fence does not follow.
    The result is the group and the text after the fence. *)
Fixpoint lazyBody (s : jsstring) : option (jsstring * jsstring) :=
  if startsWith fenceClose s then Some ([], drop (length fenceClose) s)
  else match s with
       | [] => None
       | u :: rest => (fun r => (u :: r.1, r.2)) <$> lazyBody rest
       end.

(** The whole pattern at the start of [s]. *)
Definition matchBlock (s : jsstring) : option (jsstring * jsstring) :=
  if startsWith fenceOpen s then lazyBody (drop (length fenceOpen) s) else None.

(** [regex.exec(markdown)] on the text from [lastIndex] on: the leftmost
    match, as its group and the text from the new [lastIndex] on. *)
Fixpoint execBlock (s : jsstring) : option (jsstring * jsstring) :=
  match matchBlock s with
  | Some r => Some r
  | None => match s with
            | [] => None
            | _ :: rest => execBlock rest
            end
  end.

(** [while ((match = regex.exec(markdown)) !== null) matches.push(match[1])],
    one unit of fuel for each call of [exec]. *)
Fixpoint execAll (fuel : nat) (s : jsstring) : option (list jsstring) :=
  match fuel with
  | O => None
  | S fuel' =>
      match execBlock s with
      | Some (body, rest) => (fun l => body :: l) <$> execAll fuel' rest
      | None => Some []
      end
  end.

(** [extractWardleyCode]; a match takes at least one code unit, so that
    the loop makes no more calls than the text has code units, plus one. *)
Definition extractWardleyCode (markdown : jsstring) : option (list jsstring) :=
  execAll (S (length markdown)) markdown.

(** [p] occurs in [s], and [s.includes(p)], which decides it. *)
Definition occursIn (p s : jsstring) : Prop :=
  exists a b, s = a ++ p ++ b.

Fixpoint includes (p s : jsstring) : bool :=
  startsWith p s ||
  match s with
  | [] => false
  | _ :: rest => includes p rest
  end.

(** *** The overlap resolution, as the proofs follow it *)

(** What the overlap resolution makes of the component [c] that stands at
    position [p] of the group [g]; [comps] are the components before the
    resolution. *)
Definition placeIn (spreadRange : nat -> number) (comps : list Component)
    (g : list nat) (p : nat) (c : Component) : Component :=
  if bool_decide (1 < length g)%nat then
    setX c (Some (nadd (toNumber (head g ≫= fun h => comps !! h ≫= x))
                       (spreadOffset (spreadRange (length g)) (length g) p)))
  else c.

(** The groups [G] built from the first [n] components of [comps]. *)
Record grouped (comps : list Component) (n : nat)
    (G : list (jsstring * list nat)) : Prop := {
  grp_keys : NoDup (map fst G);
  grp_members : forall k g i, (k, g) ∈ G -> i ∈ g ->
    (i < n)%nat /\ groupKey <$> comps !! i = Some k;
  grp_all : forall i c, (i < n)%nat -> comps !! i = Some c ->
    exists g, (groupKey c, g) ∈ G /\ i ∈ g;
  grp_once : NoDup (concat (map snd G));
  grp_order : forall k g p p' i i', (k, g) ∈ G -> (p < p')%nat ->
    g !! p = Some i -> g !! p' = Some i' -> (i < i')%nat
}.

#[global] Instance EvolutionStage_eq_dec : EqDecision EvolutionStage.
Proof. solve_decision. Defined.

(** The graph of the example of the README. *)
Definition teaShopMap : WardleyMap :=
  default emptyMap (map_ (parseWardleyMap teaShop)).

(** A row of the drawing: the [k]-th of the [maxLayer + 1] rows, from the
    top. *)
Definition onRow (maxLayer k : Z) (v : option number) : Prop :=
  0 <= k <= maxLayer /\
  exists q, v = Some (Num q) /\ (q == inject_Z k / inject_Z (maxLayer + 1))%Q.

(** ** The drawing ([renderWardleyMap] of [renderer.ts])

    The drawing is the text that the source builds, line by line.  A number
    written into the text goes through [numberToString], the conversion of
    a number to a string that a template literal applies: the map and the
    layout are modelled with exact numbers, so that the digits that
    JavaScript prints for them are left to this parameter. *)

(** A piece of a template literal of the source.  The backquote stands for
    the double quote of the source. *)
Definition lit (s : string) : jsstring :=
  map (fun a => if Ascii.eqb a "`" then 34%N else N_of_ascii a)
    (list_ascii_of_string s).
Arguments lit s%_string.

Definition tab : jsstring := [9%N].

Definition STAGE_LABELS (s : EvolutionStage) : jsstring :=
  match s with
  | genesis => js "Genesis"
  | custom => js "Custom Built"
  | product => js "Product"
  | commodity => js "Commodity"
  end.

(** [STAGE_COLORS]: the [fill] and the [stroke] of a stage. *)
Definition STAGE_COLORS (s : EvolutionStage) : jsstring * jsstring :=
  match s with
  | genesis => (js "#FF6B6B", js "#C92A2A")
  | custom => (js "#4ECDC4", js "#0B7285")
  | product => (js "#45B7D1", js "#1971C2")
  | commodity => (js "#96CEB4", js "#2F9E44")
  end.

Definition getStageColors (s : EvolutionStage) : jsstring * jsstring :=
  STAGE_COLORS s.

Record RenderOptions := mkRenderOptions {
  width : option number;
  height : option number;
  padding : option number;
  nodeRadius : option number;
  fontSize : option number
}.

(** The options that [main.ts] and [test-svg.mjs] pass. *)
Definition pluginOptions : RenderOptions :=
  mkRenderOptions (Some (ofZ 800)) (Some (ofZ 600)) (Some (ofZ 60))
    (Some (ofZ 8)) (Some (ofZ 12)).

(** [padding + x * (width - 2 * padding)] *)
Definition pixelX (padding width x : number) : number :=
  nadd padding (nmul x (nsub width (nmul (ofZ 2) padding))).

(** [padding + y * (height - 2 * padding - 40)] *)
Definition pixelY (padding height y : number) : number :=
  nadd padding (nmul y (nsub (nsub height (nmul (ofZ 2) padding)) (ofZ 40))).

(** The arrow marker definitions, one string over eight lines. *)
Definition svgDefs : jsstring :=
  lit "<defs>" ++ nl ++
  tab ++ tab ++ lit "<marker id=`arrowhead` markerWidth=`10` markerHeight=`10` refX=`9` refY=`3` orient=`auto`>" ++ nl ++
  tab ++ tab ++ tab ++ lit "<polygon points=`0 0, 10 3, 0 6` fill=`#4A90E2` />" ++ nl ++
  tab ++ tab ++ lit "</marker>" ++ nl ++
  tab ++ tab ++ lit "<marker id=`arrowhead-evolution` markerWidth=`10` markerHeight=`10` refX=`9` refY=`3` orient=`auto`>" ++ nl ++
  tab ++ tab ++ tab ++ lit "<polygon points=`0 0, 10 3, 0 6` fill=`#9B59B6` />" ++ nl ++
  tab ++ tab ++ lit "</marker>" ++ nl ++
  tab ++ lit "</defs>".

Section Rendering.

Variable numberToString : number -> jsstring.

Definition svgHeader (width height : number) : jsstring :=
  lit "<svg xmlns=`http://www.w3.org/2000/svg` viewBox=`0 0 " ++ numberToString width ++
  lit " " ++ numberToString height ++ lit "` class=`wardley-map`>".

Definition svgBackground (width height : number) : jsstring :=
  lit "<rect width=`" ++ numberToString width ++ lit "` height=`" ++
  numberToString height ++ lit "` fill=`white`/>".

(** The body of [for (const stage of stages)]: a grid line and a label. *)
Definition stageGrid (width height padding : number) (stage : EvolutionStage)
    : list jsstring :=
  let stageY := nadd (nsub height padding) (ofZ 30) in
  let x := nadd padding (nmul (STAGE_POSITIONS stage) (nsub width (nmul (ofZ 2) padding))) in
  [lit "<line x1=`" ++ numberToString x ++ lit "` y1=`" ++ numberToString padding ++
   lit "` x2=`" ++ numberToString x ++ lit "` y2=`" ++ numberToString (nsub height padding) ++
   lit "` stroke=`#e0e0e0` stroke-width=`1` stroke-dasharray=`4,4`/>";
   lit "<text x=`" ++ numberToString x ++ lit "` y=`" ++ numberToString stageY ++
   lit "` text-anchor=`middle` font-size=`11` fill=`#666`>" ++ STAGE_LABELS stage ++
   lit "</text>"].

Definition axesLabels (width height : number) : list jsstring :=
  [lit "<text x=`" ++ numberToString (ndiv width (ofZ 2)) ++ lit "` y=`" ++
   numberToString (nsub height (ofZ 10)) ++
   lit "` text-anchor=`middle` font-size=`12` font-weight=`bold` fill=`#333`>Evolution " ++
   [8594%N] ++ lit "</text>";
   lit "<text x=`20` y=`" ++ numberToString (ndiv height (ofZ 2)) ++
   lit "` text-anchor=`middle` font-size=`12` font-weight=`bold` fill=`#333` transform=`rotate(-90, 20, " ++
   numberToString (ndiv height (ofZ 2)) ++ lit ")`>Value Chain " ++
   [8593%N] ++ lit "</text>"].

(** [if (map.title)]: an empty title is not drawn. *)
Definition titleText (width : number) (title : option jsstring) : list jsstring :=
  match title with
  | Some (u :: t) =>
      [lit "<text x=`" ++ numberToString (ndiv width (ofZ 2)) ++
       lit "` y=`30` text-anchor=`middle` font-size=`18` font-weight=`bold` fill=`#000`>" ++
       escapeHtml (u :: t) ++ lit "</text>"]
  | _ => []
  end.

(** The end points of an edge between two components that are found and
    placed: [x1], [y1], [x2] and [y2]. *)
Definition edgeEnds (width height padding : number) (comps : list Component)
    (from to : jsstring) : option (number * number * number * number) :=
  match findComponent from comps, findComponent to comps with
  | Some (_, fromComp), Some (_, toComp) =>
      match x fromComp, y fromComp, x toComp, y toComp with
      | Some fx, Some fy, Some tx, Some ty =>
          Some (pixelX padding width fx, pixelY padding height fy,
                pixelX padding width tx, pixelY padding height ty)
      | _, _, _, _ => None
      end
  | _, _ => None
  end.

(** The body of [for (const dep of map.dependencies)]. *)
Definition dependencyArrow (width height padding : number) (comps : list Component)
    (dep : Dependency) : list jsstring :=
  match edgeEnds width height padding comps (from dep) (to dep) with
  | Some (x1, y1, x2, y2) =>
      (lit "<line x1=`" ++ numberToString x1 ++ lit "` y1=`" ++ numberToString y1 ++
       lit "` x2=`" ++ numberToString x2 ++ lit "` y2=`" ++ numberToString y2 ++
       lit "` stroke=`#4A90E2` stroke-width=`2` marker-end=`url(#arrowhead)`/>") ::
      match label dep with
      | Some (u :: t) =>
          let midX := ndiv (nadd x1 x2) (ofZ 2) in
          let midY := ndiv (nadd y1 y2) (ofZ 2) in
          [lit "<text x=`" ++ numberToString midX ++ lit "` y=`" ++
           numberToString (nsub midY (ofZ 5)) ++
           lit "` text-anchor=`middle` font-size=`10` fill=`#666`>" ++
           escapeHtml (u :: t) ++ lit "</text>"]
      | _ => []
      end
  | None => []
  end.

(** The body of [for (const evo of map.evolutions)]. *)
Definition evolutionArrow (width height padding : number) (comps : list Component)
    (evo : Evolution) : list jsstring :=
  match edgeEnds width height padding comps (efrom evo) (eto evo) with
  | Some (x1, y1, x2, y2) =>
      [lit "<line x1=`" ++ numberToString x1 ++ lit "` y1=`" ++ numberToString y1 ++
       lit "` x2=`" ++ numberToString x2 ++ lit "` y2=`" ++ numberToString y2 ++
       lit "` stroke=`#9B59B6` stroke-width=`2` stroke-dasharray=`5,5` marker-end=`url(#arrowhead-evolution)`/>"]
  | None => []
  end.

(** The body of [for (const comp of map.components)]: a circle and a
    label, or nothing when a coordinate is missing. *)
Definition componentNode (width height padding nodeRadius fontSize : number)
    (comp : Component) : list jsstring :=
  match x comp, y comp with
  | Some cx, Some cy =>
      let x := pixelX padding width cx in
      let y := pixelY padding height cy in
      let colors := getStageColors (stage comp) in
      [lit "<circle cx=`" ++ numberToString x ++ lit "` cy=`" ++ numberToString y ++
       lit "` r=`" ++ numberToString nodeRadius ++ lit "` fill=`" ++ colors.1 ++
       lit "` stroke=`" ++ colors.2 ++ lit "` stroke-width=`2` class=`" ++
       (if isAnchor comp then js "anchor" else js "component") ++ lit "`/>";
       lit "<text x=`" ++ numberToString x ++ lit "` y=`" ++
       numberToString (nsub (nsub y nodeRadius) (ofZ 5)) ++
       lit "` text-anchor=`middle` font-size=`" ++ numberToString fontSize ++
       lit "` font-weight=`bold` fill=`#000`>" ++ escapeHtml (name comp) ++ lit "</text>"]
  | _, _ => []
  end.

(** [for (const ann of map.annotations)], from [annotY] on. *)
Fixpoint annotationTexts (padding annotY : number) (anns : list Annotation)
    : list jsstring :=
  match anns with
  | [] => []
  | ann :: rest =>
      (lit "<text x=`" ++ numberToString padding ++ lit "` y=`" ++ numberToString annotY ++
       lit "` font-size=`10` fill=`#666`>[" ++ id ann ++ lit "] " ++
       escapeHtml (text ann) ++ lit "</text>") ::
      annotationTexts padding (nadd annotY (ofZ 12)) rest
  end.

(** The array [svg] when [renderWardleyMap] joins it; [map] is the map
    after [calculatePositions]. *)
Definition svgLines (map : WardleyMap) (options : RenderOptions) : list jsstring :=
  let width := default (ofZ 800) (width options) in
  let height := default (ofZ 600) (height options) in
  let padding := default (ofZ 60) (padding options) in
  let nodeRadius := default (ofZ 8) (nodeRadius options) in
  let fontSize := default (ofZ 12) (fontSize options) in
  [svgHeader width height; svgDefs; svgBackground width height] ++
  concat (List.map (stageGrid width height padding) [genesis; custom; product; commodity]) ++
  axesLabels width height ++
  titleText width (title map) ++
  concat (List.map (dependencyArrow width height padding (components map)) (dependencies map)) ++
  concat (List.map (evolutionArrow width height padding (components map)) (evolutions map)) ++
  concat (List.map (componentNode width height padding nodeRadius fontSize) (components map)) ++
  annotationTexts padding (nsub height (ofZ 35)) (annotations map) ++
  [lit "</svg>"].

(** [renderWardleyMap]: the layout, then the text; [None] when the fuel of
    the layout runs out. *)
Definition renderWardleyMap (fuel : nat) (map : WardleyMap) (options : RenderOptions)
    : option jsstring :=
  (fun placed => joinLines (svgLines placed options)) <$> calculatePositions fuel map.

End Rendering.

(** [(svg.match(/<circle/g) || []).length] and the like: the matches of a
    literal pattern, found from left to right, the search going on after
    the end of a match.  [skip] is the number of code units of the last
    match that are still to pass. *)
Fixpoint countFrom (p : jsstring) (skip : nat) (s : jsstring) : nat :=
  match s with
  | [] => 0
  | _ :: rest =>
      match skip with
      | S k => countFrom p k rest
      | O =>
          if startsWith p s then S (countFrom p (length p - 1) rest)
          else countFrom p 0 rest
      end
  end.

Definition countMatches (p s : jsstring) : nat := countFrom p 0 s.

(** The number of places where [p] occurs in [s]. *)
Fixpoint countOcc (p s : jsstring) : nat :=
  match s with
  | [] => 0
  | _ :: rest => (if startsWith p s then 1 else 0) + countOcc p rest
  end.

(** The places where [p] occurs in the lines of a list, all together. *)
Definition countIn (p : jsstring) (lines : list jsstring) : nat :=
  foldr (fun l n => (countOcc p l + n)%nat) 0%nat lines.

(** [1] when the edge between [from] and [to] is drawn, [0] otherwise. *)
Definition drawn (width height padding : number) (comps : list Component)
    (from to : jsstring) : nat :=
  match edgeEnds width height padding comps from to with
  | Some _ => 1%nat
  | None => 0%nat
  end.

(** [1] when the tag [p] is the tag [t], [0] otherwise. *)
Definition isTag (p t : jsstring) : nat := if decide (p = t) then 1%nat else 0%nat.

(** The texts that open or close the elements of the drawing. *)
Definition svgTags : list jsstring :=
  [lit "<svg "; lit "<defs>"; lit "<marker "; lit "<polygon "; lit "</marker>";
   lit "</defs>"; lit "<rect "; lit "<line "; lit "<text "; lit "</text>";
   lit "<circle "; lit "</svg>"].

(** Every [<] of [s] starts one of them. *)
Fixpoint tagsOnly (s : jsstring) : bool :=
  match s with
  | [] => true
  | u :: rest =>
      (negb (N.eqb u 60) || existsb (fun tag => startsWith tag s) svgTags)
      && tagsOnly rest
  end.

(** ** The block of a note ([renderWardleyBlock] of [main.ts]) *)

(** What the container holds in the end: the list of the errors, the
    drawing, or nothing. *)
Inductive Display :=
  | ErrorList (items : list jsstring)
  | MapDrawing (svg : jsstring)
  | Blank.

(** The text of one item of the list:
    [error.line > 0 ? `Line ${error.line}: ${error.message}` : error.message]. *)
Definition errorItem (error : ParseError) : jsstring :=
  if (0 <? line error)%nat then
    js "Line " ++ digits (Z.of_nat (line error)) ++ js ": " ++ message error
  else message error.

Definition renderWardleyBlock (numberToString : number -> jsstring) (fuel : nat)
    (source : jsstring) : option Display :=
  let r := parseWardleyMap source in
  if (0 <? length (errors_ r))%nat then Some (ErrorList (errorItem <$> errors_ r))
  else match map_ r with
       | Some map => MapDrawing <$> renderWardleyMap numberToString fuel map pluginOptions
       | None => Some Blank
       end.

(** ** Evaluation *)

(** Closed goals on concrete texts are settled by evaluation. *)
Ltac evaluate := vm_compute; first [reflexivity | discriminate].
Ltac evaluate_all :=
  repeat match goal with
         | |- _ /\ _ => split
         end; evaluate.

(** A code unit that does not occur in a closed text. *)
Ltac closed_free := apply (bool_decide_unpack _); vm_compute; exact I.

(** The same for the identifiers of the annotations of a closed map. *)
Ltac anns_free :=
  let a := fresh "a" in
  let Ha := fresh "Ha" in
  apply Forall_forall; intros a Ha; apply list_elem_of_In in Ha; vm_compute in Ha;
  repeat (destruct Ha as [<-|Ha]; [closed_free|]); destruct Ha.

(** * Properties *)

(** ** The whole-map outcome of the parser *)

(** C1. For every input text, [parseWardleyMap] returns a null map exactly
    when the error list is not empty, and an empty error list comes with a
    map: no graph is returned alongside errors. *)
Theorem parseWardleyMap_fail_closed (source : jsstring) :
  (map_ (parseWardleyMap source) = None <-> errors_ (parseWardleyMap source) <> []) /\
  (errors_ (parseWardleyMap source) = [] ->
   exists m, map_ (parseWardleyMap source) = Some m).
Proof.
  unfold parseWardleyMap, parseProgram. cbn [map_ errors_].
  destruct (validateDependencies _) as [|e errs] eqn:E; cbn.
  - split; [split; [discriminate | congruence] | eauto].
  - split; [split; [discriminate | reflexivity] | discriminate].
Qed.

(** ** The parser, line by line *)

Lemma has_true (cm : gmap jsstring Component) (n : jsstring) :
  has cm n = true <-> is_Some (cm !! n).
Proof. unfold has. apply bool_decide_eq_true. Qed.

Lemma parseLines_app (st : ParseState) (k : nat) (pre post : list jsstring) :
  parseLines st k (pre ++ post) =
  parseLines (parseLines st k pre) (k + length pre) post.
Proof.
  revert st k. induction pre as [|l pre IH]; intros st k; cbn.
  - f_equal. lia.
  - rewrite IH. f_equal. lia.
Qed.

Lemma extends_refl (k : nat) (st : ParseState) : extends k st st.
Proof.
  split; [exists []|done|exists []]; rewrite app_nil_r; done.
Qed.

Lemma extends_pushError (k : nat) (st : ParseState) (msg : jsstring) :
  extends k st (pushError st k msg).
Proof.
  split; cbn; [|done|exists []; rewrite app_nil_r; done].
  eexists. split; [done|]. repeat constructor.
Qed.

Lemma extends_withMap (k : nat) (st : ParseState) (m : WardleyMap) :
  (exists new, dependencies m = dependencies (pmap st) ++ new) ->
  extends k st (withMap st m).
Proof.
  intros Hd. split; cbn; [exists []|done|done]. rewrite app_nil_r. done.
Qed.

Lemma extends_declareComponent (anchor : bool) (k : nat) (caps : list jsstring)
    (st : ParseState) :
  extends k st (declareComponent anchor k caps st).
Proof.
  unfold declareComponent.
  destruct caps as [|n [|s [|]]]; try apply extends_refl.
  destruct (isValidStage s); [|apply extends_pushError].
  destruct (has (componentMap st) (trim n)) eqn:Hhas; [apply extends_pushError|].
  split; cbn.
  - exists []. rewrite app_nil_r. done.
  - intros n'. rewrite !has_true. intros [c Hc].
    destruct (decide (trim n = n')) as [->|Hne].
    + rewrite lookup_insert_eq. eauto.
    + rewrite lookup_insert_ne by done. eauto.
  - exists []. rewrite app_nil_r. done.
Qed.

Lemma extends_evolveComponent (k : nat) (caps : list jsstring) (st : ParseState) :
  extends k st (evolveComponent k caps st).
Proof.
  unfold evolveComponent.
  destruct caps as [|f [|t [|s [|]]]]; try apply extends_refl.
  destruct (has (componentMap st) (trim f)); cbn; [|apply extends_pushError].
  destruct (has (componentMap st) (trim t)); cbn; [|apply extends_pushError].
  apply extends_withMap. exists []. cbn. rewrite app_nil_r. done.
Qed.

Lemma extends_evolveStage (k : nat) (caps : list jsstring) (st : ParseState) :
  extends k st (evolveStage k caps st).
Proof.
  unfold evolveStage.
  destruct caps as [|n [|s [|]]]; try apply extends_refl.
  destruct (has (componentMap st) (trim n)); cbn; [apply extends_refl|apply extends_pushError].
Qed.

Lemma extends_parseLine (st : ParseState) (i : nat) (raw : jsstring) :
  extends (S i) st (parseLine st i raw).
Proof.
  unfold parseLine.
  destruct (_ || _); [apply extends_refl|].
  destruct (startsWith (js "title ") _).
  { apply extends_withMap. exists []. cbn. rewrite app_nil_r. done. }
  destruct (rmatch componentRe _); [apply extends_declareComponent|].
  destruct (rmatch anchorRe _); [apply extends_declareComponent|].
  destruct (rmatch evolveRe _); [apply extends_evolveComponent|].
  destruct (rmatch evolveStageRe _); [apply extends_evolveStage|].
  destruct (includesArrow _).
  { apply extends_withMap. cbn. eauto. }
  destruct (rmatch annotationRe _) as [[|a [|b [|]]]|]; try apply extends_refl.
  { apply extends_withMap. exists []. cbn. rewrite app_nil_r. done. }
  destruct (startsWith (js "note ") _); [|apply extends_pushError].
  apply extends_withMap. exists []. cbn. rewrite app_nil_r. done.
Qed.

(** The statements of the lines [k+1 .. k+length lines]. *)
Lemma parseLines_extends (lines : list jsstring) :
  forall st k,
    (exists new, errors (parseLines st k lines) = errors st ++ new /\
       Forall (fun e => k < line e <= k + length lines)%nat new) /\
    (forall n, has (componentMap st) n = true ->
       has (componentMap (parseLines st k lines)) n = true) /\
    (exists new, dependencies (pmap (parseLines st k lines)) =
       dependencies (pmap st) ++ new).
Proof.
  induction lines as [|raw lines IH]; intros st k; cbn [parseLines].
  - split; [|split]; [exists []|done|exists []]; rewrite app_nil_r; try done.
  - destruct (extends_parseLine st k raw) as [(new1 & He1 & Hl1) Hd1 (dep1 & Hdep1)].
    destruct (IH (parseLine st k raw) (S k)) as ((new2 & He2 & Hl2) & Hd2 & (dep2 & Hdep2)).
    split; [|split].
    + exists (new1 ++ new2). rewrite He2, He1, app_assoc. split; [done|].
      apply Forall_app. split.
      * eapply Forall_impl; [exact Hl1|]. cbn. intros e ->. lia.
      * eapply Forall_impl; [exact Hl2|]. cbn. intros e. lia.
    + eauto.
    + exists (dep1 ++ dep2). rewrite Hdep2, Hdep1, app_assoc. done.
Qed.

(** A name that is declared stays declared. *)
Lemma declaredBefore_anywhere (lines : list jsstring) (i : nat) (n : jsstring) :
  declaredBefore lines i n -> declaredAnywhere lines n.
Proof.
  unfold declaredBefore, declaredAnywhere. intros H.
  rewrite <- (take_drop i lines) at 1. rewrite parseLines_app.
  apply parseLines_extends. done.
Qed.





(** *** Which branch takes a line *)





(** *** The graphs that the parser returns are valid *)

Lemma tableAgrees_declareComponent (anchor : bool) (k : nat) (caps : list jsstring)
    (st : ParseState) :
  tableAgrees st -> tableAgrees (declareComponent anchor k caps st).
Proof.
  intros [Hnd Hhas]. unfold declareComponent.
  destruct caps as [|n [|s [|]]]; try done.
  destruct (isValidStage s); [|done].
  destruct (has (componentMap st) (trim n)) eqn:Hn; [done|].
  split; cbn.
  - rewrite fmap_app. cbn. apply NoDup_app. split; [done|]. split.
    + intros m Hm ->%list_elem_of_singleton. apply Hhas in Hm. congruence.
    + apply NoDup_singleton.
  - intros m. rewrite fmap_app, elem_of_app, <- Hhas, !has_true. cbn.
    rewrite list_elem_of_singleton.
    destruct (decide (trim n = m)) as [->|Hne].
    + rewrite lookup_insert_eq. split; eauto.
    + rewrite lookup_insert_ne by done. split; [eauto|]. intros [?|?]; congruence.
Qed.

Lemma tableAgrees_parseLine (st : ParseState) (i : nat) (raw : jsstring) :
  tableAgrees st -> tableAgrees (parseLine st i raw).
Proof.
  intros Hst. unfold parseLine.
  destruct (_ || _); [done|].
  destruct (startsWith (js "title ") _); [done|].
  destruct (rmatch componentRe _); [apply tableAgrees_declareComponent; done|].
  destruct (rmatch anchorRe _); [apply tableAgrees_declareComponent; done|].
  destruct (rmatch evolveRe _) as [caps|].
  { unfold evolveComponent. destruct caps as [|f [|t [|s [|]]]]; try done.
    destruct (negb _); [done|]. destruct (negb _); done. }
  destruct (rmatch evolveStageRe _) as [caps|].
  { unfold evolveStage. destruct caps as [|n [|s [|]]]; try done.
    destruct (negb _); done. }
  destruct (includesArrow _); [done|].
  destruct (rmatch annotationRe _) as [[|a [|b [|]]]|]; try done.
  destruct (startsWith (js "note ") _); done.
Qed.

Lemma tableAgrees_parseLines (lines : list jsstring) :
  forall st k, tableAgrees st -> tableAgrees (parseLines st k lines).
Proof.
  induction lines as [|raw lines IH]; intros st k Hst; cbn; [done|].
  apply IH, tableAgrees_parseLine, Hst.
Qed.

(** A map returned by the parser has unique component names and declared
    edge endpoints. *)
Lemma parseWardleyMap_valid (source : jsstring) (m : WardleyMap) :
  map_ (parseWardleyMap source) = Some m ->
  validGraph (components m) (dependencies m).
Proof.
  unfold parseWardleyMap, parseProgram. cbn [map_].
  set (st := parseLines initialState 0 (splitNewline source)).
  case_bool_decide as Herr; [|done]. intros [= <-].
  destruct (tableAgrees_parseLines (splitNewline source) initialState 0) as [Hnd Hhas].
  { split; [constructor|]. intros n. rewrite has_true. cbn.
    rewrite lookup_empty. split; [intros []; done|]. intros H. inversion H. }
  fold st in Hnd, Hhas. split; [done|].
  intros d Hd. apply length_zero_iff_nil in Herr.
  unfold validateDependencies in Herr. apply app_eq_nil in Herr as [_ Herr].
  assert (validateDependency (componentMap st) d = []) as Hval.
  { apply list_elem_of_In in Hd.
    assert (In (validateDependency (componentMap st) d)
              (map (validateDependency (componentMap st)) (dependencies (pmap st)))) as Hin.
    { apply in_map. done. }
    destruct (validateDependency (componentMap st) d) as [|e l] eqn:E; [done|].
    assert (In e (concat (map (validateDependency (componentMap st)) (dependencies (pmap st)))))
      as He.
    { apply in_concat. eexists. split; [exact Hin|]. left. done. }
    rewrite Herr in He. destruct He. }
  unfold validateDependency in Hval. apply app_eq_nil in Hval as [Hf Ht].
  rewrite <- !Hhas.
  destruct (has (componentMap st) (from d)); [|done].
  destruct (has (componentMap st) (to d)); done.
Qed.

(** ** When references are validated *)



(** A chain that refers to components declared further down is accepted. *)
Lemma forward_references_accepted :
  isChainLine (js "A -> B") = true /\
  errors_ (parseWardleyMap forwardReferences) = [] /\
  exists m, map_ (parseWardleyMap forwardReferences) = Some m /\
    dependencies m = [mkDependency (js "A") (js "B") None].
Proof.
  split; [evaluate|]. split; [evaluate|]. eexists. split; evaluate.
Qed.

(** ** What the chain parser does strip *)

Lemma indexOf_None (c : N) (s : jsstring) : indexOf c s = None <-> c ∉ s.
Proof.
  induction s as [|a s IH]; cbn.
  - split; [|done]. intros _ H. inversion H.
  - rewrite not_elem_of_cons. destruct (N.eqb_spec a c) as [->|Hne].
    + split; [done|]. intros [H _]. done.
    + destruct (indexOf c s); cbn.
      * split; [done|]. intros [_ H]. apply IH in H. done.
      * split; [|done]. intros _. split; [congruence|]. apply IH. done.
Qed.

Lemma indexOf_take (c : N) (s : jsstring) (k : nat) :
  indexOf c s = Some k -> c ∉ take k s.
Proof.
  revert k. induction s as [|a s IH]; intros k; cbn; [done|].
  destruct (N.eqb_spec a c) as [->|Hne].
  - intros [= <-]. cbn. intros H. inversion H.
  - destruct (indexOf c s) as [k'|]; cbn; [|done]. intros [= <-]. cbn.
    rewrite not_elem_of_cons. split; [congruence|]. apply IH. done.
Qed.

Lemma dropWhile_subset (p : N -> bool) (s : jsstring) (c : N) :
  c ∈ dropWhile p s -> c ∈ s.
Proof.
  induction s as [|a s IH]; cbn; [done|].
  destruct (p a); [|done]. intros H. apply list_elem_of_further, IH, H.
Qed.

Lemma elem_of_rev (s : jsstring) (c : N) : c ∈ rev s <-> c ∈ s.
Proof. rewrite !list_elem_of_In. symmetry. apply in_rev. Qed.

Lemma trim_subset (s : jsstring) (c : N) : c ∈ trim s -> c ∈ s.
Proof.
  unfold trim, trimEnd, trimStart. intros H.
  apply elem_of_rev, dropWhile_subset, elem_of_rev, dropWhile_subset in H.
  done.
Qed.


Lemma chainEdge_first_from_stripped (part next : jsstring) :
  59%N ∉ from (chainEdge 0 part next).
Proof.
  unfold chainEdge.
  destruct (indexOf 59 (trim next)) as [k|]; cbn;
    destruct (indexOf 59 (trim part)) as [k'|] eqn:Hk; cbn.
  all: try (intros H%trim_subset; revert H; apply indexOf_take; done).
  all: apply indexOf_None; done.
Qed.

Lemma chainEdges_length (i : nat) (parts : list jsstring) :
  length (chainEdges i parts) = (length parts - 1)%nat.
Proof.
  revert i. induction parts as [|p parts IH]; intros i; cbn; [done|].
  destruct parts as [|q parts]; [done|]. cbn [length]. rewrite IH. cbn. lia.
Qed.

(** ** Labels in a dependency chain *)

(** C8. In [A -> B; uses -> C] the label is stripped from the target of the
    first edge but not from the source of the second one, whose name is
    [B; uses]; the validation pass then rejects the map. *)
Theorem inner_label_kept_in_source :
  parseDependencyChain (js "A -> B; uses -> C") =
    [mkDependency (js "A") (js "B") (Some (js "uses"));
     mkDependency (js "B; uses") (js "C") None] /\
  parseWardleyMap labelledChain =
    mkParseResult None
      [mkParseError 0 (js "Component 'B; uses' referenced but not declared")].
Proof.
  evaluate_all.
Qed.

(** ** Scenarios of the documentation *)

(** The tea shop of the README parses without error into ten components,
    eight dependencies, one evolution edge and two annotations. *)
Example teaShop_parses :
  exists m,
    parseWardleyMap teaShop = mkParseResult (Some m) [] /\
    title m = Some (js "Tea Shop") /\
    length (components m) = 10%nat /\ length (dependencies m) = 8%nat /\
    length (evolutions m) = 1%nat /\ length (annotations m) = 2%nat /\
    label <$> dependencies m !! 6%nat = Some (Some (js "limited by")).
Proof. eexists. evaluate_all. Qed.

(** A component declared twice is reported on the line of the second
    declaration, and an unknown stage on its line; no map is returned. *)
Example duplicate_component_reported :
  parseWardleyMap (joinLines [js "component Kettle [custom]"; js "component Kettle [custom]"]) =
    mkParseResult None
      [mkParseError 2 (js "Component 'Kettle' declared multiple times")].
Proof. evaluate. Qed.

Example invalid_stage_reported :
  parseWardleyMap (js "component Kettle [intermediate]") =
    mkParseResult None
      [mkParseError 1
         (js "Invalid evolution stage 'intermediate'. Must be: genesis, custom, product, commodity")].
Proof. evaluate. Qed.

(** Two components and one dependency: two layers, the source on top. *)
Example two_layers_placed :
  exists o xa ya xb yb,
    run 2 (joinLines [js "component A [genesis]"; js "component B [commodity]"; js "A -> B"])
      = Some o /\
    reported o = [] /\
    xOf (Some o) (js "A") = Some (Num xa) /\ yOf (Some o) (js "A") = Some (Num ya) /\
    xOf (Some o) (js "B") = Some (Num xb) /\ yOf (Some o) (js "B") = Some (Num yb) /\
    (xa == 0.125)%Q /\ (ya == 0)%Q /\ (xb == 0.875)%Q /\ (yb == 0.5)%Q.
Proof. eexists _, _, _, _, _. evaluate_all. Qed.

(** In the tea shop the evolved kettle shares the row of the kettle, and the
    four commodities of the bottom row are spread over 0.16. *)
Example teaShop_placed :
  exists o,
    run 10 teaShop = Some o /\
    sameNumber (yOf (Some o) (js "Kettle")) (Some (Num 0.6)) /\
    sameNumber (yOf (Some o) (js "Electric Kettle")) (Some (Num 0.6)) /\
    sameNumber (xOf (Some o) (js "Cup")) (Some (Num 0.795)) /\
    sameNumber (xOf (Some o) (js "Power")) (Some (Num 0.955)).
Proof. eexists. evaluate_all. Qed.

(** ** Termination of the layering *)

Lemma positiveDegrees_delete (d : gmap jsstring Z) (n : jsstring) :
  positiveDegrees (delete n d) =
    (positiveDegrees d - isPositive (default 0%Z (d !! n)))%nat.
Proof.
  unfold positiveDegrees, isPositive.
  rewrite map_filter_delete, map_size_delete, map_lookup_filter.
  destruct (d !! n) as [w|] eqn:E; cbn.
  - case_bool_decide.
    + rewrite option_guard_True by done. cbn. lia.
    + rewrite option_guard_False by done. cbn. lia.
  - rewrite bool_decide_false by lia. lia.
Qed.

Lemma positiveDegrees_insert (d : gmap jsstring Z) (n : jsstring) (v : Z) :
  positiveDegrees (<[n := v]> d) =
    (isPositive v + (positiveDegrees d - isPositive (default 0%Z (d !! n))))%nat.
Proof.
  rewrite <- positiveDegrees_delete.
  unfold positiveDegrees, isPositive.
  rewrite map_filter_insert. cbn [snd].
  case_decide.
  - rewrite bool_decide_true by done.
    rewrite <- insert_delete_eq, map_filter_delete.
    rewrite map_size_insert_None; [lia|].
    apply lookup_delete_eq.
  - rewrite bool_decide_false by done. lia.
Qed.

Lemma isPositive_le_positiveDegrees (d : gmap jsstring Z) (n : jsstring) :
  (isPositive (default 0%Z (d !! n)) <= positiveDegrees d)%nat.
Proof.
  unfold isPositive. case_bool_decide as Hpos; [|lia].
  destruct (d !! n) as [w|] eqn:E; cbn in Hpos; [|lia].
  assert (is_Some (filter (fun kv : jsstring * Z => 0 < kv.2) d !! n)) as Hs.
  { exists w. apply map_lookup_filter_Some. done. }
  apply map_size_ne_0_lookup_2 in Hs. unfold positiveDegrees. lia.
Qed.

Lemma relax_measure (L : Z) (st : TopoState) (n : jsstring) :
  bfsMeasure (relax L st n) = bfsMeasure st.
Proof.
  unfold bfsMeasure, relax. cbn [inDegree queue].
  rewrite positiveDegrees_insert.
  pose proof (isPositive_le_positiveDegrees (inDegree st) n) as Hle.
  revert Hle. unfold isPositive.
  set (v := default 0 (inDegree st !! n)).
  repeat case_bool_decide; rewrite ?length_app; cbn; lia.
Qed.

Lemma visit_measure (graph : gmap jsstring (list jsstring)) (c : jsstring) (st : TopoState) :
  bfsMeasure (visit graph c st) = bfsMeasure st.
Proof.
  unfold visit.
  generalize (default 0 (layers st !! c)) as L.
  generalize (default [] (graph !! c)) as l.
  intros l. revert st. induction l as [|n l IH]; intros st L; cbn; [done|].
  rewrite IH. apply relax_measure.
Qed.

(** Enough fuel for the loop: one unit for each name that is in the queue
    or still has a positive in-degree. *)
Lemma bfs_terminates (graph : gmap jsstring (list jsstring)) (fuel : nat) :
  forall st, (bfsMeasure st <= fuel)%nat ->
    exists st', bfs fuel graph st = Some st' /\ queue st' = [].
Proof.
  induction fuel as [|fuel IH]; intros [ls d q] Hm.
  - destruct q as [|c rest]; cbn in *.
    + eauto.
    + unfold bfsMeasure in Hm. cbn in Hm. lia.
  - destruct q as [|c rest]; cbn.
    + eauto.
    + apply IH. rewrite visit_measure.
      unfold bfsMeasure in *. cbn in *. lia.
Qed.

Lemma bfs_fuel_mono (graph : gmap jsstring (list jsstring)) (fuel fuel' : nat) :
  forall st st', (fuel <= fuel')%nat ->
    bfs fuel graph st = Some st' -> bfs fuel' graph st = Some st'.
Proof.
  revert fuel'. induction fuel as [|fuel IH]; intros fuel' [ls d q] st' Hle Hrun.
  - destruct q; cbn in Hrun; [|discriminate].
    destruct fuel'; cbn; done.
  - destruct q as [|c rest].
    + destruct fuel'; cbn in *; done.
    + destruct fuel' as [|fuel']; [lia|]. cbn in *.
      eapply IH; [lia|done].
Qed.

Lemma bfs_deterministic (graph : gmap jsstring (list jsstring)) (f1 f2 : nat)
    (st r1 r2 : TopoState) :
  bfs f1 graph st = Some r1 -> bfs f2 graph st = Some r2 -> r1 = r2.
Proof.
  intros H1 H2.
  apply (bfs_fuel_mono _ _ (f1 `max` f2)) in H1; [|lia].
  apply (bfs_fuel_mono _ _ (f1 `max` f2)) in H2; [|lia].
  congruence.
Qed.

Lemma topologicalSort_total (comps : list Component) (deps : list Dependency) :
  exists fuel layers, topologicalSort fuel comps deps = Some layers.
Proof.
  destruct (bfs_terminates (buildGraph comps deps) _ (topoStart comps deps) (le_n _))
    as (st' & Hrun & _).
  eexists _, _. unfold topologicalSort. rewrite Hrun. reflexivity.
Qed.

Lemma topologicalSort_deterministic (f1 f2 : nat) (comps : list Component)
    (deps : list Dependency) (l1 l2 : gmap jsstring Z) :
  topologicalSort f1 comps deps = Some l1 ->
  topologicalSort f2 comps deps = Some l2 -> l1 = l2.
Proof.
  unfold topologicalSort. intros H1 H2.
  destruct (bfs f1 _ _) as [r1|] eqn:E1; [|done].
  destruct (bfs f2 _ _) as [r2|] eqn:E2; [|done].
  cbn in *. rewrite (bfs_deterministic _ _ _ _ _ _ E1 E2) in H1. congruence.
Qed.

(** ** What the layout reads and writes *)

Lemma initInDegree_names (comps comps' : list Component) :
  map name comps = map name comps' -> initInDegree comps = initInDegree comps'.
Proof.
  unfold initInDegree. generalize (∅ : gmap jsstring Z).
  revert comps'. induction comps as [|c comps IH]; intros [|c' comps'] d Hn;
    cbn in *; try done.
  injection Hn as Hc Hn. rewrite Hc. apply IH. done.
Qed.

Lemma initGraph_names (comps comps' : list Component) :
  map name comps = map name comps' -> initGraph comps = initGraph comps'.
Proof.
  unfold initGraph. generalize (∅ : gmap jsstring (list jsstring)).
  revert comps'. induction comps as [|c comps IH]; intros [|c' comps'] d Hn;
    cbn in *; try done.
  injection Hn as Hc Hn. rewrite Hc. apply IH. done.
Qed.

Lemma seed_names (comps comps' : list Component) :
  map name comps = map name comps' ->
  forall st, foldl seed st comps = foldl seed st comps'.
Proof.
  revert comps'. induction comps as [|c comps IH]; intros [|c' comps'] Hn st;
    cbn in *; try done.
  injection Hn as Hc Hn. rewrite (IH _ Hn). f_equal.
  unfold seed. rewrite Hc. done.
Qed.

(** [topologicalSort] reads the names of the components only. *)
Lemma topologicalSort_names (fuel : nat) (comps comps' : list Component)
    (deps : list Dependency) :
  map name comps = map name comps' ->
  topologicalSort fuel comps deps = topologicalSort fuel comps' deps.
Proof.
  intros Hn. unfold topologicalSort, topoStart, buildGraph, buildInDegree.
  rewrite (initGraph_names _ _ Hn), (initInDegree_names _ _ Hn).
  rewrite (seed_names _ _ Hn). done.
Qed.

Lemma maxLayerOf_nonneg (layers : gmap jsstring Z) : 0 <= maxLayerOf layers.
Proof.
  unfold maxLayerOf. induction (map snd (map_to_list layers)) as [|a l IH]; cbn.
  - lia.
  - pose proof (Z.le_max_r a (foldr Z.max 0 l)). lia.
Qed.

Lemma maxLayerOf_upper (layers : gmap jsstring Z) (n : jsstring) (v : Z) :
  layers !! n = Some v -> v <= maxLayerOf layers.
Proof.
  intros Hn. apply elem_of_map_to_list in Hn.
  assert (v ∈ map snd (map_to_list layers)) as Hin.
  { apply list_elem_of_fmap. exists (n, v). done. }
  unfold maxLayerOf. induction Hin as [|? ? ? ? IH]; cbn.
  - apply Z.le_max_l.
  - eapply Z.le_trans; [exact (IH Hn) | apply Z.le_max_r].
Qed.

Lemma layerOf_upper (layers : gmap jsstring Z) (n : jsstring) :
  layerOf layers n <= maxLayerOf layers.
Proof.
  unfold layerOf. destruct (layers !! n) eqn:E; cbn.
  - eauto using maxLayerOf_upper.
  - apply maxLayerOf_nonneg.
Qed.

(** The division of [assignY] never divides by zero. *)
Lemma layer_row_finite (maxLayer layer : Z) :
  0 <= maxLayer ->
  ndiv (ofZ (maxLayer - layer)) (ofZ (maxLayer + 1)) =
    Num (inject_Z (maxLayer - layer) / inject_Z (maxLayer + 1)).
Proof.
  intros Hm. unfold ndiv, ofZ.
  destruct (Qeq_bool (inject_Z (maxLayer + 1)) 0) eqn:E; [|done].
  apply Qeq_bool_iff in E. unfold Qeq, inject_Z in E. cbn in E. lia.
Qed.

Lemma assignY_fields (layers : gmap jsstring Z) (maxLayer : Z) (c : Component) :
  name (assignY layers maxLayer c) = name c /\
  stage (assignY layers maxLayer c) = stage c /\
  isAnchor (assignY layers maxLayer c) = isAnchor c /\
  x (assignY layers maxLayer c) = x c.
Proof. destruct c as [n s [] vx vy]; done. Qed.

Lemma assignY_finite (layers : gmap jsstring Z) (maxLayer : Z) (c : Component) :
  0 <= maxLayer -> isFinite (y (assignY layers maxLayer c)).
Proof.
  intros Hm. destruct c as [n s [] vx vy]; unfold assignY; cbn [isAnchor setY y name].
  - eexists. done.
  - rewrite layer_row_finite by done. eexists. done.
Qed.

(** *** The evolution alignment writes [y] only *)

Lemma insert_same_projection {A} (f : Component -> A) (comps : list Component)
    (i : nat) (c c' : Component) :
  comps !! i = Some c -> f c' = f c -> f <$> <[i := c']> comps = f <$> comps.
Proof.
  intros Hi Hf. rewrite list_fmap_insert, Hf.
  apply list_insert_id. rewrite list_lookup_fmap, Hi. done.
Qed.

Lemma findComponent_Some (n : jsstring) (comps : list Component) (i : nat)
    (c : Component) :
  findComponent n comps = Some (i, c) -> comps !! i = Some c /\ name c = n.
Proof.
  unfold findComponent. intros H. apply list_find_Some in H. tauto.
Qed.

Lemma findComponent_declared (n : jsstring) (comps : list Component) :
  n ∈ map name comps -> is_Some (findComponent n comps).
Proof.
  intros Hin. apply list_elem_of_fmap in Hin as (c & -> & Hc).
  unfold findComponent. eapply list_find_elem_of; done.
Qed.

(** [find] looks at the names only. *)
Lemma findComponent_names (n : jsstring) (comps comps' : list Component) :
  map name comps = map name comps' ->
  fst <$> findComponent n comps = fst <$> findComponent n comps'.
Proof.
  unfold findComponent. revert comps'.
  induction comps as [|c comps IH]; intros [|c' comps'] Hn; cbn in *; try done.
  injection Hn as Hc Hn. rewrite Hc.
  case_decide; [done|].
  specialize (IH _ Hn). revert IH.
  destruct (list_find _ comps) as [[]|], (list_find _ comps') as [[]|]; cbn; congruence.
Qed.

Lemma inheritY_projection {A} (f : Component -> A) (comps : list Component)
    (evo : Evolution) :
  (forall c v, f (setY c v) = f c) ->
  f <$> inheritY comps evo = f <$> comps.
Proof.
  intros Hf. unfold inheritY.
  destruct (findComponent (efrom evo) comps) as [[i src]|]; [|done].
  destruct (findComponent (eto evo) comps) as [[j tgt]|] eqn:Et; [|done].
  destruct (y src); [|done].
  apply findComponent_Some in Et as [Hj _].
  eapply insert_same_projection; eauto.
Qed.

Lemma inheritY_all_projection {A} (f : Component -> A) (evos : list Evolution) :
  (forall c v, f (setY c v) = f c) ->
  forall comps, f <$> foldl inheritY comps evos = f <$> comps.
Proof.
  intros Hf. induction evos as [|e evos IH]; intros comps; cbn; [done|].
  rewrite IH. apply inheritY_projection. done.
Qed.

(** What holds of every [y] still holds after the alignment, which only
    copies them. *)
Lemma inheritY_range (R : option number -> Prop) (comps : list Component)
    (evo : Evolution) :
  Forall (fun c => R (y c)) comps -> Forall (fun c => R (y c)) (inheritY comps evo).
Proof.
  intros Hall. unfold inheritY.
  destruct (findComponent (efrom evo) comps) as [[i src]|] eqn:Es; [|done].
  destruct (findComponent (eto evo) comps) as [[j tgt]|] eqn:Et; [|done].
  destruct (y src) as [v|] eqn:Ev; [|done].
  apply Forall_insert; [done|]. cbn.
  apply findComponent_Some in Es as [Hi _].
  rewrite Forall_lookup in Hall. rewrite <- Ev. eauto.
Qed.

Lemma inheritY_all_range (R : option number -> Prop) (evos : list Evolution)
    (comps : list Component) :
  Forall (fun c => R (y c)) comps ->
  Forall (fun c => R (y c)) (foldl inheritY comps evos).
Proof.
  revert comps. induction evos as [|e evos IH]; intros comps H; cbn; [done|].
  apply IH, inheritY_range, H.
Qed.

(** An edge whose target is another component leaves this one alone. *)
Lemma inheritY_other (comps : list Component) (evo : Evolution) (i : nat)
    (c : Component) :
  comps !! i = Some c -> eto evo <> name c -> inheritY comps evo !! i = Some c.
Proof.
  intros Hi Hne. unfold inheritY.
  destruct (findComponent (efrom evo) comps) as [[k src]|]; [|done].
  destruct (findComponent (eto evo) comps) as [[j tgt]|] eqn:Et; [|done].
  destruct (y src); [|done].
  apply findComponent_Some in Et as [Hj Hname].
  rewrite list_lookup_insert_ne; [done|].
  intros ->. congruence.
Qed.

Lemma inheritY_all_other (evos : list Evolution) (comps : list Component)
    (i : nat) (c : Component) :
  comps !! i = Some c -> Forall (fun e => eto e <> name c) evos ->
  foldl inheritY comps evos !! i = Some c.
Proof.
  revert comps. induction evos as [|e evos IH]; intros comps Hi Hall; cbn; [done|].
  inversion Hall; subst. apply IH; [|done]. apply inheritY_other; done.
Qed.

(** *** The overlap resolution writes [x] only *)

Lemma spreadMembers_projection {A} (f : Component -> A) (baseX r : number) (len : nat) :
  (forall c v, f (setX c v) = f c) ->
  forall members index comps,
    f <$> spreadMembers baseX r len index members comps = f <$> comps.
Proof.
  intros Hf. induction members as [|i members IH]; intros index comps; cbn; [done|].
  rewrite IH. destruct (comps !! i) eqn:Ei; [|done].
  eapply insert_same_projection; eauto.
Qed.

Lemma spreadGroup_projection {A} (f : Component -> A) (range : nat -> number)
    (comps : list Component) (group : list nat) :
  (forall c v, f (setX c v) = f c) ->
  f <$> spreadGroup range comps group = f <$> comps.
Proof.
  intros Hf. unfold spreadGroup. case_bool_decide; [|done].
  apply spreadMembers_projection. done.
Qed.

Lemma spreadWith_projection {A} (f : Component -> A) (range : nat -> number)
    (comps : list Component) :
  (forall c v, f (setX c v) = f c) ->
  f <$> spreadWith range comps = f <$> comps.
Proof.
  intros Hf. unfold spreadWith.
  generalize (map snd (groupFrom 0 comps [])) as groups. intros groups.
  revert comps. induction groups as [|g groups IH]; intros comps; cbn; [done|].
  rewrite IH. apply spreadGroup_projection. done.
Qed.

Lemma spreadOffset_finite (r : Q) (len index : nat) :
  exists q, spreadOffset (Num r) len index = Num q.
Proof.
  unfold spreadOffset, ofNat, ofZ, nsub, nmax.
  assert (forall p, ndiv (Num p) (Num (inject_Z 2)) = Num (p / inject_Z 2)) as ->.
  { intros p. reflexivity. }
  cbn [nsub nmul].
  set (p := (inject_Z (Z.of_nat len) - inject_Z 1)%Q).
  assert (exists q, ndiv (Num r) (Num (if Qle_bool p (inject_Z 1) then inject_Z 1 else p)) = Num q)
    as [q ->]; [|eexists; reflexivity].
  unfold ndiv.
  destruct (Qle_bool p (inject_Z 1)) eqn:Ep.
  - eexists. reflexivity.
  - destruct (Qeq_bool p 0) eqn:E0; [|eexists; reflexivity].
    apply Qeq_bool_iff in E0.
    assert (Qle_bool p (inject_Z 1) = true); [|congruence].
    apply Qle_bool_iff. rewrite E0. done.
Qed.

Lemma adaptiveSpread_finite (len : nat) : exists r, adaptiveSpread len = Num r.
Proof. unfold adaptiveSpread, ofNat, ofZ. cbn. eexists. reflexivity. Qed.

Lemma spreadMembers_finite (b r : Q) (len : nat) :
  forall members index comps,
    Forall (fun c => isFinite (x c)) comps ->
    Forall (fun c => isFinite (x c)) (spreadMembers (Num b) (Num r) len index members comps).
Proof.
  induction members as [|i members IH]; intros index comps Hall; cbn; [done|].
  apply IH. destruct (comps !! i) eqn:Ei; [|done].
  apply Forall_insert; [done|]. cbn.
  destruct (spreadOffset_finite r len index) as [q ->]. eexists. reflexivity.
Qed.

Lemma spreadGroup_finite (range : nat -> number) (comps : list Component)
    (group : list nat) :
  (forall len, exists r, range len = Num r) ->
  Forall (fun i => i < length comps)%nat group ->
  Forall (fun c => isFinite (x c)) comps ->
  Forall (fun c => isFinite (x c)) (spreadGroup range comps group).
Proof.
  intros Hr Hidx Hall. unfold spreadGroup. case_bool_decide as Hlen; [|done].
  destruct (Hr (length group)) as [r ->].
  destruct group as [|i group]; [cbn in Hlen; lia|].
  inversion Hidx as [|? ? Hi _]; subst.
  apply lookup_lt_is_Some in Hi as [c Hc].
  assert (isFinite (x c)) as [b Hb].
  { rewrite Forall_lookup in Hall. eauto. }
  cbn [head mbind option_bind]. rewrite Hc. cbn [mbind option_bind].
  rewrite Hb. cbn [toNumber].
  apply spreadMembers_finite. done.
Qed.

Lemma addToGroup_indices (n : nat) (key : jsstring) (i : nat)
    (groups : list (jsstring * list nat)) :
  (i < n)%nat ->
  Forall (fun g => Forall (fun i => i < n)%nat g.2) groups ->
  Forall (fun g => Forall (fun i => i < n)%nat g.2) (addToGroup key i groups).
Proof.
  intros Hi. induction groups as [|[k g] groups IH]; intros Hall; cbn.
  - repeat constructor. done.
  - inversion Hall; subst. case_decide.
    + constructor; [|done]. cbn in *. apply Forall_app. split; [done|].
      repeat constructor. done.
    + constructor; [done|]. apply IH. done.
Qed.

Lemma groupFrom_indices (n : nat) (comps : list Component) :
  forall i groups,
    (i + length comps <= n)%nat ->
    Forall (fun g => Forall (fun i => i < n)%nat g.2) groups ->
    Forall (fun g => Forall (fun i => i < n)%nat g.2) (groupFrom i comps groups).
Proof.
  induction comps as [|c comps IH]; intros i groups Hn Hall; cbn in *; [done|].
  apply IH; [lia|]. apply addToGroup_indices; [lia|done].
Qed.

Lemma spreadWith_finite (range : nat -> number) (comps : list Component) :
  (forall len, exists r, range len = Num r) ->
  Forall (fun c => isFinite (x c)) comps ->
  Forall (fun c => isFinite (x c)) (spreadWith range comps).
Proof.
  intros Hr Hall. unfold spreadWith.
  assert (Forall (fun g => Forall (fun i => i < length comps)%nat g)
            (map snd (groupFrom 0 comps []))) as Hidx.
  { apply Forall_fmap. apply (groupFrom_indices (length comps)); [lia|constructor]. }
  revert Hidx. generalize (map snd (groupFrom 0 comps [])) as groups.
  intros groups. revert comps Hall.
  induction groups as [|g groups IH]; intros comps Hall Hidx; cbn; [done|].
  inversion Hidx as [|? ? Hg Hgs]; subst.
  apply IH.
  - apply spreadGroup_finite; done.
  - assert (length (spreadGroup range comps g) = length comps) as ->; [|done].
    rewrite <- (length_fmap name), spreadGroup_projection, length_fmap; done.
Qed.


(** *** [calculatePositions] as a whole *)

(** The components after the three loops that precede the overlap
    resolution. *)
Lemma calculatePositions_Some (fuel : nat) (m m' : WardleyMap) :
  calculatePositions fuel m = Some m' <->
  exists layers,
    topologicalSort fuel (components m) (dependencies m) = Some layers /\
    m' = withComponents m
           (spreadOverlappingComponents
              (foldl inheritY
                 (map (assignY layers (maxLayerOf layers))
                    (map (fun comp => setX comp (Some (STAGE_POSITIONS (stage comp))))
                       (components m)))
                 (evolutions m))).
Proof.
  unfold calculatePositions.
  rewrite (topologicalSort_names fuel _ (components m)).
  2:{ rewrite <- list_fmap_compose. apply list_fmap_ext. intros _ c _. done. }
  destruct (topologicalSort fuel (components m) (dependencies m)) as [layers|]; cbn.
  - split.
    + intros [= <-]. eauto.
    + intros (l & [= <-] & ->). done.
  - split; [done|]. intros (l & ? & _). done.
Qed.

Lemma calculatePositions_total (m : WardleyMap) :
  exists fuel m', calculatePositions fuel m = Some m'.
Proof.
  destruct (topologicalSort_total (components m) (dependencies m)) as (fuel & layers & H).
  exists fuel. eexists. apply calculatePositions_Some. eauto.
Qed.

Lemma calculatePositions_deterministic (f1 f2 : nat) (m m1 m2 : WardleyMap) :
  calculatePositions f1 m = Some m1 -> calculatePositions f2 m = Some m2 -> m1 = m2.
Proof.
  intros (l1 & H1 & ->)%calculatePositions_Some (l2 & H2 & ->)%calculatePositions_Some.
  rewrite (topologicalSort_deterministic _ _ _ _ _ _ H1 H2). done.
Qed.

(** The layout reads the name, the stage and the anchor flag of a
    component, and overwrites both coordinates. *)
Lemma placement_reads (layers : gmap jsstring Z) (comps comps' : list Component) :
  map name comps = map name comps' ->
  map stage comps = map stage comps' ->
  map isAnchor comps = map isAnchor comps' ->
  map (assignY layers (maxLayerOf layers))
    (map (fun comp => setX comp (Some (STAGE_POSITIONS (stage comp)))) comps) =
  map (assignY layers (maxLayerOf layers))
    (map (fun comp => setX comp (Some (STAGE_POSITIONS (stage comp)))) comps').
Proof.
  revert comps'. induction comps as [|c comps IH]; intros [|c' comps'] Hn Hs Ha;
    cbn in *; try done.
  injection Hn as Hn1 Hn. injection Hs as Hs1 Hs. injection Ha as Ha1 Ha.
  f_equal; [|apply IH; done].
  destruct c, c'; cbn in *; subst. done.
Qed.

Lemma calculatePositions_fields (fuel : nat) (m m' : WardleyMap) :
  calculatePositions fuel m = Some m' ->
  map name (components m') = map name (components m) /\
  map stage (components m') = map stage (components m) /\
  map isAnchor (components m') = map isAnchor (components m) /\
  dependencies m' = dependencies m /\ evolutions m' = evolutions m /\
  title m' = title m /\ annotations m' = annotations m /\ notes m' = notes m.
Proof.
  intros (layers & _ & ->)%calculatePositions_Some. cbn.
  unfold spreadOverlappingComponents.
  repeat split.
  all: rewrite spreadWith_projection, inheritY_all_projection by done.
  all: rewrite <- !list_fmap_compose; apply list_fmap_ext; intros _ c _; cbn.
  all: destruct c as [? ? [] ? ?]; done.
Qed.

(** Laying out a placed graph again changes nothing. *)
Lemma calculatePositions_idempotent (fuel : nat) (m m' : WardleyMap) :
  calculatePositions fuel m = Some m' -> calculatePositions fuel m' = Some m'.
Proof.
  intros Hrun.
  destruct (calculatePositions_fields _ _ _ Hrun) as (Hn & Hs & Ha & Hd & He & Ht & Han & Hno).
  apply calculatePositions_Some in Hrun as (layers & Hsort & Hm').
  apply calculatePositions_Some. exists layers. split.
  - rewrite Hd, (topologicalSort_names _ _ _ _ Hn). done.
  - rewrite He, (placement_reads layers _ _ Hn Hs Ha).
    rewrite Hm' at 1. unfold withComponents. cbn.
    rewrite Hd, He, Ht, Han, Hno. done.
Qed.

Lemma run_Some (fuel : nat) (source : jsstring) (o : Outcome) :
  run fuel source = Some o <->
  reported o = errors_ (parseWardleyMap source) /\
  match map_ (parseWardleyMap source) with
  | Some m => exists m', calculatePositions fuel m = Some m' /\ placed o = Some m'
  | None => placed o = None
  end.
Proof.
  unfold run. destruct (map_ (parseWardleyMap source)) as [m|].
  - destruct (calculatePositions fuel m) as [m'|]; cbn.
    + split.
      * intros [= <-]. cbn. eauto.
      * intros (He & m'' & [= <-] & Hp). destruct o; cbn in *; subst. done.
    + split; [done|]. intros (_ & m' & ? & _). done.
  - split.
    + intros [= <-]. done.
    + intros [He Hp]. destruct o; cbn in *; subst. done.
Qed.

(** ** Determinism of the pipeline *)

(** Every text has one outcome: parse then layout returns it with enough
    fuel, the outcome does not depend on the fuel, and laying out the placed
    graph once more leaves it as it is. *)
Lemma run_functional (source : jsstring) :
  exists o,
    (exists fuel, run fuel source = Some o) /\
    (forall fuel1 fuel2 o1 o2,
        run fuel1 source = Some o1 -> run fuel2 source = Some o2 ->
        o1 = o /\ o2 = o) /\
    (forall fuel m', run fuel source = Some o -> placed o = Some m' ->
        calculatePositions fuel m' = Some m').
Proof.
  assert (exists fuel o, run fuel source = Some o) as (fuel & o & Hrun).
  { unfold run. destruct (map_ (parseWardleyMap source)) as [m|]; [|by exists 0%nat; eauto].
    destruct (calculatePositions_total m) as (fuel & m' & Hc). exists fuel.
    rewrite Hc. cbn. eauto. }
  assert (forall fuel' o', run fuel' source = Some o' -> o' = o) as Huniq.
  { intros fuel' o' Hrun'.
    apply run_Some in Hrun as [He Hp]. apply run_Some in Hrun' as [He' Hp'].
    destruct o as [e p], o' as [e' p']; cbn [reported placed] in *. subst e e'. f_equal.
    revert Hp Hp'. destruct (map_ (parseWardleyMap source)) as [m|]; [|congruence].
    intros (m1 & H1 & ->) (m2 & H2 & ->).
    f_equal. eapply calculatePositions_deterministic; eauto. }
  exists o. split; [eauto|]. split.
  - intros f1 f2 o1 o2 H1 H2. split; eapply Huniq; eauto.
  - intros fuel' m' Hrun' Hp.
    apply run_Some in Hrun' as [_ Hm]. rewrite Hp in Hm. revert Hm.
    destruct (map_ (parseWardleyMap source)) as [m|]; [|done].
    intros (m'' & Hc & [= ->]).
    eapply calculatePositions_idempotent; eauto.
Qed.

(** ** Two runs in one store *)

(** The objects of one map are a block at the end of the heap, behind the
    objects [pre] created before it. *)
Lemma window_lookup (pre comps : list Component) (i : nat) :
  (pre ++ comps) !! (length pre + i)%nat = comps !! i.
Proof. rewrite lookup_app_r by lia. f_equal. lia. Qed.

Lemma window_next (pre : list Component) (c : Component) (comps : list Component) :
  pre ++ c :: comps = (pre ++ [c]) ++ comps /\ S (length pre) = length (pre ++ [c]).
Proof. rewrite <- app_assoc, length_app. cbn. split; [done|lia]. Qed.

Lemma window_head (pre : list Component) (c : Component) (comps : list Component) :
  (pre ++ c :: comps) !! length pre = Some c.
Proof. rewrite lookup_app_r by lia. rewrite Nat.sub_diag. done. Qed.

Lemma deref_window (table : EvolutionStage -> number) (comps : list Component) :
  forall pre,
    InStore.deref (InStore.mkStore table (pre ++ comps)) (seq (length pre) (length comps))
    = comps.
Proof.
  unfold InStore.deref. cbn [InStore.heap].
  induction comps as [|c comps IH]; intros pre; [done|].
  cbn [length seq omap list_omap]. rewrite window_head.
  destruct (window_next pre c comps) as [-> ->]. rewrite IH. done.
Qed.

Lemma deref_app (table : EvolutionStage -> number) (h more : list Component)
    (refs : list nat) :
  Forall (fun r => (r < length h)%nat) refs ->
  InStore.deref (InStore.mkStore table (h ++ more)) refs
  = InStore.deref (InStore.mkStore table h) refs.
Proof.
  unfold InStore.deref. cbn [InStore.heap].
  induction 1 as [|r refs Hr _ IH]; [done|].
  cbn [omap list_omap]. rewrite IH, lookup_app_l by done. done.
Qed.

(** A loop that writes the same fields of every object of the map. *)
Lemma foldl_write_window (table : EvolutionStage -> number)
    (step : InStore.Store -> nat -> InStore.Store) (f : Component -> Component) :
  (forall h r, step (InStore.mkStore table h) r
               = InStore.write r f (InStore.mkStore table h)) ->
  forall comps pre,
    foldl step (InStore.mkStore table (pre ++ comps)) (seq (length pre) (length comps))
    = InStore.mkStore table (pre ++ map f comps).
Proof.
  intros Hstep. induction comps as [|c comps IH]; intros pre; [done|].
  cbn [length seq foldl map]. rewrite Hstep. unfold InStore.write.
  cbn [InStore.heap InStore.stagePositions]. rewrite window_head.
  replace (<[length pre := f c]> (pre ++ c :: comps)) with (pre ++ f c :: comps).
  2:{ pose proof (insert_app_r pre (c :: comps) 0 (f c)) as H.
      rewrite Nat.add_0_r in H. rewrite H. done. }
  destruct (window_next pre (f c) comps) as [-> ->]. rewrite IH.
  rewrite <- app_assoc. done.
Qed.

(** [find] in the store is [find] on the objects of the map. *)
Lemma find_window (table : EvolutionStage -> number) (n : jsstring)
    (comps : list Component) :
  forall pre,
    InStore.find n (seq (length pre) (length comps)) (InStore.mkStore table (pre ++ comps))
    = fmap (M := option) (prod_map (fun i => (length pre + i)%nat) (fun c : Component => c))
        (findComponent n comps).
Proof.
  unfold findComponent.
  induction comps as [|c comps IH]; intros pre; [done|].
  cbn [length seq InStore.find InStore.heap list_find]. rewrite window_head.
  destruct (decide (name c = n)) as [Hn|Hn].
  - cbn. rewrite Nat.add_0_r. done.
  - destruct (window_next pre c comps) as [-> ->]. rewrite IH.
    destruct (list_find _ comps) as [[i c']|]; [|done]. cbn.
    rewrite length_app. cbn. do 2 f_equal. lia.
Qed.

Lemma inheritY_length (comps : list Component) (evo : Evolution) :
  length (inheritY comps evo) = length comps.
Proof.
  unfold inheritY.
  destruct (findComponent (efrom evo) comps) as [[i cs]|]; [|done].
  destruct (findComponent (eto evo) comps) as [[j ct]|]; [|done].
  destruct (y cs); [|done]. apply length_insert.
Qed.

Lemma inheritY_window (table : EvolutionStage -> number) (pre comps : list Component)
    (evo : Evolution) :
  InStore.inheritY (seq (length pre) (length comps))
    (InStore.mkStore table (pre ++ comps)) evo
  = InStore.mkStore table (pre ++ inheritY comps evo).
Proof.
  unfold InStore.inheritY, inheritY. rewrite !find_window.
  destruct (findComponent (efrom evo) comps) as [[i cs]|]; [|done].
  destruct (findComponent (eto evo) comps) as [[j ct]|] eqn:Et; [|done].
  cbn [fmap option_fmap option_map prod_map fst snd].
  destruct (y cs) as [v|]; [|done].
  apply findComponent_Some in Et as [Hj _].
  unfold InStore.write. cbn [InStore.heap InStore.stagePositions].
  rewrite window_lookup, Hj, insert_app_r. done.
Qed.

Lemma inheritY_all_window (table : EvolutionStage -> number) (pre : list Component)
    (evos : list Evolution) :
  forall comps,
    foldl (InStore.inheritY (seq (length pre) (length comps)))
      (InStore.mkStore table (pre ++ comps)) evos
    = InStore.mkStore table (pre ++ foldl inheritY comps evos).
Proof.
  induction evos as [|evo evos IH]; intros comps; [done|].
  cbn [foldl]. rewrite inheritY_window.
  rewrite <- (inheritY_length comps evo). apply IH.
Qed.


Lemma addToGroup_shift (b : nat) (key : jsstring) (i : nat)
    (groups : list (jsstring * list nat)) :
  addToGroup key (b + i) (shiftGroups b groups) = shiftGroups b (addToGroup key i groups).
Proof.
  induction groups as [|[k g] groups IH]; [done|].
  change (shiftGroups b ((k, g) :: groups))
    with ((k, map (fun i => (b + i)%nat) g) :: shiftGroups b groups).
  cbn [addToGroup]. destruct (decide (k = key)).
  - unfold shiftGroups. cbn [map fst snd]. rewrite map_app. done.
  - rewrite IH. done.
Qed.

Lemma groupRefs_window (table : EvolutionStage -> number) (rest : list Component) :
  forall pre seen groups,
    foldl (fun groups r =>
             match (pre ++ seen ++ rest) !! r with
             | Some comp => addToGroup (groupKey comp) r groups
             | None => groups
             end) (shiftGroups (length pre) groups)
      (seq (length pre + length seen) (length rest))
    = shiftGroups (length pre) (groupFrom (length seen) rest groups).
Proof.
  induction rest as [|c rest IH]; intros pre seen groups; [done|].
  cbn [length seq foldl groupFrom].
  rewrite app_assoc, <- length_app, window_head, length_app, addToGroup_shift.
  rewrite <- app_assoc.
  replace (seen ++ c :: rest) with ((seen ++ [c]) ++ rest) by (rewrite <- app_assoc; done).
  replace (S (length pre + length seen)) with (length pre + length (seen ++ [c]))%nat
    by (rewrite length_app; cbn; lia).
  rewrite IH. rewrite length_app. cbn [length].
  replace (length seen + 1)%nat with (S (length seen)) by lia. done.
Qed.

Lemma spreadMembers_window (baseX spreadRange : number) (len : nat)
    (pre : list Component) (members : list nat) :
  forall index comps,
    spreadMembers baseX spreadRange len index
      (map (fun i => (length pre + i)%nat) members) (pre ++ comps)
    = pre ++ spreadMembers baseX spreadRange len index members comps.
Proof.
  induction members as [|i members IH]; intros index comps; [done|].
  cbn [map spreadMembers]. rewrite window_lookup.
  destruct (comps !! i) as [comp|]; [rewrite insert_app_r|]; apply IH.
Qed.

Lemma spreadGroup_window (spreadRange : nat -> number) (pre comps : list Component)
    (group : list nat) :
  spreadGroup spreadRange (pre ++ comps) (map (fun i => (length pre + i)%nat) group)
  = pre ++ spreadGroup spreadRange comps group.
Proof.
  unfold spreadGroup. rewrite length_map.
  destruct (bool_decide (1 < length group)%nat); [|done].
  rewrite spreadMembers_window. do 2 f_equal.
  destruct group as [|i group]; [done|]. cbn. rewrite window_lookup. done.
Qed.

Lemma spreadGroups_window (spreadRange : nat -> number) (pre : list Component)
    (groups : list (jsstring * list nat)) :
  forall comps,
    foldl (spreadGroup spreadRange) (pre ++ comps)
      (map snd (shiftGroups (length pre) groups))
    = pre ++ foldl (spreadGroup spreadRange) comps (map snd groups).
Proof.
  induction groups as [|[k g] groups IH]; intros comps; [done|].
  cbn [shiftGroups map foldl fst snd] in *. rewrite spreadGroup_window. apply IH.
Qed.

Lemma spread_window (table : EvolutionStage -> number) (pre comps : list Component) :
  InStore.spreadOverlappingComponents (seq (length pre) (length comps))
    (InStore.mkStore table (pre ++ comps))
  = InStore.mkStore table (pre ++ spreadOverlappingComponents comps).
Proof.
  unfold InStore.spreadOverlappingComponents, spreadOverlappingComponents, spreadWith.
  cbn [InStore.heap InStore.stagePositions]. f_equal.
  unfold InStore.groupRefs. cbn [InStore.heap].
  pose proof (groupRefs_window table comps pre [] []) as H.
  cbn [app length shiftGroups map] in H. rewrite Nat.add_0_r in H.
  rewrite H. apply spreadGroups_window.
Qed.

(** The layout in the store is the layout of the objects of the map, and
    writes no other object. *)
Lemma calculatePositions_window (fuel : nat) (table : EvolutionStage -> number)
    (pre : list Component) (m : WardleyMap) :
  (forall stage, table stage = STAGE_POSITIONS stage) ->
  InStore.calculatePositions fuel
    (InStore.mkMapObject (title m) (seq (length pre) (length (components m)))
       (dependencies m) (evolutions m) (annotations m) (notes m))
    (InStore.mkStore table (pre ++ components m))
  = (fun m' => InStore.mkStore table (pre ++ components m')) <$> calculatePositions fuel m.
Proof.
  intros Htable. unfold InStore.calculatePositions, calculatePositions.
  cbn [InStore.ocomponents InStore.odependencies InStore.oevolutions].
  set (comps1 := map (fun comp => setX comp (Some (STAGE_POSITIONS (stage comp))))
                   (components m)).
  assert (length comps1 = length (components m)) as Hl1 by apply length_map.
  rewrite (foldl_write_window table InStore.placeX
             (fun comp => setX comp (Some (STAGE_POSITIONS (stage comp))))).
  2:{ intros h r. unfold InStore.placeX, InStore.write.
      cbn [InStore.heap InStore.stagePositions].
      destruct (h !! r); [|done]. rewrite Htable. done. }
  fold comps1. rewrite <- Hl1, deref_window.
  destruct (topologicalSort fuel comps1 (dependencies m)) as [layers|]; [|done].
  cbn [mbind option_bind fmap option_fmap option_map].
  rewrite (foldl_write_window table (InStore.placeY layers (maxLayerOf layers))
             (assignY layers (maxLayerOf layers))) by done.
  set (comps2 := map (assignY layers (maxLayerOf layers)) comps1).
  assert (length comps2 = length comps1) as Hl2 by apply length_map.
  rewrite <- Hl2, inheritY_all_window.
  set (comps3 := foldl inheritY comps2 (evolutions m)).
  assert (length comps3 = length comps2) as Hl3.
  { unfold comps3. clear. generalize comps2. induction (evolutions m) as [|e es IH];
      intros comps; [done|]. cbn [foldl]. rewrite IH. apply inheritY_length. }
  rewrite <- Hl3, spread_window. done.
Qed.

Lemma parseWardleyMap_returns_state (source : jsstring) (m : WardleyMap) :
  map_ (parseWardleyMap source) = Some m ->
  m = pmap (parseLines initialState 0 (splitNewline source)).
Proof.
  unfold parseWardleyMap, parseProgram. cbn [map_].
  destruct (bool_decide _); [|done]. intros [= <-]. done.
Qed.

Lemma calculatePositions_shape (fuel : nat) (m m' : WardleyMap) :
  calculatePositions fuel m = Some m' ->
  title m' = title m /\ dependencies m' = dependencies m /\
  evolutions m' = evolutions m /\ annotations m' = annotations m /\
  notes m' = notes m /\ length (components m') = length (components m).
Proof.
  intros Hrun.
  pose proof (calculatePositions_fields _ _ _ Hrun) as (Hn & _).
  apply calculatePositions_Some in Hrun as (layers & _ & ->).
  repeat split. apply (f_equal length) in Hn. rewrite !length_map in Hn. done.
Qed.

(** One run in a store: the objects of the run are created behind those of
    the store, the table is left as it is, and what the caller sees is the
    outcome of the pipeline on the text. *)
Lemma run_in_store (fuel : nat) (source : jsstring) (s : InStore.Store) :
  InStore.initialised s ->
  InStore.run fuel source s =
    match map_ (parseWardleyMap source) with
    | Some m =>
        (fun m' =>
           (InStore.mkReturned (Some (InStore.objectOf (length (InStore.heap s)) m))
              (errors_ (parseWardleyMap source)),
            InStore.mkStore (InStore.stagePositions s)
              (InStore.heap s ++ components m'))) <$> calculatePositions fuel m
    | None =>
        Some (InStore.mkReturned None (errors_ (parseWardleyMap source)),
              InStore.mkStore (InStore.stagePositions s)
                (InStore.heap s ++
                 components (pmap (parseLines initialState 0 (splitNewline source)))))
    end.
Proof.
  intros Hinit. unfold InStore.run, InStore.parseWardleyMap, InStore.create.
  destruct (map_ (parseWardleyMap source)) as [m|] eqn:Hm; [|done].
  cbn [InStore.rmap fmap option_fmap option_map].
  rewrite <- (parseWardleyMap_returns_state source m Hm).
  rewrite (calculatePositions_window fuel _ (InStore.heap s) m Hinit).
  destruct (calculatePositions fuel m); done.
Qed.

(** What a caller sees after a run in a store is the outcome of the
    pipeline on the text. *)
Lemma run_in_store_observed (fuel : nat) (source : jsstring) (s s' : InStore.Store)
    (r : InStore.Returned) :
  InStore.initialised s ->
  InStore.run fuel source s = Some (r, s') ->
  run fuel source = Some (InStore.observe s' r).
Proof.
  intros Hinit. rewrite run_in_store by done. unfold run.
  destruct (map_ (parseWardleyMap source)) as [m|] eqn:Hm.
  - destruct (calculatePositions fuel m) as [m'|] eqn:Hc; [|done].
    cbn. intros [= <- <-]. f_equal.
    destruct (calculatePositions_shape _ _ _ Hc) as (Ht & Hd & He & Ha & Hn & Hl).
    unfold InStore.observe, InStore.readMap, InStore.objectOf.
    cbn [InStore.rerrors InStore.rmap fmap option_fmap option_map
         InStore.ocomponents InStore.otitle InStore.odependencies
         InStore.oevolutions InStore.oannotations InStore.onotes].
    rewrite <- Hl, deref_window, <- Ht, <- Hd, <- He, <- Ha, <- Hn.
    destruct m'; done.
  - intros [= <- <-]. done.
Qed.

(** C7. Two runs of parse then layout on the same text, one after the
    other in the same store of the program, both return, and a caller sees
    the same result both times: the same error list, the same graph and the
    same coordinates for every component, whatever the store held before.
    The second run leaves the result of the first as it was, the runs leave
    the table [STAGE_POSITIONS] and the objects that the store held before
    as they were, and laying out the map object of the first run once more,
    which writes its components again, leaves the store as it is. *)
Theorem run_twice_identical (source : jsstring) (s : InStore.Store) :
  InStore.initialised s ->
  (exists fuel r1 s1 r2 s2,
     InStore.run fuel source s = Some (r1, s1) /\
     InStore.run fuel source s1 = Some (r2, s2)) /\
  (forall fuel1 fuel2 r1 s1 r2 s2,
     InStore.run fuel1 source s = Some (r1, s1) ->
     InStore.run fuel2 source s1 = Some (r2, s2) ->
     InStore.observe s2 r2 = InStore.observe s1 r1 /\
     InStore.observe s2 r1 = InStore.observe s1 r1 /\
     (InStore.stagePositions s2 = InStore.stagePositions s /\
      exists created, InStore.heap s2 = InStore.heap s ++ created) /\
     (forall m, InStore.rmap r1 = Some m ->
                InStore.calculatePositions fuel1 m s1 = Some s1)).
Proof.
  intros Hinit.
  destruct (run_functional source) as (o & (fuel & Hrun) & Huniq & Hidem).
  pose proof (run_Some fuel source o) as [Hfwd _]. specialize (Hfwd Hrun).
  destruct Hfwd as [_ Hplaced].
  split.
  - destruct (map_ (parseWardleyMap source)) as [m|] eqn:Hm.
    + destruct Hplaced as (m' & Hc & _).
      eexists fuel, _, _, _, _. split.
      * rewrite run_in_store, Hm, Hc by done. reflexivity.
      * rewrite run_in_store, Hm, Hc by done. reflexivity.
    + eexists fuel, _, _, _, _. split.
      * rewrite run_in_store, Hm by done. reflexivity.
      * rewrite run_in_store, Hm by done. reflexivity.
  - intros fuel1 fuel2 r1 s1 r2 s2 H1 H2.
    rewrite run_in_store in H1 by done.
    destruct (map_ (parseWardleyMap source)) as [m|] eqn:Hm.
    + destruct (calculatePositions fuel1 m) as [m1|] eqn:Hc1; [|done].
      cbn in H1. injection H1 as <- <-.
      rewrite run_in_store, Hm in H2 by done.
      destruct (calculatePositions fuel2 m) as [m2|] eqn:Hc2; [|done].
      cbn in H2. injection H2 as <- <-.
      assert (m2 = m1) as -> by (eapply calculatePositions_deterministic; eauto).
      destruct (calculatePositions_shape _ _ _ Hc1) as (Ht & Hd & He & Ha & Hn & Hl).
      cbn [InStore.heap InStore.stagePositions].
      split; [|split; [|split]].
      * unfold InStore.observe, InStore.readMap, InStore.objectOf.
        cbn [InStore.rerrors InStore.rmap fmap option_fmap option_map
             InStore.ocomponents InStore.otitle InStore.odependencies
             InStore.oevolutions InStore.oannotations InStore.onotes].
        rewrite <- !Hl, !deref_window. done.
      * unfold InStore.observe, InStore.readMap, InStore.objectOf.
        cbn [InStore.rerrors InStore.rmap fmap option_fmap option_map
             InStore.ocomponents InStore.otitle InStore.odependencies
             InStore.oevolutions InStore.oannotations InStore.onotes].
        rewrite deref_app; [done|].
        apply Forall_forall. intros r Hr%list_elem_of_In%in_seq.
        rewrite length_app. lia.
      * split; [done|]. rewrite <- app_assoc. eauto.
      * intros mo [= <-]. unfold InStore.objectOf. rewrite <- Hl, <- Ht, <- Hd, <- He, <- Ha, <- Hn.
        rewrite (calculatePositions_window fuel1 _ (InStore.heap s) m1 Hinit).
        rewrite (calculatePositions_idempotent _ _ _ Hc1). done.
    + cbn in H1. injection H1 as <- <-.
      rewrite run_in_store, Hm in H2 by done.
      cbn in H2. injection H2 as <- <-.
      cbn [InStore.heap InStore.stagePositions].
      split; [done|]. split; [done|]. split; [|done].
      split; [done|]. rewrite <- app_assoc. eauto.
Qed.

Lemma run_twice_identical_witness :
  InStore.initialised
    (InStore.mkStore STAGE_POSITIONS [mkComponent (js "Earlier") genesis false None None]) /\
  ((exists fuel r1 s1 r2 s2,
      InStore.run fuel reversedChain
        (InStore.mkStore STAGE_POSITIONS [mkComponent (js "Earlier") genesis false None None])
      = Some (r1, s1) /\
      InStore.run fuel reversedChain s1 = Some (r2, s2)) /\
   (forall fuel1 fuel2 r1 s1 r2 s2,
      InStore.run fuel1 reversedChain
        (InStore.mkStore STAGE_POSITIONS [mkComponent (js "Earlier") genesis false None None])
      = Some (r1, s1) ->
      InStore.run fuel2 reversedChain s1 = Some (r2, s2) ->
      InStore.observe s2 r2 = InStore.observe s1 r1 /\
      InStore.observe s2 r1 = InStore.observe s1 r1 /\
      (InStore.stagePositions s2 = STAGE_POSITIONS /\
       exists created,
         InStore.heap s2 = [mkComponent (js "Earlier") genesis false None None] ++ created) /\
      (forall m, InStore.rmap r1 = Some m ->
                 InStore.calculatePositions fuel1 m s1 = Some s1))).
Proof.
  split; [intros stage; reflexivity|].
  apply (run_twice_identical reversedChain
           (InStore.mkStore STAGE_POSITIONS
              [mkComponent (js "Earlier") genesis false None None])).
  intros stage. reflexivity.
Defined.

(** ** Totality of the layout *)

(** C6, as amended.  For every graph, cyclic or not, the layout returns (no
    statement of it can throw, and its loop ends): every component keeps
    its place in the list and carries a finite [x] and a finite [y], and a
    component whose name was given no layer (as the nodes of a cycle none
    of whose dependencies is dequeued), that is neither an anchor nor the
    target of an evolution edge, is placed on the row of layer 0. *)
Theorem layout_total_and_numeric (m : WardleyMap) :
  exists fuel layers m',
    topologicalSort fuel (components m) (dependencies m) = Some layers /\
    calculatePositions fuel m = Some m' /\
    map name (components m') = map name (components m) /\
    Forall (fun c => isFinite (x c) /\ isFinite (y c)) (components m') /\
    (forall i c,
        components m !! i = Some c -> layers !! name c = None ->
        isAnchor c = false -> Forall (fun e => eto e <> name c) (evolutions m) ->
        exists c', components m' !! i = Some c' /\
          y c' = Some (ndiv (ofZ (maxLayerOf layers - 0)) (ofZ (maxLayerOf layers + 1)))).
Proof.
  destruct (calculatePositions_total m) as (fuel & m' & Hrun).
  pose proof (calculatePositions_fields _ _ _ Hrun) as (Hn & _).
  pose proof Hrun as (layers & Hsort & Hm')%calculatePositions_Some.
  exists fuel, layers, m'. split; [done|]. split; [done|]. split; [done|].
  set (comps1 := map (fun comp => setX comp (Some (STAGE_POSITIONS (stage comp)))) (components m)) in *.
  set (comps2 := map (assignY layers (maxLayerOf layers)) comps1) in *.
  set (comps3 := foldl inheritY comps2 (evolutions m)) in *.
  assert (Forall (fun c => isFinite (y c)) comps2) as Hy2.
  { apply Forall_fmap, Forall_forall. intros c _. cbn.
    apply assignY_finite, maxLayerOf_nonneg. }
  assert (Forall (fun c => isFinite (x c)) comps3) as Hx3.
  { apply (Forall_fmap x (fun v => isFinite v)).
    unfold comps3. rewrite inheritY_all_projection by done.
    unfold comps2, comps1. rewrite <- !list_fmap_compose.
    apply Forall_fmap, Forall_forall. intros c _.
    destruct c as [? s [] ? ?]; cbn; destruct s; eexists; reflexivity. }
  assert (Forall (fun c => isFinite (y c)) comps3) as Hy3.
  { apply (inheritY_all_range isFinite). done. }
  subst m'. cbn [components withComponents]. split.
  - apply Forall_and. split.
    + apply spreadWith_finite; [apply adaptiveSpread_finite | done].
    + apply (Forall_fmap y (fun v => isFinite v)).
      unfold spreadOverlappingComponents. rewrite spreadWith_projection by done.
      apply Forall_fmap. done.
  - intros i c Hi Hnone Hanchor Hevo.
    assert (comps3 !! i = Some (assignY layers (maxLayerOf layers)
              (setX c (Some (STAGE_POSITIONS (stage c)))))) as H3.
    { apply inheritY_all_other.
      - unfold comps2, comps1. rewrite !list_lookup_fmap, Hi. done.
      - destruct (assignY_fields layers (maxLayerOf layers)
                    (setX c (Some (STAGE_POSITIONS (stage c))))) as (-> & _).
        done. }
    assert (y <$> spreadOverlappingComponents comps3 = y <$> comps3) as Hy.
    { apply spreadWith_projection. done. }
    apply (f_equal (fun l => l !! i)) in Hy.
    rewrite !list_lookup_fmap, H3 in Hy.
    destruct (spreadOverlappingComponents comps3 !! i) as [c'|]; [|done].
    exists c'. split; [done|]. cbn in Hy. injection Hy as ->.
    unfold assignY. cbn. rewrite Hanchor. cbn.
    unfold layerOf. rewrite Hnone. done.
Qed.


(** C6, counterexample.  A node of a cycle that also depends on a leaf is
    given layer 1, and is placed on the top row, not on the row of layer 0. *)
Lemma cycle_node_above_layer_0 :
  onCycle (dependencies cycleWithLeaf) (js "A") /\
  exists layers m' c,
    topologicalSort 1 (components cycleWithLeaf) (dependencies cycleWithLeaf) = Some layers /\
    layerOf layers (js "A") = 1 /\ layerOf layers (js "C") = 0 /\
    calculatePositions 1 cycleWithLeaf = Some m' /\
    components m' !! 0%nat = Some c /\ name c = js "A" /\
    sameNumber (y c) (Some (Num 0)) /\ ~ sameNumber (y c) (Some (Num 0.5)).
Proof.
  split.
  - eapply tc_l; [|apply tc_once].
    + exists (mkDependency (js "A") (js "B") None). split; [|done].
      apply list_elem_of_here.
    + exists (mkDependency (js "B") (js "A") None). split; [|done].
      apply list_elem_of_further, list_elem_of_here.
  - eexists _, _, _. evaluate_all.
Qed.

(** ** The layering of a valid graph *)

Lemma occurrences_nonneg (n : jsstring) (l : list jsstring) : 0 <= occurrences n l.
Proof. induction l as [|a l IH]; cbn; [lia|]. case_bool_decide; lia. Qed.

Lemma occurrences_pos (n : jsstring) (l : list jsstring) :
  0 < occurrences n l <-> n ∈ l.
Proof.
  induction l as [|a l IH]; cbn.
  - split; [lia|]. intros H. inversion H.
  - pose proof (occurrences_nonneg n l). rewrite elem_of_cons.
    case_bool_decide; subst.
    + split; [eauto|lia].
    + rewrite Z.add_0_l, IH. split; [eauto|]. intros [->|]; done.
Qed.

Lemma pendingOf_nonneg (P : list jsstring) (n : jsstring) (deps : list Dependency) :
  0 <= pendingOf P n deps.
Proof. induction deps as [|d deps IH]; cbn; [lia|]. case_bool_decide; lia. Qed.

Lemma edgesBetween_nonneg (n c : jsstring) (deps : list Dependency) :
  0 <= edgesBetween n c deps.
Proof. induction deps as [|d deps IH]; cbn; [lia|]. case_bool_decide; lia. Qed.

Lemma occurrences_dependents (n c : jsstring) (deps : list Dependency) :
  occurrences n (dependents c deps) = edgesBetween n c deps.
Proof.
  induction deps as [|d deps IH]; cbn; [done|].
  case_bool_decide as Hto; cbn; rewrite IH; repeat case_bool_decide; try lia; tauto.
Qed.

Lemma elem_of_dependents (n c : jsstring) (deps : list Dependency) :
  n ∈ dependents c deps <-> exists d, d ∈ deps /\ from d = n /\ to d = c.
Proof.
  induction deps as [|d deps IH]; cbn.
  - split; [intros H; inversion H|]. intros (d & H & _). inversion H.
  - case_bool_decide as Hto.
    + rewrite elem_of_cons, IH. split.
      * intros [->|(d' & Hin & Hd')].
        -- exists d. split; [apply list_elem_of_here|done].
        -- exists d'. split; [apply list_elem_of_further|]; done.
      * intros (d' & Hin & Hf & Ht). apply elem_of_cons in Hin as [->|Hin]; eauto.
    + rewrite IH. split.
      * intros (d' & Hin & Hd'). exists d'. split; [apply list_elem_of_further|]; done.
      * intros (d' & Hin & Hf & Ht). apply elem_of_cons in Hin as [->|Hin]; [done|eauto].
Qed.

(** Dequeuing [c] takes the edges to [c] off the pending ones. *)
Lemma pendingOf_snoc (P : list jsstring) (c n : jsstring) (deps : list Dependency) :
  c ∉ P ->
  pendingOf (P ++ [c]) n deps = pendingOf P n deps - edgesBetween n c deps.
Proof.
  intros Hc. induction deps as [|d deps IH]; cbn; [done|].
  rewrite IH.
  assert (to d ∉ P ++ [c] <-> (to d ∉ P) /\ to d <> c) as Hiff.
  { rewrite elem_of_app, list_elem_of_singleton. tauto. }
  repeat case_bool_decide; try lia; exfalso.
  all: destruct (decide (to d = c)) as [Heq|Hne];
    try (rewrite Heq in *); tauto.
Qed.

Lemma pendingOf_zero (P : list jsstring) (n : jsstring) (deps : list Dependency) :
  pendingOf P n deps = 0 <-> forall d, d ∈ deps -> from d = n -> to d ∈ P.
Proof.
  induction deps as [|d deps IH]; cbn.
  - split; [|done]. intros _ d H. inversion H.
  - pose proof (pendingOf_nonneg P n deps) as Hnn. case_bool_decide as Hd.
    + split; [lia|]. intros H. destruct Hd as [Hf Ht]. destruct Ht.
      apply H; [apply list_elem_of_here|done].
    + rewrite Z.add_0_l, IH. split.
      * intros H d' [->|Hin]%elem_of_cons Hf; [|eauto].
        destruct (decide (to d ∈ P)); tauto.
      * intros H d' Hin. apply H. apply list_elem_of_further. done.
Qed.

Lemma edgesBetween_pos (n c : jsstring) (deps : list Dependency) :
  0 < edgesBetween n c deps <-> exists d, d ∈ deps /\ from d = n /\ to d = c.
Proof.
  rewrite <- occurrences_dependents, occurrences_pos. apply elem_of_dependents.
Qed.

Lemma edgesBetween_le_pending (P : list jsstring) (n c : jsstring)
    (deps : list Dependency) :
  c ∉ P -> edgesBetween n c deps <= pendingOf P n deps.
Proof.
  intros Hc. pose proof (pendingOf_nonneg (P ++ [c]) n deps).
  rewrite pendingOf_snoc in H by done. lia.
Qed.

(** *** The graph and the in-degrees once built *)

Lemma initGraph_lookup (comps : list Component) (n : jsstring) :
  initGraph comps !! n = if decide (n ∈ map name comps) then Some [] else None.
Proof.
  unfold initGraph.
  assert (forall g : gmap jsstring (list jsstring),
            foldl (fun g comp => <[name comp := []]> g) g comps !! n =
            if decide (n ∈ map name comps) then Some [] else g !! n) as H.
  { induction comps as [|c comps IH]; intros g; cbn.
    - rewrite decide_False; [done|]. intros H. inversion H.
    - rewrite IH. destruct (decide (n ∈ map name comps)) as [Hin|Hout].
      + rewrite decide_True; [done|]. apply list_elem_of_further. done.
      + destruct (decide (name c = n)) as [<-|Hne].
        * rewrite lookup_insert_eq, decide_True; [done|]. apply list_elem_of_here.
        * rewrite lookup_insert_ne, decide_False; [done| |done].
          intros [?|?]%elem_of_cons; congruence. }
  rewrite H. case_decide; done.
Qed.

Lemma addEdge_all_lookup (deps : list Dependency) (c : jsstring) :
  forall g,
    foldl addEdge g deps !! c = (fun l => l ++ dependents c deps) <$> g !! c.
Proof.
  induction deps as [|d deps IH]; intros g; cbn.
  - destruct (g !! c); cbn; [rewrite app_nil_r|]; done.
  - rewrite IH. unfold addEdge.
    destruct (g !! to d) as [arr|] eqn:Earr.
    + case_bool_decide as Hto.
      * subst c. rewrite lookup_insert_eq, Earr. cbn. rewrite <- app_assoc. done.
      * rewrite lookup_insert_ne by done. done.
    + case_bool_decide as Hto; [|done]. subst c. rewrite Earr. done.
Qed.

Lemma buildGraph_lookup (comps : list Component) (deps : list Dependency)
    (c : jsstring) :
  buildGraph comps deps !! c =
    if decide (c ∈ map name comps) then Some (dependents c deps) else None.
Proof.
  unfold buildGraph. rewrite addEdge_all_lookup, initGraph_lookup.
  case_decide; done.
Qed.

Lemma initInDegree_lookup (comps : list Component) (n : jsstring) :
  initInDegree comps !! n = if decide (n ∈ map name comps) then Some 0 else None.
Proof.
  unfold initInDegree.
  assert (forall g : gmap jsstring Z,
            foldl (fun g comp => <[name comp := 0]> g) g comps !! n =
            if decide (n ∈ map name comps) then Some 0 else g !! n) as H.
  { induction comps as [|c comps IH]; intros g; cbn.
    - rewrite decide_False; [done|]. intros H. inversion H.
    - rewrite IH. destruct (decide (n ∈ map name comps)) as [Hin|Hout].
      + rewrite decide_True; [done|]. apply list_elem_of_further. done.
      + destruct (decide (name c = n)) as [<-|Hne].
        * rewrite lookup_insert_eq, decide_True; [done|]. apply list_elem_of_here.
        * rewrite lookup_insert_ne, decide_False; [done| |done].
          intros [?|?]%elem_of_cons; congruence. }
  rewrite H. case_decide; done.
Qed.

Lemma countEdge_all_lookup (deps : list Dependency) (n : jsstring) :
  forall d v,
    d !! n = Some v ->
    foldl countEdge d deps !! n = Some (v + pendingOf [] n deps).
Proof.
  induction deps as [|dep deps IH]; intros d v Hv; cbn.
  - rewrite Hv. f_equal. lia.
  - case_bool_decide as Hd.
    + destruct Hd as [<- _].
      erewrite IH; [|unfold countEdge; rewrite lookup_insert_eq; done].
      rewrite Hv. cbn. f_equal. lia.
    + assert (from dep <> n) as Hne.
      { intros Heq. apply Hd. split; [done|]. intros H. inversion H. }
      erewrite IH; [|unfold countEdge; rewrite lookup_insert_ne by done; done].
      f_equal; lia.
Qed.

Lemma buildInDegree_lookup (comps : list Component) (deps : list Dependency)
    (n : jsstring) :
  n ∈ map name comps ->
  buildInDegree comps deps !! n = Some (pendingOf [] n deps).
Proof.
  intros Hn. unfold buildInDegree.
  erewrite countEdge_all_lookup;
    [|rewrite initInDegree_lookup, decide_True; done].
  f_equal; lia.
Qed.

(** The seeds: the declared names without dependencies, in order. *)
Lemma seed_all (comps : list Component) :
  forall st,
    let ready := filter (fun n => inDegree st !! n = Some 0) (map name comps) in
    queue (foldl seed st comps) = queue st ++ ready /\
    inDegree (foldl seed st comps) = inDegree st /\
    forall n, layers (foldl seed st comps) !! n =
      if decide (n ∈ ready) then Some 0 else layers st !! n.
Proof.
  induction comps as [|c comps IH]; intros st; cbn.
  - rewrite app_nil_r. split; [done|]. split; [done|]. intros n.
    rewrite decide_False; [done|]. intros H. inversion H.
  - assert (inDegree (seed st c) = inDegree st) as Hsame.
    { unfold seed. case_bool_decide; done. }
    destruct (IH (seed st c)) as (Hq & Hd & Hl). rewrite Hsame in Hq, Hd, Hl.
    rewrite Hq, Hd.
    destruct (decide (inDegree st !! name c = Some 0)) as [Hc|Hc].
    + assert (seed st c = mkTopoState (<[name c := 0]> (layers st)) (inDegree st)
                            (queue st ++ [name c])) as Hseed.
      { unfold seed. rewrite bool_decide_true; done. }
      rewrite Hseed in *. cbn [queue inDegree layers] in *. rewrite <- app_assoc.
      split; [done|]. split; [done|]. intros n. rewrite Hl.
      destruct (decide (n ∈ filter _ (map name comps))) as [Hin|Hout].
      * rewrite decide_True; [done|]. apply list_elem_of_further. done.
      * destruct (decide (name c = n)) as [<-|Hne].
        -- rewrite lookup_insert_eq, decide_True; [done|]. apply list_elem_of_here.
        -- rewrite lookup_insert_ne, decide_False; [done| |done].
           intros [?|?]%elem_of_cons; [congruence|done].
    + assert (seed st c = st) as Hseed.
      { unfold seed. rewrite bool_decide_false; done. }
      rewrite Hseed in *.
      split; [done|]. split; [done|]. intros n. rewrite Hl. done.
Qed.

(** *** The invariant holds when the loop starts *)

Lemma layering_start (comps : list Component) (deps : list Dependency) :
  validGraph comps deps -> layering comps deps [] (topoStart comps deps).
Proof.
  intros [Hnodup Hvalid]. unfold topoStart.
  set (d := buildInDegree comps deps).
  destruct (seed_all comps (mkTopoState ∅ d [])) as (Hq & Hd & Hl).
  cbn [queue inDegree layers] in *.
  set (st := foldl seed (mkTopoState ∅ d []) comps) in *.
  assert (forall n, n ∈ queue st <-> n ∈ map name comps /\ pendingOf [] n deps = 0) as Hready.
  { intros n. rewrite Hq. cbn. rewrite list_elem_of_filter. split.
    - intros [H0 Hn]. split; [done|]. unfold d in H0.
      rewrite buildInDegree_lookup in H0 by done. congruence.
    - intros [Hn H0]. split; [|done]. unfold d.
      rewrite buildInDegree_lookup by done. congruence. }
  split; cbn [app].
  - intros n Hn. rewrite Hd. unfold d. apply buildInDegree_lookup. done.
  - rewrite Hq. cbn. apply NoDup_filter. done.
  - done.
  - intros n Hn. rewrite Hl, decide_True; [eauto|]. rewrite Hq in Hn. done.
  - intros dep _ H. inversion H.
  - intros n v. rewrite Hl, lookup_empty. case_decide; [|done].
    intros [= <-]. split; [lia|]. left. done.
Qed.

(** *** One turn of the loop *)

Lemma relax_all_layers (L : Z) (l : list jsstring) :
  forall st n,
    layers (foldl (relax L) st l) !! n =
      if decide (n ∈ l) then Some (Z.max (default 0 (layers st !! n)) (L + 1))
      else layers st !! n.
Proof.
  induction l as [|f l IH]; intros st n; cbn [foldl].
  - rewrite decide_False; [done|]. intros H. inversion H.
  - rewrite IH. unfold relax. cbn [layers].
    destruct (decide (f = n)) as [->|Hne].
    + rewrite lookup_insert_eq. cbn.
      rewrite (decide_True (P := n ∈ n :: l)) by apply list_elem_of_here.
      case_decide; f_equal; lia.
    + rewrite lookup_insert_ne by done.
      destruct (decide (n ∈ l)) as [Hin|Hout].
      * rewrite decide_True; [done|]. apply list_elem_of_further. done.
      * rewrite decide_False; [done|]. intros [?|?]%elem_of_cons; [congruence|done].
Qed.

Lemma relax_all_degrees (L : Z) (l : list jsstring) :
  forall st n v,
    inDegree st !! n = Some v ->
    inDegree (foldl (relax L) st l) !! n = Some (v - occurrences n l).
Proof.
  induction l as [|f l IH]; intros st n v Hv; cbn [foldl occurrences].
  - rewrite Hv. f_equal. lia.
  - case_bool_decide as Hf.
    + subst f. erewrite IH.
      2:{ unfold relax. cbn. rewrite lookup_insert_eq, Hv. done. }
      cbn. f_equal. lia.
    + erewrite IH.
      2:{ unfold relax. cbn. rewrite lookup_insert_ne by done. done. }
      f_equal; lia.
Qed.

(** A name enters the queue on the last of its occurrences among the
    neighbours, when that brings its in-degree to zero. *)
Lemma relax_all_queue (L : Z) (l : list jsstring) :
  forall st,
    (forall n, n ∈ l -> occurrences n l <= default 0 (inDegree st !! n)) ->
    exists pushed,
      queue (foldl (relax L) st l) = queue st ++ pushed /\
      NoDup pushed /\
      forall n, n ∈ pushed <->
        n ∈ l /\ default 0 (inDegree st !! n) = occurrences n l.
Proof.
  induction l as [|f l IH]; intros st Hle; cbn [foldl].
  - exists []. rewrite app_nil_r. split; [done|]. split; [constructor|].
    intros n. split; [intros H; inversion H|]. intros [H _]. inversion H.
  - set (v := default 0 (inDegree st !! f)).
    assert (forall n, default 0 (inDegree (relax L st f) !! n) =
              if decide (f = n) then v - 1 else default 0 (inDegree st !! n)) as Hdeg.
    { intros n. unfold relax. cbn. case_decide as Hfn.
      - subst n. rewrite lookup_insert_eq. done.
      - rewrite lookup_insert_ne by done. done. }
    assert (1 + occurrences f l <= v) as Hv.
    { specialize (Hle f (list_elem_of_here _ _)). cbn in Hle.
      rewrite bool_decide_true in Hle by done. done. }
    destruct (IH (relax L st f)) as (pushed & Hq & Hnd & Hin).
    { intros n Hn. rewrite Hdeg. case_decide as Hfn.
      - subst n. lia.
      - specialize (Hle n (list_elem_of_further _ _ _ Hn)). cbn in Hle.
        rewrite bool_decide_false in Hle by done. lia. }
    pose proof (occurrences_nonneg f l) as Hnn.
    exists ((if bool_decide (v - 1 = 0) then [f] else []) ++ pushed).
    split; [|split].
    + rewrite Hq. unfold relax. cbn [queue]. fold v.
      case_bool_decide; cbn; rewrite <- ?app_assoc; done.
    + case_bool_decide as H0; cbn; [|done]. constructor; [|done].
      rewrite Hin, Hdeg, decide_True by done.
      intros [Hfl Hocc]. apply occurrences_pos in Hfl. lia.
    + intros n. rewrite elem_of_app, Hin, Hdeg, elem_of_cons. cbn [occurrences].
      destruct (decide (f = n)) as [<-|Hne].
      * rewrite (bool_decide_true (f = f)) by done. fold v.
        case_bool_decide as H0.
        -- rewrite list_elem_of_singleton. split; [|eauto].
           intros _. split; [eauto|].
           assert (occurrences f l = 0) by lia. lia.
        -- split.
           ++ intros [H|[Hfl Hocc]]; [inversion H|]. split; [eauto|lia].
           ++ intros [_ Hocc]. right. split; [|lia].
              apply occurrences_pos. lia.
      * rewrite (bool_decide_false (f = n)) by done. split.
        -- intros [H|[Hnl Hocc]].
           ++ case_bool_decide; [|inversion H].
              apply list_elem_of_singleton in H. congruence.
           ++ split; [eauto|lia].
        -- intros [[?|Hnl] Hocc]; [congruence|]. right. split; [done|lia].
Qed.

Lemma layering_visit (comps : list Component) (deps : list Dependency)
    (P : list jsstring) (ls d : gmap jsstring Z) (c : jsstring) (rest : list jsstring) :
  validGraph comps deps ->
  layering comps deps P (mkTopoState ls d (c :: rest)) ->
  layering comps deps (P ++ [c])
    (visit (buildGraph comps deps) c (mkTopoState ls d rest)).
Proof.
  intros [Hnodup Hvalid] [Hdeg Hnd Hready Hdef Habove Hmax].
  cbn [queue inDegree layers] in *.
  assert (c ∈ P ++ c :: rest) as Hc.
  { rewrite elem_of_app, elem_of_cons. eauto. }
  destruct (proj1 (Hready c) Hc) as [Hcn Hc0].
  destruct (Hdef c Hc) as [Lc HLc].
  assert (0 <= Lc) as HLc0 by (apply (Hmax c Lc HLc)).
  assert (c ∉ P) as HcP.
  { apply NoDup_app in Hnd as (_ & Hdisj & _). intros H.
    apply (Hdisj c H). apply list_elem_of_here. }
  unfold visit. cbn [layers]. rewrite HLc, buildGraph_lookup, decide_True by done.
  cbn [default from_option Datatypes.id].
  set (l := dependents c deps).
  set (st0 := mkTopoState ls d rest).
  assert (forall f, f ∈ l ->
            f ∈ map name comps /\ 0 < edgesBetween f c deps /\ f ∉ P ++ c :: rest) as Hl.
  { intros f Hf. pose proof Hf as (dep & Hin & Hfrom & Hto)%elem_of_dependents.
    destruct (Hvalid dep Hin) as [Hfn _]. rewrite Hfrom in Hfn. split; [done|].
    assert (0 < edgesBetween f c deps) as Hpos by (apply edgesBetween_pos; eauto).
    split; [done|].
    intros Hmem. apply Hready in Hmem as [_ H0].
    pose proof (edgesBetween_le_pending P f c deps HcP). lia. }
  assert (forall n, n ∈ P ++ c :: rest -> n ∉ l) as Hold.
  { intros n Hn Hnl. apply Hl in Hnl as (_ & _ & Hout). done. }
  pose proof (relax_all_layers Lc l st0) as Hlay. cbn [layers st0] in Hlay.
  assert (forall n, n ∈ map name comps ->
            inDegree (foldl (relax Lc) st0 l) !! n = Some (pendingOf (P ++ [c]) n deps))
    as Hdeg'.
  { intros n Hn. erewrite relax_all_degrees; [|apply Hdeg; done].
    rewrite pendingOf_snoc by done. unfold l. rewrite occurrences_dependents. done. }
  destruct (relax_all_queue Lc l st0) as (pushed & Hq & Hndp & Hpushed).
  { intros n Hn. destruct (Hl n Hn) as (Hnn & _ & _). cbn [inDegree st0].
    rewrite Hdeg by done. cbn. unfold l. rewrite occurrences_dependents.
    apply edgesBetween_le_pending. done. }
  cbn [queue st0] in Hq.
  assert (forall n, n ∈ pushed <-> n ∈ l /\ pendingOf (P ++ [c]) n deps = 0) as Hpushed'.
  { intros n. rewrite Hpushed. cbn [inDegree st0].
    assert (n ∈ l -> default 0 (d !! n) = occurrences n l <->
                     pendingOf (P ++ [c]) n deps = 0) as Hiff.
    { intros Hn. destruct (Hl n Hn) as (Hnn & _ & _).
      rewrite Hdeg by done. cbn. rewrite pendingOf_snoc by done.
      unfold l. rewrite occurrences_dependents. lia. }
    split; intros [Hn H]; (split; [done|]); apply Hiff; done. }
  assert (forall n, n ∈ (P ++ [c]) ++ rest ++ pushed <-> n ∈ P ++ c :: rest \/ n ∈ pushed)
    as Hmem.
  { intros n. rewrite !elem_of_app, list_elem_of_singleton, elem_of_cons. tauto. }
  set (st' := foldl (relax Lc) st0 l) in *.
  split.
  - exact Hdeg'.
  - rewrite Hq.
    assert ((P ++ [c]) ++ rest ++ pushed = (P ++ c :: rest) ++ pushed) as ->.
    { rewrite <- !app_assoc. done. }
    apply NoDup_app. split; [done|]. split; [|done].
    intros n Hn Hp. apply Hpushed' in Hp as [Hp _]. apply (Hold n); done.
  - intros n. rewrite Hq, Hmem. split.
    + intros [Hn|Hn].
      * apply Hready in Hn as [Hn H0]. split; [done|].
        pose proof (pendingOf_nonneg (P ++ [c]) n deps).
        pose proof (edgesBetween_nonneg n c deps).
        rewrite pendingOf_snoc in * by done. lia.
      * apply Hpushed' in Hn as [Hn H0]. split; [|done]. apply Hl. done.
    + intros [Hn H0].
      destruct (decide (pendingOf P n deps = 0)) as [Hz|Hnz].
      * left. apply Hready. done.
      * right. apply Hpushed'. split; [|done].
        apply elem_of_dependents, edgesBetween_pos.
        pose proof (pendingOf_nonneg P n deps).
        rewrite pendingOf_snoc in H0 by done. lia.
  - intros n. rewrite Hq, Hmem, Hlay. intros Hn.
    case_decide as Hnl; [eauto|].
    destruct Hn as [Hn|Hn]; [apply Hdef; done|].
    apply Hpushed' in Hn as [Hn _]. done.
  - intros dep Hin Hto. rewrite !Hlay.
    apply elem_of_app in Hto as [Hto|Hto%list_elem_of_singleton].
    + destruct (Habove dep Hin Hto) as (vf & vt & Hf & Ht & Hlt).
      rewrite (decide_False (P := to dep ∈ l)).
      2:{ apply Hold. rewrite elem_of_app. eauto. }
      rewrite Hf, Ht. cbn. case_decide.
      * eexists _, _. split; [done|]. split; [done|]. lia.
      * eexists _, _. split; [done|]. split; [done|]. lia.
    + rewrite Hto. rewrite (decide_False (P := c ∈ l)) by (apply Hold; done).
      rewrite decide_True by (apply elem_of_dependents; eauto).
      eexists _, _. split; [done|]. split; [done|]. lia.
  - intros n v. rewrite Hlay. case_decide as Hnl.
    + intros [= <-].
      destruct (decide (default 0 (ls !! n) <= Lc + 1)) as [Hle|Hgt].
      * split; [lia|]. right.
        apply elem_of_dependents in Hnl as (dep & Hin & Hfrom & Hto).
        exists dep. split; [done|]. split; [done|]. split.
        { rewrite Hto, elem_of_app, list_elem_of_singleton. eauto. }
        rewrite Hlay, Hto, decide_False by (apply Hold; done).
        rewrite HLc. f_equal. lia.
      * destruct (ls !! n) as [w|] eqn:Hw; cbn in Hgt; [|lia].
        destruct (Hmax n w Hw) as [Hw0 [->|(dep & Hin & Hfrom & Hto & Hlook)]]; [lia|].
        cbn. split; [lia|]. right.
        exists dep. split; [done|]. split; [done|]. split.
        { rewrite elem_of_app. eauto. }
        rewrite Hlay, decide_False by (apply Hold; rewrite elem_of_app; eauto).
        rewrite Hlook. f_equal. lia.
    + intros Hv.
      destruct (Hmax n v Hv) as [Hv0 [->|(dep & Hin & Hfrom & Hto & Hlook)]].
      * split; [done|]. left. done.
      * split; [done|]. right.
        exists dep. split; [done|]. split; [done|]. split.
        { rewrite elem_of_app. eauto. }
        rewrite Hlay, decide_False by (apply Hold; rewrite elem_of_app; eauto).
        done.
Qed.

(** *** The whole loop *)

Lemma bfs_layering (comps : list Component) (deps : list Dependency) (fuel : nat) :
  validGraph comps deps ->
  forall P st st',
    layering comps deps P st ->
    bfs fuel (buildGraph comps deps) st = Some st' ->
    exists P', layering comps deps P' st' /\ queue st' = [].
Proof.
  intros Hvalid. induction fuel as [|fuel IH]; intros P [ls d q] st' Hinv Hrun.
  - destruct q; cbn in Hrun; [|done]. injection Hrun as <-. eauto.
  - destruct q as [|c rest]; cbn in Hrun.
    + injection Hrun as <-. eauto.
    + eapply IH; [|exact Hrun]. apply layering_visit; done.
Qed.

(** In a graph without cycle the dependency relation is well founded. *)
Lemma acyclic_sn (deps : list Dependency) (n : jsstring) :
  acyclic deps -> sn (dependsOn deps) n.
Proof.
  intros Hacyc. apply tc_finite_sn.
  - intros m Hm. apply (Hacyc m). done.
  - exists (map to deps). intros m Hm.
    induction Hm as [x y (dep & Hin & _ & <-)|x y z _ _ IH]; [|done].
    apply list_elem_of_fmap. eauto.
Qed.

(** When the loop ends on a graph without cycle, every component has been
    dequeued. *)
Lemma layering_complete (comps : list Component) (deps : list Dependency)
    (P : list jsstring) (st : TopoState) :
  validGraph comps deps -> acyclic deps ->
  layering comps deps P st -> queue st = [] ->
  forall n, n ∈ map name comps -> n ∈ P.
Proof.
  intros [_ Hvalid] Hacyc Hinv Hq n.
  induction (acyclic_sn deps n Hacyc) as [n _ IH]. intros Hn.
  assert (n ∈ P ++ queue st) as Hin; [|rewrite Hq, app_nil_r in Hin; done].
  apply (lay_ready _ _ _ _ Hinv). split; [done|].
  apply pendingOf_zero. intros dep Hdep Hfrom.
  apply (IH (to dep)).
  - exists dep. done.
  - apply Hvalid. done.
Qed.

Lemma foldr_max_upper (l : list Z) (v : Z) :
  0 <= v -> (forall a, a ∈ l -> a <= v) -> foldr Z.max 0 l <= v.
Proof.
  intros Hv. induction l as [|b l IH]; intros Hle; cbn; [done|].
  apply Z.max_lub.
  - apply Hle, list_elem_of_here.
  - apply IH. intros a Ha. apply Hle, list_elem_of_further. done.
Qed.

Lemma foldr_max_lower (l : list Z) (v : Z) : v ∈ l -> v <= foldr Z.max 0 l.
Proof.
  induction 1 as [|? ? ? ? IH]; cbn.
  - apply Z.le_max_l.
  - eapply Z.le_trans; [exact IH|apply Z.le_max_r].
Qed.

Lemma foldr_max_attained (l : list Z) (v : Z) :
  0 <= v -> (forall a, a ∈ l -> a <= v) -> (l = [] -> v = 0) -> (l <> [] -> v ∈ l) ->
  v = foldr Z.max 0 l.
Proof.
  intros Hv Hle Hnil Hin.
  destruct l as [|a l]; [cbn; auto|].
  specialize (Hin ltac:(done)). clear Hnil.
  pose proof (foldr_max_upper _ _ Hv Hle).
  pose proof (foldr_max_lower _ _ Hin).
  lia.
Qed.

(** A numbering that decreases along the edges excludes cycles. *)
Lemma acyclic_ranked (deps : list Dependency) (rank : jsstring -> nat) :
  (forall d, d ∈ deps -> (rank (to d) < rank (from d))%nat) -> acyclic deps.
Proof.
  intros Hrank n Hcyc.
  assert (forall a b, tc (dependsOn deps) a b -> (rank b < rank a)%nat) as Hlt.
  { induction 1 as [a b (d & Hin & <- & <-)|a b c (d & Hin & <- & <-) _ IH].
    - apply Hrank. done.
    - specialize (Hrank d Hin). lia. }
  specialize (Hlt n n Hcyc). lia.
Qed.

(** ** Strict layering *)

(** C3. On a valid graph without cycle the layering returns, one layer for
    each component: along every dependency edge the source is strictly
    above the target, and the layer of a component is the largest of the
    candidates proposed to it, one above each of its dependencies, and 0
    when it has none. *)
Theorem topologicalSort_strict (comps : list Component) (deps : list Dependency) :
  validGraph comps deps -> acyclic deps ->
  exists layers,
    (exists fuel, topologicalSort fuel comps deps = Some layers) /\
    (forall fuel l, topologicalSort fuel comps deps = Some l -> l = layers) /\
    (forall d, d ∈ deps -> layerOf layers (to d) < layerOf layers (from d)) /\
    (forall n, n ∈ map name comps ->
       is_Some (layers !! n) /\
       layerOf layers n = foldr Z.max 0 (candidates layers n deps)).
Proof.
  intros Hvalid Hacyc.
  destruct (topologicalSort_total comps deps) as (fuel & layers & Hsort).
  exists layers. split; [eauto|]. split.
  { intros fuel' l Hl. eapply topologicalSort_deterministic; eauto. }
  unfold topologicalSort in Hsort.
  destruct (bfs fuel _ _) as [st|] eqn:Hrun; [|done].
  cbn in Hsort. injection Hsort as <-.
  destruct (bfs_layering comps deps fuel Hvalid [] _ _ (layering_start _ _ Hvalid) Hrun)
    as (P & Hinv & Hq).
  pose proof (layering_complete _ _ _ _ Hvalid Hacyc Hinv Hq) as Hall.
  destruct Hinv as [_ _ _ Hdef Habove Hmax]. rewrite Hq, app_nil_r in Hdef.
  assert (forall n, 0 <= layerOf (layers st) n) as Hnn.
  { intros n. unfold layerOf. destruct (layers st !! n) as [v|] eqn:Hv; cbn; [|lia].
    apply (Hmax n v Hv). }
  assert (forall d, d ∈ deps -> layerOf (layers st) (to d) < layerOf (layers st) (from d))
    as Hstrict.
  { intros d Hd. destruct Hvalid as [_ Hvalid]. destruct (Hvalid d Hd) as [_ Ht].
    destruct (Habove d Hd (Hall _ Ht)) as (vf & vt & Hf & Hto & Hlt).
    unfold layerOf. rewrite Hf, Hto. done. }
  split; [done|].
  intros n Hn. split; [apply Hdef, Hall; done|].
  destruct (Hdef n (Hall n Hn)) as [v Hv].
  assert (layerOf (layers st) n = v) as Hlv by (unfold layerOf; rewrite Hv; done).
  rewrite Hlv. destruct (Hmax n v Hv) as [Hv0 Hwit].
  apply foldr_max_attained; [done|..].
  - intros a (d & -> & [Hfrom Hd]%list_elem_of_filter)%list_elem_of_fmap.
    specialize (Hstrict d Hd). rewrite Hfrom, Hlv in Hstrict. lia.
  - intros Hnil. destruct Hwit as [->|(d & Hd & Hfrom & _)]; [done|].
    assert (d ∈ filter (fun d => from d = n) deps) as Hin.
    { apply list_elem_of_filter. done. }
    unfold candidates in Hnil. apply fmap_nil_inv in Hnil.
    rewrite Hnil in Hin. inversion Hin.
  - intros Hne. apply list_elem_of_fmap.
    destruct Hwit as [->|(d & Hd & Hfrom & _ & Hlook)].
    + unfold candidates in Hne.
      destruct (filter (fun d => from d = n) deps) as [|d ds] eqn:Hf; [done|].
      assert (d ∈ filter (fun d => from d = n) deps) as Hin.
      { rewrite Hf. apply list_elem_of_here. }
      apply list_elem_of_filter in Hin as [Hfrom Hd].
      specialize (Hstrict d Hd). rewrite Hfrom, Hlv in Hstrict.
      specialize (Hnn (to d)). lia.
    + exists d. split.
      * unfold layerOf. rewrite Hlook. cbn. lia.
      * apply list_elem_of_filter. done.
Qed.

(** The layers of [diamondMap]: [D] below [B] and [C], below [A]. *)
Lemma topologicalSort_strict_witness :
  exists layers,
    (exists fuel,
        topologicalSort fuel (components diamondMap) (dependencies diamondMap) = Some layers) /\
    (forall fuel l,
        topologicalSort fuel (components diamondMap) (dependencies diamondMap) = Some l ->
        l = layers) /\
    (forall d, d ∈ dependencies diamondMap ->
       layerOf layers (to d) < layerOf layers (from d)) /\
    (forall n, n ∈ map name (components diamondMap) ->
       is_Some (layers !! n) /\
       layerOf layers n = foldr Z.max 0 (candidates layers n (dependencies diamondMap))).
Proof.
  apply (topologicalSort_strict (components diamondMap) (dependencies diamondMap)).
  - split.
    + apply (bool_decide_unpack _). vm_compute. exact I.
    + apply Forall_forall. repeat constructor;
        apply (bool_decide_unpack _); vm_compute; exact I.
  - apply (acyclic_ranked _ diamondRank).
    apply Forall_forall. repeat constructor.
Defined.

Lemma diamond_layers :
  exists layers,
    topologicalSort 4 (components diamondMap) (dependencies diamondMap) = Some layers /\
    layerOf layers (js "D") = 0 /\ layerOf layers (js "B") = 1 /\
    layerOf layers (js "C") = 1 /\ layerOf layers (js "A") = 2.
Proof. eexists. evaluate_all. Qed.

(** ** What holds of the coordinates on every graph *)

Lemma relax_nonneg (L : Z) (st : TopoState) (n : jsstring) :
  0 <= L ->
  map_Forall (fun _ v => 0 <= v) (layers st) ->
  map_Forall (fun _ v => 0 <= v) (layers (relax L st n)).
Proof.
  intros HL Hall. unfold relax. cbn [layers].
  apply map_Forall_insert_2; [|done].
  pose proof (Z.le_max_r (default 0 (layers st !! n)) (L + 1)). lia.
Qed.

Lemma visit_nonneg (graph : gmap jsstring (list jsstring)) (c : jsstring)
    (st : TopoState) :
  map_Forall (fun _ v => 0 <= v) (layers st) ->
  map_Forall (fun _ v => 0 <= v) (layers (visit graph c st)).
Proof.
  intros Hall. unfold visit.
  assert (0 <= default 0 (layers st !! c)) as HL.
  { destruct (layers st !! c) as [v|] eqn:Hv; cbn; [|lia]. apply (Hall c v Hv). }
  revert HL. generalize (default 0 (layers st !! c)) as L.
  generalize (default [] (graph !! c)) as l. intros l. revert st Hall.
  induction l as [|n l IH]; intros st Hall L HL; cbn; [done|].
  apply IH; [|done]. apply relax_nonneg; done.
Qed.

Lemma bfs_nonneg (graph : gmap jsstring (list jsstring)) (fuel : nat) :
  forall st st',
    map_Forall (fun _ v => 0 <= v) (layers st) ->
    bfs fuel graph st = Some st' ->
    map_Forall (fun _ v => 0 <= v) (layers st').
Proof.
  induction fuel as [|fuel IH]; intros [ls d q] st' Hall Hrun.
  - destruct q; cbn in Hrun; [|done]. injection Hrun as <-. done.
  - destruct q as [|c rest]; cbn in Hrun.
    + injection Hrun as <-. done.
    + eapply IH; [|exact Hrun]. apply visit_nonneg. done.
Qed.

(** No layer is negative, on any graph. *)
Lemma topologicalSort_nonneg (fuel : nat) (comps : list Component)
    (deps : list Dependency) (layers : gmap jsstring Z) (n : jsstring) :
  topologicalSort fuel comps deps = Some layers -> 0 <= layerOf layers n.
Proof.
  unfold topologicalSort. destruct (bfs fuel _ _) as [st|] eqn:Hrun; [|done].
  intros [= <-]. unfold layerOf.
  destruct (layers st !! n) as [v|] eqn:Hv; cbn; [|lia].
  assert (map_Forall (fun _ v => 0 <= v) (layers (topoStart comps deps))) as Hstart.
  { unfold topoStart.
    destruct (seed_all comps
                (mkTopoState ∅ (buildInDegree comps deps) [])) as (_ & _ & Hl).
    cbn [layers inDegree] in Hl.
    intros k w. rewrite Hl, lookup_empty. case_decide; [|done]. intros [= <-]. done. }
  apply (bfs_nonneg _ _ _ _ Hstart Hrun n v Hv).
Qed.

(** The rows lie between 0 (top) and 1 (bottom, not reached). *)
Lemma assignY_range (layers : gmap jsstring Z) (c : Component) :
  0 <= layerOf layers (name c) ->
  exists q, y (assignY layers (maxLayerOf layers) c) = Some (Num q) /\
            (0 <= q)%Q /\ (q < 1)%Q.
Proof.
  intros Hl. pose proof (layerOf_upper layers (name c)) as Hu.
  pose proof (maxLayerOf_nonneg layers) as Hm.
  destruct c as [n s [] vx vy]; unfold assignY; cbn [isAnchor setY y name] in *.
  - exists (inject_Z 0). split; [done|]. split; done.
  - rewrite layer_row_finite by done. eexists. split; [done|].
    set (a := maxLayerOf layers - layerOf layers n).
    set (b := maxLayerOf layers + 1).
    assert (0 <= a < b) as Hab by (unfold a, b; lia).
    split.
    + apply Qle_shift_div_l.
      * unfold Qlt, inject_Z; cbn. lia.
      * unfold Qle, inject_Z; cbn. lia.
    + apply Qlt_shift_div_r.
      * unfold Qlt, inject_Z; cbn. lia.
      * unfold Qlt, inject_Z; cbn. lia.
Qed.

(** On every graph, every component of the placed graph has its [y] in
    [[0, 1)]. *)
Lemma placed_y_in_unit_interval (fuel : nat) (m m' : WardleyMap) :
  calculatePositions fuel m = Some m' ->
  Forall (fun c => exists q, y c = Some (Num q) /\ (0 <= q)%Q /\ (q < 1)%Q)
    (components m').
Proof.
  intros (layers & Hsort & ->)%calculatePositions_Some.
  cbn [components withComponents].
  apply (Forall_fmap y (fun v => exists q, v = Some (Num q) /\ (0 <= q)%Q /\ (q < 1)%Q)).
  unfold spreadOverlappingComponents. rewrite spreadWith_projection by done.
  apply Forall_fmap.
  apply (inheritY_all_range
           (fun v => exists q, v = Some (Num q) /\ (0 <= q)%Q /\ (q < 1)%Q)).
  apply Forall_fmap, Forall_fmap, Forall_forall. intros c _. cbn.
  apply assignY_range. cbn. eapply topologicalSort_nonneg. exact Hsort.
Qed.

(** An anchor that no evolution edge targets is on the top row. *)
Lemma untargeted_anchor_on_top (fuel : nat) (m m' : WardleyMap) (i : nat)
    (c : Component) :
  calculatePositions fuel m = Some m' ->
  components m !! i = Some c -> isAnchor c = true ->
  Forall (fun e => eto e <> name c) (evolutions m) ->
  exists c', components m' !! i = Some c' /\ name c' = name c /\ y c' = Some (ofZ 0).
Proof.
  intros (layers & _ & ->)%calculatePositions_Some Hi Hanchor Hevo.
  cbn [components withComponents].
  set (comps2 := map (assignY layers (maxLayerOf layers)) _).
  set (c2 := assignY layers (maxLayerOf layers) (setX c (Some (STAGE_POSITIONS (stage c))))).
  assert (name c2 = name c /\ y c2 = Some (ofZ 0)) as [Hn2 Hy2].
  { unfold c2. destruct c as [n s a vx vy]. cbn in Hanchor. subst a. done. }
  assert (foldl inheritY comps2 (evolutions m) !! i = Some c2) as H3.
  { apply inheritY_all_other.
    - unfold comps2. rewrite !list_lookup_fmap, Hi. done.
    - rewrite Hn2. done. }
  set (comps3 := foldl inheritY comps2 (evolutions m)) in *.
  assert (y <$> spreadOverlappingComponents comps3 = y <$> comps3) as Hy
    by (apply spreadWith_projection; done).
  assert (name <$> spreadOverlappingComponents comps3 = name <$> comps3) as Hn
    by (apply spreadWith_projection; done).
  apply (f_equal (fun l => l !! i)) in Hy. apply (f_equal (fun l => l !! i)) in Hn.
  cbn beta in Hy, Hn.
  rewrite !list_lookup_fmap, H3 in Hy. rewrite !list_lookup_fmap, H3 in Hn.
  destruct (spreadOverlappingComponents comps3 !! i) as [c'|]; [|done].
  cbn in Hy, Hn. injection Hy as Hy. injection Hn as Hn.
  exists c'. split; [done|]. split; congruence.
Qed.

(** ** Coordinates outside the unit square *)

(** C2. Seven components of the first stage without dependencies parse
    without error, share one row, and the first of them is placed left of
    the unit square, at [x = -0.015]. *)
Theorem sevenGenesis_leaves_unit_square :
  exists o q,
    run 7 sevenGenesis = Some o /\ reported o = [] /\
    xOf (Some o) (js "C1") = Some (Num q) /\ (q == -0.015)%Q /\ (q < 0)%Q.
Proof.
  eexists _, _. evaluate_all.
Qed.

(** ** Anchors *)

(** C4. An anchor that is the target of an evolution edge ends on the row
    of the source of the edge, here at [y = 0.5], not at [y = 0]. *)
Theorem evolvedAnchor_not_on_top :
  exists o c q,
    run 3 evolvedAnchor = Some o /\ reported o = [] /\
    placedComponent (Some o) (js "A") = Some c /\ isAnchor c = true /\
    y c = Some (Num q) /\ (q == 0.5)%Q /\ ~ (q == 0)%Q.
Proof.
  eexists _, _, _. evaluate_all.
Qed.

(** ** Evolution edges *)

(** C5. In a chain of evolution edges declared last link first
    ([evolve B -> C] before [evolve A -> B]), the target of the first
    declared edge keeps the row that its source had before the source was
    itself moved: the text is accepted, [B] ends on the row of [A], at
    [y = 0], and [C] at [y = 0.5], so that the edge from [B] to [C] does not
    end with the target on the row of its source. *)
Lemma reversedChain_not_aligned :
  exists o m e,
    run 4 reversedChain = Some o /\ reported o = [] /\ placed o = Some m /\
    e ∈ evolutions m /\ efrom e = js "B" /\ eto e = js "C" /\
    sameNumber (yOf (Some o) (js "B")) (Some (Num 0)) /\
    sameNumber (yOf (Some o) (js "C")) (Some (Num 0.5)) /\
    ~ sameNumber (yOf (Some o) (eto e)) (yOf (Some o) (efrom e)).
Proof.
  eexists _, _, (mkEvolution (js "B") (js "C") (js "product")).
  split; [evaluate|]. split; [evaluate|]. split; [evaluate|].
  split; [apply list_elem_of_here|]. evaluate_all.
Qed.

Lemma inheritY_aligns (comps : list Component) (e : Evolution) :
  efrom e ∈ map name comps -> eto e ∈ map name comps ->
  Forall (fun c => isFinite (y c)) comps ->
  exists i j cs ct,
    fst <$> findComponent (efrom e) comps = Some i /\
    fst <$> findComponent (eto e) comps = Some j /\
    inheritY comps e !! i = Some cs /\ inheritY comps e !! j = Some ct /\
    name cs = efrom e /\ name ct = eto e /\ y ct = y cs.
Proof.
  intros Hf Ht Hfin.
  destruct (findComponent_declared _ _ Hf) as [[i src] Es].
  destruct (findComponent_declared _ _ Ht) as [[j tgt] Et].
  unfold inheritY. rewrite Es, Et.
  apply findComponent_Some in Es as [Hi Hs].
  apply findComponent_Some in Et as [Hj Hn].
  assert (isFinite (y src)) as [v Hv].
  { rewrite Forall_lookup in Hfin. eauto. }
  rewrite Hv. exists i, j.
  assert (j < length comps)%nat as Hlen by (eapply lookup_lt_Some; eauto).
  destruct (decide (i = j)) as [->|Hne].
  - exists (setY tgt (Some (Num v))), (setY tgt (Some (Num v))).
    rewrite list_lookup_insert_eq by done.
    repeat split; cbn; congruence.
  - exists src, (setY tgt (Some (Num v))).
    rewrite list_lookup_insert_eq by done.
    rewrite list_lookup_insert_ne by done.
    repeat split; cbn; first [done | congruence].
Qed.

(** An evolution edge between declared components such that no edge
    declared after it targets its source or its target ends with the target
    on the row of the source, exactly: the single pass over the edges aligns
    the chains that are declared first link first. *)
Lemma evolution_target_inherits (fuel : nat) (m m' : WardleyMap)
    (pre post : list Evolution) (e : Evolution) :
  calculatePositions fuel m = Some m' ->
  evolutions m = pre ++ e :: post ->
  efrom e ∈ map name (components m) ->
  eto e ∈ map name (components m) ->
  Forall (fun e' => eto e' <> efrom e /\ eto e' <> eto e) post ->
  exists cs ct,
    snd <$> findComponent (efrom e) (components m') = Some cs /\
    snd <$> findComponent (eto e) (components m') = Some ct /\
    isFinite (y ct) /\ y ct = y cs.
Proof.
  intros Hrun Hevo Hf Ht Hpost.
  pose proof (calculatePositions_fields _ _ _ Hrun) as (Hn & _).
  apply calculatePositions_Some in Hrun as (layers & _ & ->).
  cbn [components withComponents] in *.
  set (comps2 := map (assignY layers (maxLayerOf layers)) _) in *.
  rewrite Hevo, foldl_app in *. cbn [foldl] in *.
  set (A := foldl inheritY comps2 pre) in *.
  assert (map name comps2 = map name (components m)) as Hn2.
  { unfold comps2. rewrite <- !list_fmap_compose. apply list_fmap_ext.
    intros _ c _. destruct c as [? ? [] ? ?]; done. }
  assert (map name A = map name (components m)) as HnA.
  { unfold A. rewrite inheritY_all_projection; done. }
  assert (Forall (fun c => isFinite (y c)) A) as HfinA.
  { apply (inheritY_all_range isFinite), Forall_fmap, Forall_forall. intros c _.
    apply assignY_finite, maxLayerOf_nonneg. }
  destruct (inheritY_aligns A e) as (i & j & cs & ct & Hi & Hj & Hcs & Hct & Hns & Hnt & Hy);
    [rewrite HnA; done..|done|].
  set (B := inheritY A e) in *.
  set (C := foldl inheritY B post) in *.
  assert (C !! i = Some cs) as HCi.
  { apply inheritY_all_other; [done|]. rewrite Hns.
    eapply Forall_impl; [exact Hpost|]. cbn. tauto. }
  assert (C !! j = Some ct) as HCj.
  { apply inheritY_all_other; [done|]. rewrite Hnt.
    eapply Forall_impl; [exact Hpost|]. cbn. tauto. }
  set (D := spreadOverlappingComponents C) in *.
  assert (y <$> D = y <$> C) as HyD by (apply spreadWith_projection; done).
  assert (map name A = map name D) as HnAD by congruence.
  rewrite (findComponent_names (efrom e) _ _ HnAD) in Hi.
  rewrite (findComponent_names (eto e) _ _ HnAD) in Hj.
  destruct (findComponent (efrom e) D) as [[i' cs']|] eqn:Es; [|done].
  destruct (findComponent (eto e) D) as [[j' ct']|] eqn:Et; [|done].
  cbn in Hi, Hj. injection Hi as ->. injection Hj as ->.
  apply findComponent_Some in Es as [Es _]. apply findComponent_Some in Et as [Et _].
  exists cs', ct'. split; [done|]. split; [done|].
  assert (y cs' = y cs) as Hyi.
  { pose proof (f_equal (fun l => l !! i) HyD) as Hyi. cbn beta in Hyi.
    rewrite !list_lookup_fmap, Es, HCi in Hyi. by injection Hyi. }
  assert (y ct' = y ct) as Hyj.
  { pose proof (f_equal (fun l => l !! j) HyD) as Hyj. cbn beta in Hyj.
    rewrite !list_lookup_fmap, Et, HCj in Hyj. by injection Hyj. }
  split; [|congruence].
  rewrite Hyj.
  assert (Forall (fun c => isFinite (y c)) C) as HfinC.
  { apply (inheritY_all_range isFinite), (inheritY_range isFinite). done. }
  rewrite Forall_lookup in HfinC. eauto.
Qed.

(** The chain of [reversedChain] declared first link first is aligned. *)
Lemma forwardChain_aligned :
  exists m',
    calculatePositions 4 forwardChain = Some m' /\
    exists cs ct,
      snd <$> findComponent (js "A") (components m') = Some cs /\
      snd <$> findComponent (js "B") (components m') = Some ct /\
      isFinite (y ct) /\ y ct = y cs.
Proof.
  eexists. split; [vm_compute; reflexivity|].
  eapply (evolution_target_inherits 4 forwardChain _ []
            [mkEvolution (js "B") (js "C") (js "product")]
            (mkEvolution (js "A") (js "B") (js "custom"))).
  - vm_compute. reflexivity.
  - reflexivity.
  - apply list_elem_of_here.
  - apply list_elem_of_further, list_elem_of_here.
  - repeat constructor; vm_compute; discriminate.
Qed.

(** ** The two copies of the pipeline *)

(** C9. On two components of one stage the plugin spreads the pair over
    0.12 and the standalone tool over 0.08, and on a chain between
    undeclared components the plugin reports errors where the standalone
    tool reports none: the two copies are not the same algorithm. *)
Theorem standalone_copy_differs :
  (exists p q,
      xOf (run 2 twoGenesis) (js "A") = Some (Num p) /\
      xOf (runStandalone 2 twoGenesis) (js "A") = Some (Num q) /\
      (p == 0.065)%Q /\ (q == 0.085)%Q) /\
  (exists o o',
      run 0 (js "A -> B") = Some o /\
      runStandalone 0 (js "A -> B") = Some o' /\
      length (reported o) = 2%nat /\ placed o = None /\
      reported o' = [] /\ placed o' <> None).
Proof.
  split.
  - eexists _, _. evaluate_all.
  - eexists _, _. evaluate_all.
Qed.

(** ** Prefixes *)

Lemma startsWith_spec (p s : jsstring) :
  startsWith p s = true <-> exists r, s = p ++ r.
Proof.
  revert s. induction p as [|a p IH]; intros s; cbn.
  - split; [eauto|done].
  - destruct s as [|b s].
    + split; [done|]. intros [r Hr]. done.
    + rewrite andb_true_iff, N.eqb_eq, IH. split.
      * intros [-> [r ->]]. eauto.
      * intros [r [= -> ->]]. eauto.
Qed.

Lemma startsWith_app (p r : jsstring) : startsWith p (p ++ r) = true.
Proof. apply startsWith_spec. eauto. Qed.

(** ** The maps that the parser accepts *)

Lemma evolutions_parseLine (st : ParseState) (i : nat) (raw : jsstring) :
  exists new,
    evolutions (pmap (parseLine st i raw)) = evolutions (pmap st) ++ new /\
    Forall (fun e => has (componentMap st) (efrom e) = true /\
                     has (componentMap st) (eto e) = true) new.
Proof.
  assert (exists new : list Evolution,
             evolutions (pmap st) = evolutions (pmap st) ++ new /\
             Forall (fun e => has (componentMap st) (efrom e) = true /\
                              has (componentMap st) (eto e) = true) new) as Hsame.
  { exists []. rewrite app_nil_r. split; [done|constructor]. }
  unfold parseLine.
  destruct (_ || _); [done|].
  destruct (startsWith (js "title ") _); [done|].
  destruct (rmatch componentRe _) as [caps|].
  { unfold declareComponent. destruct caps as [|n [|s [|]]]; try done.
    destruct (isValidStage s); [|done]. destruct (has _ _); done. }
  destruct (rmatch anchorRe _) as [caps|].
  { unfold declareComponent. destruct caps as [|n [|s [|]]]; try done.
    destruct (isValidStage s); [|done]. destruct (has _ _); done. }
  destruct (rmatch evolveRe _) as [caps|].
  { unfold evolveComponent. destruct caps as [|f [|t [|s [|]]]]; try done.
    destruct (has (componentMap st) (trim f)) eqn:Hf; cbn [negb]; [|done].
    destruct (has (componentMap st) (trim t)) eqn:Ht; cbn [negb]; [|done].
    eexists. split; [reflexivity|]. repeat constructor; done. }
  destruct (rmatch evolveStageRe _) as [caps|].
  { unfold evolveStage. destruct caps as [|n [|s [|]]]; try done.
    destruct (negb _); done. }
  destruct (includesArrow _); [done|].
  destruct (rmatch annotationRe _) as [[|a [|b [|]]]|]; try done.
  destruct (startsWith (js "note ") _); done.
Qed.

Lemma evolutionsDeclared_parseLine (st : ParseState) (i : nat) (raw : jsstring) :
  evolutionsDeclared st -> evolutionsDeclared (parseLine st i raw).
Proof.
  unfold evolutionsDeclared. intros Hst.
  destruct (evolutions_parseLine st i raw) as (new & -> & Hnew).
  destruct (extends_parseLine st i raw) as [_ Hgrow _].
  eapply Forall_impl; [apply Forall_app; split; [exact Hst|exact Hnew]|].
  cbn. intros e [H1 H2]. split; apply Hgrow; done.
Qed.

Lemma evolutionsDeclared_parseLines (lines : list jsstring) :
  forall st k, evolutionsDeclared st -> evolutionsDeclared (parseLines st k lines).
Proof.
  induction lines as [|raw lines IH]; intros st k Hst; cbn; [done|].
  apply IH, evolutionsDeclared_parseLine, Hst.
Qed.

(** The parser never writes a coordinate. *)
Lemma unplaced_parseLine (st : ParseState) (i : nat) (raw : jsstring) :
  Forall (fun c => x c = None /\ y c = None) (components (pmap st)) ->
  Forall (fun c => x c = None /\ y c = None) (components (pmap (parseLine st i raw))).
Proof.
  intros Hst. unfold parseLine.
  assert (forall anchor k caps,
             Forall (fun c => x c = None /\ y c = None)
               (components (pmap (declareComponent anchor k caps st)))) as Hdecl.
  { intros anchor k caps. unfold declareComponent.
    destruct caps as [|n [|s [|]]]; try done.
    destruct (isValidStage s); [|done]. destruct (has _ _); [done|].
    cbn. apply Forall_app. split; [done|]. repeat constructor. }
  destruct (_ || _); [done|].
  destruct (startsWith (js "title ") _); [done|].
  destruct (rmatch componentRe _); [apply Hdecl|].
  destruct (rmatch anchorRe _); [apply Hdecl|].
  destruct (rmatch evolveRe _) as [caps|].
  { unfold evolveComponent. destruct caps as [|f [|t [|s [|]]]]; try done.
    destruct (negb _); [done|]. destruct (negb _); done. }
  destruct (rmatch evolveStageRe _) as [caps|].
  { unfold evolveStage. destruct caps as [|n [|s [|]]]; try done.
    destruct (negb _); done. }
  destruct (includesArrow _); [done|].
  destruct (rmatch annotationRe _) as [[|a [|b [|]]]|]; try done.
  destruct (startsWith (js "note ") _); done.
Qed.

Lemma unplaced_parseLines (lines : list jsstring) :
  forall st k,
    Forall (fun c => x c = None /\ y c = None) (components (pmap st)) ->
    Forall (fun c => x c = None /\ y c = None)
      (components (pmap (parseLines st k lines))).
Proof.
  induction lines as [|raw lines IH]; intros st k Hst; cbn; [done|].
  apply IH, unplaced_parseLine, Hst.
Qed.

(** X1. A map that the parser returns is well formed: no two components
    share a name, every dependency and every evolution edge joins two
    declared components, and no component carries a coordinate yet. *)
Theorem accepted_map_well_formed (source : jsstring) (m : WardleyMap) :
  map_ (parseWardleyMap source) = Some m ->
  NoDup (map name (components m)) /\
  (forall d, d ∈ dependencies m ->
     from d ∈ map name (components m) /\ to d ∈ map name (components m)) /\
  (forall e, e ∈ evolutions m ->
     efrom e ∈ map name (components m) /\ eto e ∈ map name (components m)) /\
  Forall (fun c => x c = None /\ y c = None) (components m).
Proof.
  intros Hm. destruct (parseWardleyMap_valid _ _ Hm) as [Hnd Hdeps].
  split; [done|]. split; [done|].
  revert Hm. unfold parseWardleyMap, parseProgram. cbn [map_].
  set (st := parseLines initialState 0 (splitNewline source)).
  case_bool_decide as Herr; [|done]. intros [= <-].
  destruct (tableAgrees_parseLines (splitNewline source) initialState 0) as [_ Hhas].
  { split; [constructor|]. intros n. rewrite has_true. cbn.
    rewrite lookup_empty. split; [intros []; done|]. intros H. inversion H. }
  fold st in Hhas. split.
  - intros e He.
    assert (evolutionsDeclared st) as Hevo.
    { apply evolutionsDeclared_parseLines. constructor. }
    unfold evolutionsDeclared in Hevo. rewrite Forall_forall in Hevo.
    destruct (Hevo e He) as [H1 H2]. rewrite <- !Hhas. done.
  - apply unplaced_parseLines. constructor.
Qed.

Lemma accepted_map_well_formed_witness :
  exists m,
    map_ (parseWardleyMap teaShop) = Some m /\
    NoDup (map name (components m)) /\
    (forall d, d ∈ dependencies m ->
       from d ∈ map name (components m) /\ to d ∈ map name (components m)) /\
    (forall e, e ∈ evolutions m ->
       efrom e ∈ map name (components m) /\ eto e ∈ map name (components m)) /\
    Forall (fun c => x c = None /\ y c = None) (components m).
Proof.
  eexists. split; [vm_compute; reflexivity|].
  eapply (accepted_map_well_formed teaShop). vm_compute. reflexivity.
Defined.

(** ** The order of the errors *)

(** A statement pushes at most one error. *)
Lemma parseLine_one_error (st : ParseState) (i : nat) (raw : jsstring) :
  errors (parseLine st i raw) = errors st \/
  exists msg, errors (parseLine st i raw) = errors st ++ [mkParseError (S i) msg].
Proof.
  unfold parseLine.
  destruct (_ || _); [left; done|].
  destruct (startsWith (js "title ") _); [left; done|].
  assert (forall anchor caps,
             errors (declareComponent anchor (S i) caps st) = errors st \/
             exists msg, errors (declareComponent anchor (S i) caps st) =
                           errors st ++ [mkParseError (S i) msg]) as Hdecl.
  { intros anchor caps. unfold declareComponent.
    destruct caps as [|n [|s [|]]]; try (left; done).
    destruct (isValidStage s); [|right; eexists; done].
    destruct (has _ _); [right; eexists; done|left; done]. }
  destruct (rmatch componentRe _); [apply Hdecl|].
  destruct (rmatch anchorRe _); [apply Hdecl|].
  destruct (rmatch evolveRe _) as [caps|].
  { unfold evolveComponent. destruct caps as [|f [|t [|s [|]]]]; try (left; done).
    destruct (negb _); [right; eexists; done|].
    destruct (negb _); [right; eexists; done|left; done]. }
  destruct (rmatch evolveStageRe _) as [caps|].
  { unfold evolveStage. destruct caps as [|n [|s [|]]]; try (left; done).
    destruct (negb _); [right; eexists; done|left; done]. }
  destruct (includesArrow _); [left; done|].
  destruct (rmatch annotationRe _) as [[|a [|b [|]]]|]; try (left; done).
  destruct (startsWith (js "note ") _); [left; done|right; eexists; done].
Qed.

Lemma increasingLines_app (a b : list ParseError) :
  increasingLines a -> increasingLines b ->
  (forall e e', e ∈ a -> e' ∈ b -> (line e < line e')%nat) ->
  increasingLines (a ++ b).
Proof.
  intros Ha Hb Hab i j e e' Hij Hi Hj.
  apply lookup_app_Some in Hi as [Hi|[Hia Hi]];
    apply lookup_app_Some in Hj as [Hj|[Hja Hj]].
  - eapply Ha; eauto.
  - apply Hab; eapply list_elem_of_lookup_2; eauto.
  - apply lookup_lt_Some in Hj. lia.
  - eapply (Hb (i - length a)%nat (j - length a)%nat); eauto. lia.
Qed.

Lemma parseLines_increasing (lines : list jsstring) :
  forall st k,
    exists new,
      errors (parseLines st k lines) = errors st ++ new /\
      increasingLines new /\
      Forall (fun e => k < line e <= k + length lines)%nat new.
Proof.
  induction lines as [|raw lines IH]; intros st k; cbn [parseLines].
  - exists []. rewrite app_nil_r. split; [done|]. split; [|constructor].
    intros i j e e' _ Hi. done.
  - destruct (IH (parseLine st k raw) (S k)) as (new2 & He2 & Hinc2 & Hl2).
    assert (exists new1,
               errors (parseLine st k raw) = errors st ++ new1 /\
               increasingLines new1 /\ Forall (fun e => line e = S k) new1)
      as (new1 & He1 & Hinc1 & Hl1).
    { destruct (parseLine_one_error st k raw) as [E|[msg E]].
      - exists []. rewrite app_nil_r. split; [done|]. split; [|constructor].
        intros i j e e' _ Hi. done.
      - exists [mkParseError (S k) msg]. split; [done|]. split; [|repeat constructor].
        intros [|i] [|j] e e' Hij Hi Hj; try lia; done. }
    exists (new1 ++ new2). rewrite He2, He1, app_assoc. split; [done|]. split.
    + apply increasingLines_app; [done|done|].
      intros e e' He He'. rewrite Forall_forall in Hl1, Hl2.
      rewrite (Hl1 e He). specialize (Hl2 e' He'). cbn in Hl2. lia.
    + apply Forall_app. split.
      * eapply Forall_impl; [exact Hl1|]. cbn. intros e ->. lia.
      * eapply Forall_impl; [exact Hl2|]. cbn [length]. intros e. cbn beta. lia.
Qed.


(** ** The links of a dependency chain *)




(** ** The parser of [generate-svg.js] on the texts that the plugin accepts *)



Lemma splitArrow_head (line : jsstring) : exists part rest, splitArrow line = part :: rest.
Proof.
  induction line as [|c s IH]; cbn [splitArrow]; [eauto|].
  destruct s as [|d s']; [eauto|].
  destruct (_ && _); [eauto|].
  destruct IH as (p & r & ->). eauto.
Qed.








(** ** Escaping *)

Lemma replaceAll_app (c : N) (r s t : jsstring) :
  replaceAll c r (s ++ t) = replaceAll c r s ++ replaceAll c r t.
Proof.
  induction s as [|u s IH]; cbn; [done|]. rewrite IH, app_assoc. done.
Qed.

Lemma replaceAll_absent (c : N) (r s : jsstring) :
  c ∉ s -> replaceAll c r s = s.
Proof.
  induction s as [|u s IH]; intros Hc; cbn; [done|].
  apply not_elem_of_cons in Hc as [Hu Hs].
  destruct (N.eqb_spec u c); [congruence|]. cbn. rewrite IH; done.
Qed.

Lemma replaceAll_other (c : N) (r s : jsstring) (u : N) :
  u <> c -> replaceAll c r (u :: s) = u :: replaceAll c r s.
Proof. intros Hu. cbn. destruct (N.eqb_spec u c); done. Qed.

Lemma escapeHtml_unit (u : N) : escapeHtml [u] = entity u.
Proof.
  unfold escapeHtml, entity.
  destruct (N.eqb_spec u 38) as [->|H38]; [vm_compute; reflexivity|].
  destruct (N.eqb_spec u 60) as [->|H60]; [vm_compute; reflexivity|].
  destruct (N.eqb_spec u 62) as [->|H62]; [vm_compute; reflexivity|].
  destruct (N.eqb_spec u 34) as [->|H34]; [vm_compute; reflexivity|].
  destruct (N.eqb_spec u 39) as [->|H39]; [vm_compute; reflexivity|].
  rewrite !replaceAll_other by done. done.
Qed.

(** The five passes amount to one pass that replaces each code unit by its
    entity: no pass rewrites what an earlier one has written. *)
Lemma escapeHtml_units (s : jsstring) : escapeHtml s = flat_map entity s.
Proof.
  induction s as [|u s IH]; [done|].
  cbn [flat_map]. rewrite <- IH, <- escapeHtml_unit.
  unfold escapeHtml. change (u :: s) with ([u] ++ s).
  rewrite !replaceAll_app. done.
Qed.

Lemma entity_markup (u : N) : Forall (fun v => isMarkup v = true -> v = 38%N) (entity u).
Proof.
  unfold entity.
  destruct (N.eqb_spec u 38) as [->|H38]; [vm_compute; repeat constructor; done|].
  destruct (N.eqb_spec u 60) as [->|H60].
  { repeat constructor; vm_compute; done. }
  destruct (N.eqb_spec u 62) as [->|H62].
  { repeat constructor; vm_compute; done. }
  destruct (N.eqb_spec u 34) as [->|H34].
  { repeat constructor; vm_compute; done. }
  destruct (N.eqb_spec u 39) as [->|H39].
  { repeat constructor; vm_compute; done. }
  repeat constructor. unfold isMarkup.
  rewrite (proj2 (N.eqb_neq u 38)), (proj2 (N.eqb_neq u 60)),
    (proj2 (N.eqb_neq u 62)), (proj2 (N.eqb_neq u 34)), (proj2 (N.eqb_neq u 39)) by done.
  done.
Qed.

Lemma isMarkup_false (u : N) :
  isMarkup u = false <-> u <> 38%N /\ u <> 60%N /\ u <> 62%N /\ u <> 34%N /\ u <> 39%N.
Proof.
  unfold isMarkup. rewrite !orb_false_iff, !N.eqb_neq. tauto.
Qed.

Lemma entity_plain (u : N) : isMarkup u = false -> entity u = [u].
Proof.
  intros (H38 & H60 & H62 & H34 & H39)%isMarkup_false. unfold entity.
  rewrite (proj2 (N.eqb_neq u 38)), (proj2 (N.eqb_neq u 60)),
    (proj2 (N.eqb_neq u 62)), (proj2 (N.eqb_neq u 34)), (proj2 (N.eqb_neq u 39)) by done.
  done.
Qed.

Lemma entity_escaped (u : N) :
  isMarkup u = true ->
  exists body, entity u = 38%N :: body /\ (u ∉ body) /\ (38%N ∉ body).
Proof.
  destruct (isMarkup u) eqn:Hm; [intros _|done]. revert Hm. unfold isMarkup, entity.
  destruct (N.eqb_spec u 38) as [->|H38].
  { eexists. split; [vm_compute; reflexivity|]. split; apply (bool_decide_unpack _); vm_compute; done. }
  destruct (N.eqb_spec u 60) as [->|H60].
  { eexists. split; [vm_compute; reflexivity|]. split; apply (bool_decide_unpack _); vm_compute; done. }
  destruct (N.eqb_spec u 62) as [->|H62].
  { eexists. split; [vm_compute; reflexivity|]. split; apply (bool_decide_unpack _); vm_compute; done. }
  destruct (N.eqb_spec u 34) as [->|H34].
  { eexists. split; [vm_compute; reflexivity|]. split; apply (bool_decide_unpack _); vm_compute; done. }
  destruct (N.eqb_spec u 39) as [->|H39].
  { eexists. split; [vm_compute; reflexivity|]. split; apply (bool_decide_unpack _); vm_compute; done. }
  done.
Qed.

(** Two code units whose entities start two equal texts are equal, and so
    are the texts that follow. *)
Lemma entity_cancel (u v : N) (a b : jsstring) :
  entity u ++ a = entity v ++ b -> u = v /\ a = b.
Proof.
  unfold entity.
  destruct (N.eqb_spec u 38) as [->|U38]; [|
  destruct (N.eqb_spec u 60) as [->|U60]; [|
  destruct (N.eqb_spec u 62) as [->|U62]; [|
  destruct (N.eqb_spec u 34) as [->|U34]; [|
  destruct (N.eqb_spec u 39) as [->|U39]]]]];
  (destruct (N.eqb_spec v 38) as [->|V38]; [|
   destruct (N.eqb_spec v 60) as [->|V60]; [|
   destruct (N.eqb_spec v 62) as [->|V62]; [|
   destruct (N.eqb_spec v 34) as [->|V34]; [|
   destruct (N.eqb_spec v 39) as [->|V39]]]]]);
  vm_compute; intros H; simplify_eq; done.
Qed.

Lemma escapeHtml_plain (s : jsstring) :
  Forall (fun u => isMarkup u = false) s -> escapeHtml s = s.
Proof.
  rewrite escapeHtml_units. induction 1 as [|u s Hu _ IH]; [done|].
  cbn [flat_map]. rewrite entity_plain, IH by done. done.
Qed.

Lemma entity_length (u : N) :
  (if isMarkup u then 1 < length (entity u) else length (entity u) = 1)%nat.
Proof.
  destruct (isMarkup u) eqn:Hm.
  - unfold entity. revert Hm. unfold isMarkup.
    destruct (N.eqb_spec u 38) as [->|H38]; [intros _; vm_compute; lia|].
    destruct (N.eqb_spec u 60) as [->|H60]; [intros _; vm_compute; lia|].
    destruct (N.eqb_spec u 62) as [->|H62]; [intros _; vm_compute; lia|].
    destruct (N.eqb_spec u 34) as [->|H34]; [intros _; vm_compute; lia|].
    destruct (N.eqb_spec u 39) as [->|H39]; [intros _; vm_compute; lia|].
    done.
  - rewrite entity_plain by done. done.
Qed.

Lemma escapeHtml_length (s : jsstring) :
  (length s <= length (escapeHtml s))%nat /\
  (length (escapeHtml s) = length s -> Forall (fun u => isMarkup u = false) s).
Proof.
  rewrite escapeHtml_units. induction s as [|u s [IHle IHeq]]; [split; [done|constructor]|].
  cbn [flat_map]. rewrite length_app. cbn [length].
  pose proof (entity_length u) as Hu. destruct (isMarkup u) eqn:Hm.
  - split; [lia|]. intros Heq. lia.
  - split; [lia|]. intros Heq. constructor; [done|]. apply IHeq. lia.
Qed.

Lemma escapeHtml_keeps_markup (s : jsstring) (u : N) :
  u ∈ s -> isMarkup u = true -> 38%N ∈ escapeHtml s.
Proof.
  rewrite escapeHtml_units. intros Hin Hm.
  induction s as [|v s IH]; [by apply elem_of_nil in Hin|].
  cbn [flat_map]. apply elem_of_app.
  apply elem_of_cons in Hin as [<-|Hin]; [|right; auto].
  left. destruct (entity_escaped u Hm) as (body & -> & _). left.
Qed.

(** X5. [escapeHtml] works one code unit at a time: the text of a
    concatenation is the concatenation of the texts, and a single unit
    becomes its entity when it is one of the five, itself otherwise.  The
    [&] that a later pass writes is never escaped again. *)
Theorem escapeHtml_one_pass (s t : jsstring) (u : N) :
  escapeHtml (s ++ t) = escapeHtml s ++ escapeHtml t /\
  escapeHtml [u] = entity u.
Proof.
  split; [|apply escapeHtml_unit].
  rewrite !escapeHtml_units. apply flat_map_app.
Qed.

Lemma escapeHtml_safe (s : jsstring) :
  Forall (fun u => u <> 60%N /\ u <> 62%N /\ u <> 34%N /\ u <> 39%N) (escapeHtml s).
Proof.
  rewrite escapeHtml_units. induction s as [|u s IH]; [constructor|].
  cbn [flat_map]. apply Forall_app. split; [|done].
  eapply Forall_impl; [apply entity_markup|].
  intros v Hv. cbn beta in Hv.
  repeat split; intros ->; specialize (Hv eq_refl); done.
Qed.

Lemma entity_listed (u : N) : isMarkup u = true -> entity u ∈ entities.
Proof.
  destruct (isMarkup u) eqn:Hm; [intros _|done]. revert Hm. unfold isMarkup, entity.
  destruct (N.eqb_spec u 38) as [->|H38]; [intros _; apply (bool_decide_unpack _); vm_compute; exact I|].
  destruct (N.eqb_spec u 60) as [->|H60]; [intros _; apply (bool_decide_unpack _); vm_compute; exact I|].
  destruct (N.eqb_spec u 62) as [->|H62]; [intros _; apply (bool_decide_unpack _); vm_compute; exact I|].
  destruct (N.eqb_spec u 34) as [->|H34]; [intros _; apply (bool_decide_unpack _); vm_compute; exact I|].
  destruct (N.eqb_spec u 39) as [->|H39]; [intros _; apply (bool_decide_unpack _); vm_compute; exact I|].
  done.
Qed.

(** X6. The text that [escapeHtml] returns is character data: it holds no
    [<], no [>] and no quote of either kind, and every [&] in it starts
    one of the five entity references, whatever the text that it is
    given. *)
Theorem escapeHtml_no_markup (s : jsstring) :
  Forall (fun u => u <> 60%N /\ u <> 62%N /\ u <> 34%N /\ u <> 39%N) (escapeHtml s) /\
  forall k, escapeHtml s !! k = Some 38%N ->
    exists e, e ∈ entities /\ startsWith e (drop k (escapeHtml s)) = true.
Proof.
  split; [apply escapeHtml_safe|].
  rewrite escapeHtml_units. induction s as [|u s IH]; intros k Hk; [done|].
  cbn [flat_map] in *.
  destruct (decide (k < length (entity u))%nat) as [Hlt|Hge].
  - rewrite lookup_app_l in Hk by done.
    destruct (isMarkup u) eqn:Hm.
    + destruct (entity_escaped u Hm) as (body & E & _ & Hbody).
      destruct k as [|k].
      * exists (entity u). split; [apply entity_listed; done|]. apply startsWith_app.
      * rewrite E in Hk. cbn in Hk. exfalso. apply Hbody.
        eapply list_elem_of_lookup_2. exact Hk.
    + rewrite entity_plain in Hk by done. destruct k as [|k]; [|done].
      cbn in Hk. injection Hk as ->. done.
  - rewrite lookup_app_r in Hk by lia.
    destruct (IH _ Hk) as (e & He & Hs). exists e. split; [done|].
    rewrite drop_app_ge by lia. done.
Qed.

(** X7. [escapeHtml] loses nothing: two texts with the same escaped text
    are the same text. *)
Theorem escapeHtml_injective (s t : jsstring) :
  escapeHtml s = escapeHtml t -> s = t.
Proof.
  rewrite !escapeHtml_units. revert t.
  induction s as [|u s IH]; intros [|v t] H; cbn [flat_map] in H.
  - done.
  - destruct (isMarkup v) eqn:Hm.
    + destruct (entity_escaped v Hm) as (body & E & _). rewrite E in H. done.
    + rewrite entity_plain in H by done. done.
  - destruct (isMarkup u) eqn:Hm.
    + destruct (entity_escaped u Hm) as (body & E & _). rewrite E in H. done.
    + rewrite entity_plain in H by done. done.
  - apply entity_cancel in H as [-> H]. f_equal. auto.
Qed.

Lemma escapeHtml_injective_witness :
  escapeHtml (js "a<b") = escapeHtml (js "a" ++ js "<b") /\ js "a<b" = js "a" ++ js "<b".
Proof.
  split; [vm_compute; reflexivity|].
  apply (escapeHtml_injective (js "a<b") (js "a" ++ js "<b")). vm_compute. reflexivity.
Defined.

(** X8. [escapeHtml] returns its argument unchanged exactly when the
    argument holds none of the five characters, and only then does escaping
    a text twice give the same as escaping it once. *)
Theorem escapeHtml_twice (s : jsstring) :
  (escapeHtml s = s <-> Forall (fun u => isMarkup u = false) s) /\
  (escapeHtml (escapeHtml s) = escapeHtml s <-> escapeHtml s = s).
Proof.
  assert (forall r, escapeHtml r = r <-> Forall (fun u => isMarkup u = false) r) as Hfix.
  { intros r. split; [|apply escapeHtml_plain].
    intros E. apply escapeHtml_length. congruence. }
  split; [apply Hfix|]. split.
  - intros E%Hfix. apply Hfix. apply Forall_forall. intros u Hu.
    destruct (isMarkup u) eqn:Hm; [|done].
    pose proof (escapeHtml_keeps_markup s u Hu Hm) as H38.
    rewrite Forall_forall in E. specialize (E _ H38). done.
  - intros E. rewrite !E. done.
Qed.

(** ** The code blocks of a note *)

(** A text that starts both [t ++ p] and [p], for a [t] shorter than [p]:
    the end of [p] is also its beginning. *)
Lemma startsWith_overlap (p t r : jsstring) :
  startsWith p (t ++ p ++ r) = true ->
  (exists k, t = p ++ k) \/
  ((length t < length p)%nat /\ drop (length t) p = take (length p - length t) p).
Proof.
  intros [r' H]%startsWith_spec.
  apply app_eq_app in H as [l [[-> H]|[-> H]]].
  - left. eauto.
  - destruct (decide (l = [])) as [->|Hl].
    { left. exists []. by rewrite !app_nil_r. }
    right. rewrite length_app.
    assert (0 < length l)%nat by (destruct l; [done|cbn; lia]).
    split; [lia|].
    rewrite drop_app_length.
    replace (length t + length l - length t)%nat with (length l) by lia.
    apply (f_equal (take (length l))) in H.
    rewrite take_app_length in H.
    rewrite take_app_le in H by (rewrite length_app; lia). done.
Qed.

Lemma occursIn_startsWith (p s : jsstring) :
  occursIn p s <-> exists k, startsWith p (drop k s) = true.
Proof.
  split.
  - intros (a & b & ->). exists (length a).
    rewrite drop_app_length. apply startsWith_app.
  - intros (k & [r Hr]%startsWith_spec). exists (take k s), r.
    rewrite <- Hr, take_drop. done.
Qed.

Lemma fenceOpen_no_overlap (j : nat) :
  (0 < j < length fenceOpen)%nat ->
  drop j fenceOpen <> take (length fenceOpen - j) fenceOpen.
Proof.
  intros [H0 H1]. change (length fenceOpen) with 11%nat in *.
  do 11 (destruct j as [|j]; [first [lia | vm_compute; discriminate]|]). lia.
Qed.

Lemma fenceClose_no_overlap (j : nat) :
  (0 < j < length fenceClose)%nat ->
  drop j fenceClose <> take (length fenceClose - j) fenceClose.
Proof.
  intros [H0 H1]. change (length fenceClose) with 4%nat in *.
  do 4 (destruct j as [|j]; [first [lia | vm_compute; discriminate]|]). lia.
Qed.

(** A fence that occurs neither in [t] nor across the end of [t] does not
    start before the end of [t]. *)
Lemma startsWith_before (p t r : jsstring) (k : nat) :
  (forall j, (0 < j < length p)%nat -> drop j p <> take (length p - j) p) ->
  ~ occursIn p t -> (k < length t)%nat ->
  startsWith p (drop k (t ++ p ++ r)) = false.
Proof.
  intros Hborder Hocc Hk.
  destruct (startsWith p (drop k (t ++ p ++ r))) eqn:E; [|done].
  exfalso. rewrite drop_app_le in E by lia.
  apply startsWith_overlap in E as [[l Hl]|[Hlen Hb]].
  - apply Hocc. exists (take k t), l. rewrite <- Hl, take_drop. done.
  - apply (Hborder (length (drop k t))); [|done].
    rewrite length_drop in *. lia.
Qed.

Lemma lazyBody_eq (s : jsstring) :
  lazyBody s =
  if startsWith fenceClose s then Some ([], drop (length fenceClose) s)
  else match s with
       | [] => None
       | u :: rest => (fun r => (u :: r.1, r.2)) <$> lazyBody rest
       end.
Proof. destruct s; reflexivity. Qed.

Lemma lazyBody_Some (s b r : jsstring) :
  lazyBody s = Some (b, r) <->
  s = b ++ fenceClose ++ r /\
  forall k, (k < length b)%nat -> startsWith fenceClose (drop k s) = false.
Proof.
  revert b r. induction s as [|u s IH]; intros b r; rewrite lazyBody_eq.
  - change (startsWith fenceClose []) with false. cbv iota. split; [done|].
    intros [H _]. destruct b; done.
  - destruct (startsWith fenceClose (u :: s)) eqn:E.
    + apply startsWith_spec in E as [r' E]. split.
      * intros [= <- Hr]. split; [|cbn; lia].
        assert (drop (length fenceClose) (u :: s) = r') as Hd.
        { rewrite E. apply drop_app_length. }
        change (drop (length fenceClose) (u :: s)) with (drop 3 s) in Hd.
        rewrite E. cbn [app]. congruence.
      * intros [H Hk]. destruct b as [|v b].
        -- cbn [app] in H. rewrite H, drop_app_length. done.
        -- specialize (Hk 0%nat ltac:(cbn; lia)). cbn [drop] in Hk.
           rewrite E, startsWith_app in Hk. done.
    + assert (forall v b0, u :: s = (v :: b0) ++ fenceClose ++ r ->
                (forall k, (k < length (v :: b0))%nat ->
                           startsWith fenceClose (drop k (u :: s)) = false) ->
                v = u /\ lazyBody s = Some (b0, r)) as Hrec.
      { intros v b0 H Hk. cbn [app] in H. injection H as -> ->. split; [done|].
        apply IH. split; [done|]. intros k Hlt. apply (Hk (S k)). cbn. lia. }
      destruct (lazyBody s) as [[b' r']|] eqn:El in |- *;
        cbn [fmap option_fmap option_map].
      * split.
        -- intros [= <- <-]. apply IH in El as [-> Hk]. split; [done|].
           intros [|k] Hlt; [done|]. cbn [drop]. apply Hk. cbn in Hlt. lia.
        -- intros [H Hk]. destruct b as [|v b].
           { cbn [app] in H. rewrite H, startsWith_app in E. done. }
           destruct (Hrec _ _ H Hk) as [-> E2]. cbn [fst snd]. congruence.
      * split; [done|]. intros [H Hk]. destruct b as [|v b].
        { cbn [app] in H. rewrite H, startsWith_app in E. done. }
        destruct (Hrec _ _ H Hk) as [-> E2]. congruence.
Qed.

Lemma lazyBody_None (s : jsstring) :
  lazyBody s = None <-> ~ occursIn fenceClose s.
Proof.
  rewrite occursIn_startsWith. induction s as [|u s IH]; rewrite lazyBody_eq.
  - change (startsWith fenceClose []) with false. cbv iota. split; [|done].
    intros _ [k Hk]. rewrite drop_nil in Hk. done.
  - destruct (startsWith fenceClose (u :: s)) eqn:E.
    + split; [done|]. intros H. exfalso. apply H. exists 0%nat. done.
    + destruct (lazyBody s) as [r|] eqn:El in |- *; cbn [fmap option_fmap option_map].
      * split; [done|]. intros H. exfalso.
        assert (lazyBody s <> None) as Hs by congruence.
        apply Hs, IH. intros [k Hk]. apply H. exists (S k). done.
      * split; [|done]. intros _ [[|k] Hk]; [cbn [drop] in Hk; congruence|].
        cbn [drop] in Hk. apply (proj1 IH El). eauto.
Qed.

Lemma lazyBody_is_Some (b r : jsstring) :
  is_Some (lazyBody (b ++ fenceClose ++ r)).
Proof.
  destruct (lazyBody (b ++ fenceClose ++ r)) eqn:E; [eauto|].
  apply lazyBody_None in E. exfalso. apply E. exists b, r. done.
Qed.

Lemma matchBlock_Some (s b r : jsstring) :
  matchBlock s = Some (b, r) <->
  s = fenceOpen ++ b ++ fenceClose ++ r /\
  forall k, (k < length b)%nat ->
    startsWith fenceClose (drop k (b ++ fenceClose ++ r)) = false.
Proof.
  unfold matchBlock. destruct (startsWith fenceOpen s) eqn:E.
  - apply startsWith_spec in E as [s' ->]. rewrite drop_app_length, lazyBody_Some.
    split.
    + intros [-> Hk]. done.
    + intros [H Hk]. apply app_inv_head in H. subst s'. done.
  - split; [done|]. intros [-> _]. rewrite startsWith_app in E. done.
Qed.

Lemma matchBlock_None (s : jsstring) :
  matchBlock s = None <->
  ~ exists code post, s = fenceOpen ++ code ++ fenceClose ++ post.
Proof.
  unfold matchBlock. destruct (startsWith fenceOpen s) eqn:E.
  - apply startsWith_spec in E as [s' ->]. rewrite drop_app_length, lazyBody_None.
    split.
    + intros H (code & post & E). apply app_inv_head in E. apply H. subst s'.
      exists code, post. done.
    + intros H (code & post & ->). apply H. eauto.
  - split; [|done]. intros _ (code & post & ->). rewrite startsWith_app in E. done.
Qed.

Lemma execBlock_eq (s : jsstring) :
  execBlock s =
  match matchBlock s with
  | Some r => Some r
  | None => match s with
            | [] => None
            | _ :: rest => execBlock rest
            end
  end.
Proof. destruct s; reflexivity. Qed.

Lemma execBlock_Some (s b r : jsstring) :
  execBlock s = Some (b, r) <->
  exists pre,
    s = pre ++ fenceOpen ++ b ++ fenceClose ++ r /\
    (forall k, (k < length pre)%nat -> matchBlock (drop k s) = None) /\
    (forall k, (k < length b)%nat ->
       startsWith fenceClose (drop k (b ++ fenceClose ++ r)) = false).
Proof.
  induction s as [|u s IH]; rewrite execBlock_eq.
  - change (matchBlock []) with (@None (jsstring * jsstring)). cbv iota. split; [done|].
    intros (pre & H & _). destruct pre; done.
  - destruct (matchBlock (u :: s)) as [[b' r']|] eqn:E.
    + split.
      * intros [= -> ->]. apply matchBlock_Some in E as [E Hk].
        exists []. split; [done|]. split; [cbn; lia|done].
      * intros (pre & H & Hpre & Hk). destruct pre as [|v pre].
        -- cbn [app] in H. rewrite H in E.
           assert (matchBlock (fenceOpen ++ b ++ fenceClose ++ r) = Some (b, r)) as E2.
           { apply matchBlock_Some. done. }
           congruence.
        -- specialize (Hpre 0%nat ltac:(cbn; lia)). cbn [drop] in Hpre. congruence.
    + rewrite IH. split.
      * intros (pre & -> & Hpre & Hk). exists (u :: pre). split; [done|]. split; [|done].
        intros [|k] Hlt; [done|]. cbn [drop app]. apply Hpre. cbn in Hlt. lia.
      * intros (pre & H & Hpre & Hk). destruct pre as [|v pre].
        -- cbn [app] in H. rewrite H in E.
           assert (matchBlock (fenceOpen ++ b ++ fenceClose ++ r) = Some (b, r)) as E2.
           { apply matchBlock_Some. done. }
           congruence.
        -- cbn [app] in H. injection H as -> ->. exists pre. split; [done|].
           split; [|done]. intros k Hlt. apply (Hpre (S k)). cbn. lia.
Qed.

Lemma execBlock_None (s : jsstring) :
  execBlock s = None <->
  ~ exists pre code post, s = pre ++ fenceOpen ++ code ++ fenceClose ++ post.
Proof.
  induction s as [|u s IH]; rewrite execBlock_eq.
  - change (matchBlock []) with (@None (jsstring * jsstring)). cbv iota. split; [|done].
    intros _ (pre & code & post & H). destruct pre; done.
  - destruct (matchBlock (u :: s)) as [[b' r']|] eqn:E.
    + split; [done|]. intros H. exfalso. apply H.
      apply matchBlock_Some in E as [E _]. exists [], b', r'. done.
    + rewrite IH. apply not_iff_compat. split.
      * intros (pre & code & post & ->). exists (u :: pre), code, post. done.
      * intros (pre & code & post & H). destruct pre as [|v pre].
        -- exfalso. apply (proj1 (matchBlock_None _) E). exists code, post. done.
        -- cbn [app] in H. injection H as -> ->. eauto.
Qed.

Lemma execBlock_shorter (s b r : jsstring) :
  execBlock s = Some (b, r) -> (length r < length s)%nat.
Proof.
  intros (pre & -> & _)%execBlock_Some. rewrite !length_app.
  change (length fenceOpen) with 11%nat. lia.
Qed.

Lemma execAll_enough (fuel : nat) :
  forall s, (length s < fuel)%nat -> is_Some (execAll fuel s).
Proof.
  induction fuel as [|fuel IH]; intros s Hlen; [lia|]. cbn [execAll].
  destruct (execBlock s) as [[b r]|] eqn:E; [|eauto].
  apply execBlock_shorter in E.
  destruct (IH r) as [l ->]; [lia|]. cbn. eauto.
Qed.

Lemma execAll_more (fuel fuel' : nat) :
  forall s l, (fuel <= fuel')%nat -> execAll fuel s = Some l -> execAll fuel' s = Some l.
Proof.
  revert fuel'. induction fuel as [|fuel IH]; intros fuel' s l Hle; [done|].
  destruct fuel' as [|fuel']; [lia|]. cbn [execAll].
  destruct (execBlock s) as [[b r]|]; [|done].
  destruct (execAll fuel r) as [l'|] eqn:E; [|done].
  rewrite (IH fuel' r l'); [done|lia|done].
Qed.

Lemma extractWardleyCode_unfold (s : jsstring) :
  extractWardleyCode s =
  match execBlock s with
  | Some (b, r) => (fun l => b :: l) <$> extractWardleyCode r
  | None => Some []
  end.
Proof.
  unfold extractWardleyCode.
  destruct (execBlock s) as [[b r]|] eqn:E; [|cbn [execAll]; rewrite E; done].
  pose proof (execBlock_shorter _ _ _ E) as Hlt.
  destruct (execAll_enough (S (length r)) r) as [l Hl]; [lia|].
  rewrite Hl. cbn [execAll]. rewrite E.
  rewrite (execAll_more (S (length r)) (length s) r l); [done|lia|done].
Qed.

Lemma includes_spec (p s : jsstring) : includes p s = true <-> occursIn p s.
Proof.
  rewrite occursIn_startsWith. induction s as [|u s IH]; cbn [includes].
  - rewrite orb_false_r. split; [exists 0%nat; done|].
    intros [k Hk]. rewrite drop_nil in Hk. done.
  - rewrite orb_true_iff, IH. split.
    + intros [H|[k Hk]]; [exists 0%nat; done|exists (S k); done].
    + intros [[|k] Hk]; [left; done|right; eauto].
Qed.

Lemma includes_false (p s : jsstring) : includes p s = false -> ~ occursIn p s.
Proof. intros H Ho%includes_spec. congruence. Qed.

(** X9. A note that holds a block of code, between the two fences, gives
    that code as its first block: when the opening fence does not occur
    before the block and the closing fence does not occur in the code,
    [extractWardleyCode] returns the code, followed by the blocks of the
    rest of the note. *)
Theorem extractWardleyCode_first_block (pre code post : jsstring) :
  ~ occursIn fenceOpen pre -> ~ occursIn fenceClose code ->
  exists blocks,
    extractWardleyCode post = Some blocks /\
    extractWardleyCode (pre ++ fenceOpen ++ code ++ fenceClose ++ post) =
      Some (code :: blocks).
Proof.
  intros Hpre Hcode.
  destruct (execAll_enough (S (length post)) post) as [blocks Hb]; [lia|].
  exists blocks. split; [done|].
  rewrite extractWardleyCode_unfold.
  assert (execBlock (pre ++ fenceOpen ++ code ++ fenceClose ++ post) = Some (code, post)) as ->.
  { apply execBlock_Some. exists pre. split; [done|]. split.
    - intros k Hk. unfold matchBlock.
      rewrite (startsWith_before fenceOpen pre); [done| |done|done].
      apply fenceOpen_no_overlap.
    - intros k Hk. apply startsWith_before; [|done|done].
      apply fenceClose_no_overlap. }
  fold (extractWardleyCode post) in Hb. rewrite Hb. done.
Qed.

Lemma extractWardleyCode_first_block_witness :
  exists blocks,
    extractWardleyCode nl = Some blocks /\
    extractWardleyCode
      ((js "# Note" ++ nl) ++ fenceOpen ++ js "component A [genesis]" ++ fenceClose ++ nl) =
      Some (js "component A [genesis]" :: blocks).
Proof.
  apply (extractWardleyCode_first_block (js "# Note" ++ nl) (js "component A [genesis]") nl);
    apply includes_false; vm_compute; reflexivity.
Defined.

(** X10. [extractWardleyCode] returns, for every note: each block that it
    returns stands in the note between an opening and a closing fence, and
    holds no closing fence itself. *)
Theorem extractWardleyCode_blocks (markdown : jsstring) :
  exists blocks,
    extractWardleyCode markdown = Some blocks /\
    Forall (fun b => occursIn (fenceOpen ++ b ++ fenceClose) markdown /\
                     ~ occursIn fenceClose b) blocks.
Proof.
  remember (length markdown) as n eqn:Hn. revert markdown Hn.
  induction (lt_wf n) as [n _ IH]. intros markdown ->.
  rewrite extractWardleyCode_unfold.
  destruct (execBlock markdown) as [[b r]|] eqn:E; [|exists []; split; [done|constructor]].
  pose proof (execBlock_shorter _ _ _ E) as Hlt.
  destruct (IH _ Hlt r eq_refl) as (blocks & -> & Hall).
  apply execBlock_Some in E as (pre & -> & _ & Hk).
  exists (b :: blocks). split; [done|]. constructor.
  - split.
    + exists pre, r. rewrite <- !app_assoc. done.
    + intros (a & c & ->). specialize (Hk (length a)).
      rewrite length_app in Hk. change (length (fenceClose ++ c)) with (4 + length c)%nat in Hk.
      rewrite <- app_assoc, drop_app_length, <- !app_assoc, startsWith_app in Hk.
      specialize (Hk ltac:(lia)). done.
  - eapply Forall_impl; [exact Hall|]. intros b' [(a & c & ->) Hb']. split; [|done].
    exists (pre ++ fenceOpen ++ b ++ fenceClose ++ a), c. rewrite <- !app_assoc. done.
Qed.

(** X11. [extractWardleyCode] finds no block exactly in the notes where no
    opening fence is followed, later on, by a closing fence. *)
Theorem extractWardleyCode_none (markdown : jsstring) :
  extractWardleyCode markdown = Some [] <->
  ~ exists pre code post, markdown = pre ++ fenceOpen ++ code ++ fenceClose ++ post.
Proof.
  rewrite <- execBlock_None, extractWardleyCode_unfold.
  destruct (execBlock markdown) as [[b r]|]; [|done].
  destruct (extractWardleyCode r); done.
Qed.

(** ** The overlap resolution, group by group *)

Lemma spreadMembers_lookup (baseX r : number) (len : nat) :
  forall members index comps,
    NoDup members ->
    (forall i, i ∉ members ->
       spreadMembers baseX r len index members comps !! i = comps !! i) /\
    (forall p i, members !! p = Some i ->
       spreadMembers baseX r len index members comps !! i =
         (fun c => setX c (Some (nadd baseX (spreadOffset r len (index + p)))))
           <$> comps !! i).
Proof.
  induction members as [|i0 rest IH]; intros index comps Hnd; cbn [spreadMembers].
  { split; [done|]. intros p i Hp. done. }
  apply NoDup_cons in Hnd as [Hi0 Hnd].
  set (comps' := match comps !! i0 with
                 | Some comp => <[i0 := setX comp (Some (nadd baseX (spreadOffset r len index)))]> comps
                 | None => comps
                 end).
  assert (forall i, i <> i0 -> comps' !! i = comps !! i) as Hother.
  { intros i Hne. unfold comps'. destruct (comps !! i0); [|done].
    rewrite list_lookup_insert_ne by done. done. }
  assert (comps' !! i0 =
          (fun c => setX c (Some (nadd baseX (spreadOffset r len index)))) <$> comps !! i0)
    as Hself.
  { unfold comps'. destruct (comps !! i0) as [c|] eqn:E; [|rewrite E; done].
    rewrite list_lookup_insert_eq by (eapply lookup_lt_Some; eauto). done. }
  destruct (IH (S index) comps' Hnd) as [IH1 IH2]. split.
  - intros i Hi. apply not_elem_of_cons in Hi as [Hne Hi].
    rewrite IH1 by done. apply Hother. done.
  - intros [|p] i Hp; cbn in Hp.
    + injection Hp as <-. rewrite IH1 by done. rewrite Hself, Nat.add_0_r. done.
    + rewrite (IH2 p i Hp). rewrite Hother.
      * replace (S index + p)%nat with (index + S p)%nat by lia. done.
      * intros ->. apply Hi0. eapply list_elem_of_lookup_2. eauto.
Qed.

Lemma spreadGroup_lookup (range : nat -> number) (comps : list Component)
    (g : list nat) :
  NoDup g ->
  (forall i, i ∉ g -> spreadGroup range comps g !! i = comps !! i) /\
  (forall p i, g !! p = Some i ->
     spreadGroup range comps g !! i = placeIn range comps g p <$> comps !! i).
Proof.
  intros Hnd. unfold spreadGroup, placeIn. case_bool_decide as Hlen.
  - destruct (spreadMembers_lookup
                (toNumber (head g ≫= fun h => comps !! h ≫= x))
                (range (length g)) (length g) g 0 comps Hnd) as [H1 H2].
    split; [done|]. intros p i Hp. rewrite (H2 p i Hp). done.
  - split; [done|]. intros p i Hp. destruct (comps !! i); done.
Qed.

Lemma placeIn_ext (range : nat -> number) (comps comps' : list Component)
    (g : list nat) (p : nat) (c : Component) :
  (forall h, h ∈ g -> comps' !! h = comps !! h) ->
  placeIn range comps' g p c = placeIn range comps g p c.
Proof.
  intros H. unfold placeIn. destruct g as [|h g]; [done|].
  cbn [head mbind option_bind]. rewrite H by left. done.
Qed.

Lemma spreadGroups_lookup (range : nat -> number) :
  forall gs comps,
    NoDup (concat gs) ->
    (forall i, i ∉ concat gs -> foldl (spreadGroup range) comps gs !! i = comps !! i) /\
    (forall g p i, g ∈ gs -> g !! p = Some i ->
       foldl (spreadGroup range) comps gs !! i = placeIn range comps g p <$> comps !! i).
Proof.
  induction gs as [|g0 rest IH]; intros comps Hnd; cbn [foldl concat] in *.
  { split; [done|]. intros g p i Hg. by apply elem_of_nil in Hg. }
  apply NoDup_app in Hnd as (Hg0 & Hdisj & Hrest).
  destruct (spreadGroup_lookup range comps g0 Hg0) as [S1 S2].
  destruct (IH (spreadGroup range comps g0) Hrest) as [IH1 IH2]. split.
  - intros i Hi. apply not_elem_of_app in Hi as [Hi0 Hir].
    rewrite IH1 by done. apply S1. done.
  - intros g p i Hg Hp. apply elem_of_cons in Hg as [->|Hg].
    + rewrite IH1.
      * apply S2. done.
      * apply Hdisj. eapply list_elem_of_lookup_2. eauto.
    + assert (forall h, h ∈ g -> h ∉ g0) as Hout.
      { intros h Hh Hh0. apply (Hdisj h Hh0).
        apply list_elem_of_In, in_concat. exists g. split; apply list_elem_of_In; done. }
      rewrite (IH2 g p i Hg Hp). rewrite S1.
      * destruct (comps !! i); [|done]. cbn. f_equal. apply placeIn_ext.
        intros h Hh. apply S1, Hout, Hh.
      * apply Hout. eapply list_elem_of_lookup_2. eauto.
Qed.

(** *** The groups *)

Lemma addToGroup_keys (key : jsstring) (i : nat) (G : list (jsstring * list nat)) :
  map fst (addToGroup key i G) =
  if decide (key ∈ map fst G) then map fst G else map fst G ++ [key].
Proof.
  induction G as [|[k g] G IH]; cbn [addToGroup map fst].
  - rewrite decide_False; [done|]. apply not_elem_of_nil.
  - destruct (decide (k = key)) as [->|Hne].
    + rewrite decide_True by left. done.
    + cbn [map fst]. rewrite IH. destruct (decide (key ∈ map fst G)) as [Hin|Hout].
      * rewrite decide_True by (right; done). done.
      * rewrite decide_False; [done|]. intros [->|H]%elem_of_cons; done.
Qed.

Lemma addToGroup_elem (key : jsstring) (i : nat) (G : list (jsstring * list nat))
    (k : jsstring) (g : list nat) :
  (k, g) ∈ addToGroup key i G ->
  (k, g) ∈ G \/ (k = key /\ exists g0, g = g0 ++ [i] /\ (g0 = [] \/ (key, g0) ∈ G)).
Proof.
  induction G as [|[k0 g0] G IH]; cbn [addToGroup].
  - intros [= -> ->]%list_elem_of_singleton. right. split; [done|]. exists []. eauto.
  - destruct (decide (k0 = key)) as [->|Hne].
    + intros [[= -> ->]|H]%elem_of_cons.
      * right. split; [done|]. exists g0. split; [done|]. right. left.
      * left. right. done.
    + intros [[= -> ->]|H]%elem_of_cons; [left; left|].
      destruct (IH H) as [H'|(-> & g1 & -> & [->|H'])].
      * left. right. done.
      * right. split; [done|]. exists []. eauto.
      * right. split; [done|]. exists g1. split; [done|]. right. right. done.
Qed.

Lemma addToGroup_kept (key : jsstring) (i : nat) (G : list (jsstring * list nat))
    (k : jsstring) (g : list nat) (j : nat) :
  (k, g) ∈ G -> j ∈ g -> exists g', (k, g') ∈ addToGroup key i G /\ j ∈ g'.
Proof.
  induction G as [|[k0 g0] G IH]; cbn [addToGroup]; [intros H; by apply elem_of_nil in H|].
  intros [[= -> ->]|H]%elem_of_cons Hj.
  - destruct (decide (k0 = key)) as [->|Hne].
    + exists (g0 ++ [i]). split; [left|]. apply elem_of_app. left. done.
    + exists g0. split; [left|done].
  - destruct (decide (k0 = key)) as [->|Hne].
    + exists g. split; [right; done|done].
    + destruct (IH H Hj) as (g' & H' & Hj'). exists g'. split; [right; done|done].
Qed.

Lemma addToGroup_added (key : jsstring) (i : nat) (G : list (jsstring * list nat)) :
  exists g, (key, g) ∈ addToGroup key i G /\ i ∈ g.
Proof.
  induction G as [|[k0 g0] G IH]; cbn [addToGroup].
  - exists [i]. split; left.
  - destruct (decide (k0 = key)) as [->|Hne].
    + exists (g0 ++ [i]). split; [left|]. apply elem_of_app. right. left.
    + destruct IH as (g & Hg & Hi). exists g. split; [right; done|done].
Qed.

Lemma addToGroup_members (key : jsstring) (i : nat) (G : list (jsstring * list nat)) :
  concat (map snd (addToGroup key i G)) ≡ₚ i :: concat (map snd G).
Proof.
  induction G as [|[k0 g0] G IH]; cbn [addToGroup map snd concat]; [done|].
  destruct (decide (k0 = key)) as [->|Hne]; cbn [map snd concat].
  - rewrite <- app_assoc. cbn [app].
    rewrite <- Permutation_middle. done.
  - rewrite IH. rewrite <- Permutation_middle. done.
Qed.

Lemma grouped_step (comps : list Component) (n : nat) (c : Component)
    (G : list (jsstring * list nat)) :
  comps !! n = Some c -> grouped comps n G ->
  grouped comps (S n) (addToGroup (groupKey c) n G).
Proof.
  intros Hc [Hkeys Hmem Hall Honce Hord]. split.
  - rewrite addToGroup_keys. case_decide; [done|].
    apply NoDup_app. split; [done|]. split; [|apply NoDup_singleton].
    intros k Hk ->%list_elem_of_singleton. done.
  - intros k g i Hg Hi. apply addToGroup_elem in Hg as [Hg|(-> & g0 & -> & Hg0)].
    + destruct (Hmem k g i Hg Hi) as [Hlt Hkey]. split; [lia|done].
    + apply elem_of_app in Hi as [Hi|Hi]; [|apply list_elem_of_singleton in Hi as ->].
      * destruct Hg0 as [->|Hg0]; [by apply elem_of_nil in Hi|].
        destruct (Hmem _ _ i Hg0 Hi) as [Hlt Hkey]. split; [lia|done].
      * split; [lia|]. rewrite Hc. done.
  - intros i c' Hlt Hc'. destruct (decide (i = n)) as [->|Hne].
    + assert (c' = c) as -> by congruence. apply addToGroup_added.
    + destruct (Hall i c' ltac:(lia) Hc') as (g & Hg & Hi).
      eapply addToGroup_kept; eauto.
  - rewrite addToGroup_members. apply NoDup_cons. split; [|done].
    intros Hin. apply list_elem_of_In, in_concat in Hin as (g & Hg & Hi).
    apply in_map_iff in Hg as ([k g'] & <- & Hg).
    apply list_elem_of_In in Hg, Hi. destruct (Hmem k g' n Hg Hi) as [Hlt _]. lia.
  - intros k g p p' i i' Hg Hlt Hp Hp'.
    apply addToGroup_elem in Hg as [Hg|(-> & g0 & -> & Hg0)]; [eapply Hord; eauto|].
    assert (forall q j, g0 !! q = Some j -> (j < n)%nat) as Hold.
    { intros q j Hq. destruct Hg0 as [->|Hg0]; [done|].
      eapply Hmem; [exact Hg0|]. eapply list_elem_of_lookup_2. eauto. }
    apply lookup_app_Some in Hp as [Hp|[Hlen Hp]];
      apply lookup_app_Some in Hp' as [Hp'|[Hlen' Hp']].
    + destruct Hg0 as [->|Hg0]; [done|]. eapply Hord; eauto.
    + apply list_lookup_singleton_Some in Hp' as [_ <-]. eapply Hold. eauto.
    + apply lookup_lt_Some in Hp'. lia.
    + apply list_lookup_singleton_Some in Hp as [Hp _].
      apply list_lookup_singleton_Some in Hp' as [Hp' _]. lia.
Qed.

Lemma grouped_groupFrom (comps : list Component) :
  forall rest n G,
    drop n comps = rest -> grouped comps n G ->
    grouped comps (length comps) (groupFrom n rest G).
Proof.
  induction rest as [|c rest IH]; intros n G Hdrop HG; cbn [groupFrom].
  - assert (length comps <= n)%nat as Hle.
    { apply (f_equal length) in Hdrop. rewrite length_drop in Hdrop. cbn in Hdrop. lia. }
    destruct HG as [Hkeys Hmem Hall Honce Hord]. split; [done| | |done|done].
    + intros k g i Hg Hi. destruct (Hmem k g i Hg Hi) as [_ Hkey]. split; [|done].
      destruct (comps !! i) eqn:E; [|done]. eapply lookup_lt_Some. eauto.
    + intros i c Hlt Hc. apply Hall; [lia|done].
  - assert (comps !! n = Some c) as Hc.
    { rewrite <- (Nat.add_0_r n), <- lookup_drop, Hdrop. done. }
    apply IH.
    + replace (S n) with (n + 1)%nat by lia.
      rewrite <- drop_drop, Hdrop. done.
    + apply grouped_step; done.
Qed.

Lemma grouped_start (comps : list Component) : grouped comps 0 [].
Proof.
  split; cbn.
  - constructor.
  - intros k g i Hg. by apply elem_of_nil in Hg.
  - intros i c Hi. lia.
  - constructor.
  - intros k g p p' i i' Hg. by apply elem_of_nil in Hg.
Qed.

(** Every component stands once in the group of its key, and the overlap
    resolution places it as a member of that group. *)
Lemma spreadWith_lookup (range : nat -> number) (comps : list Component)
    (i : nat) (c : Component) :
  comps !! i = Some c ->
  exists g p,
    (groupKey c, g) ∈ groupFrom 0 comps [] /\ g !! p = Some i /\
    spreadWith range comps !! i = Some (placeIn range comps g p c).
Proof.
  intros Hc.
  pose proof (grouped_groupFrom comps comps 0 [] eq_refl (grouped_start comps))
    as [Hkeys Hmem Hall Honce Hord].
  destruct (Hall i c) as (g & Hg & Hi); [eapply lookup_lt_Some; eauto|done|].
  apply list_elem_of_lookup_1 in Hi as [p Hp].
  exists g, p. split; [done|]. split; [done|].
  unfold spreadWith.
  destruct (spreadGroups_lookup range (map snd (groupFrom 0 comps [])) comps Honce)
    as [_ H2].
  rewrite (H2 g p i); [rewrite Hc; done| |done].
  apply list_elem_of_fmap. exists (groupKey c, g). done.
Qed.

Lemma grouped_final (comps : list Component) :
  grouped comps (length comps) (groupFrom 0 comps []).
Proof. apply (grouped_groupFrom comps comps 0 []); [done|apply grouped_start]. Qed.

(** *** The offsets *)

Lemma spreadOffset_value (r : Q) (len p : nat) :
  (2 <= len)%nat ->
  exists q,
    spreadOffset (Num r) len p = Num q /\
    (q == (inject_Z (Z.of_nat p) - (inject_Z (Z.of_nat len) - 1) / 2)
          * (r / (inject_Z (Z.of_nat len) - 1)))%Q.
Proof.
  intros Hlen.
  unfold spreadOffset, ofNat, ofZ, nsub, nmax.
  assert (forall a, ndiv (Num a) (Num (inject_Z 2)) = Num (a / inject_Z 2)) as ->.
  { intros a. reflexivity. }
  cbn [nsub nmul].
  set (d := (inject_Z (Z.of_nat len) - inject_Z 1)%Q).
  assert (1 <= d)%Q as Hd.
  { unfold d, Qminus. rewrite <- inject_Z_opp, <- inject_Z_plus.
    change 1%Q with (inject_Z 1). rewrite <- Zle_Qle. lia. }
  unfold ndiv. destruct (Qle_bool d (inject_Z 1)) eqn:Ed.
  - apply Qle_bool_iff in Ed. change (inject_Z 1) with 1%Q in Ed.
    assert (d == 1)%Q as E1 by (apply Qle_antisym; done).
    change (Qeq_bool (inject_Z 1) 0) with false. cbv iota.
    eexists. split; [reflexivity|].
    change (inject_Z 2) with 2%Q. change (inject_Z 1) with 1%Q in *.
    fold d. rewrite E1. reflexivity.
  - destruct (Qeq_bool d 0) eqn:E0.
    { apply Qeq_bool_iff in E0. rewrite E0 in Hd. done. }
    eexists. split; [reflexivity|]. reflexivity.
Qed.

(** *** The keys *)

Lemma groupKey_last (c : Component) :
  head (rev (groupKey c)) = head (rev (stageName (stage c))).
Proof.
  unfold groupKey. rewrite !rev_app_distr.
  destruct (stage c); reflexivity.
Qed.

Lemma groupKey_stage (c c' : Component) :
  groupKey c = groupKey c' -> stage c = stage c'.
Proof.
  intros H. pose proof (groupKey_last c) as H1. pose proof (groupKey_last c') as H2.
  rewrite H, H2 in H1. clear H H2.
  destruct (stage c), (stage c'); first [reflexivity | vm_compute in H1; discriminate].
Qed.

Lemma toFixed3_proper (p q : Q) : (p == q)%Q -> toFixed3 (Num p) = toFixed3 (Num q).
Proof.
  intros E. unfold toFixed3.
  assert (Qle_bool 0 p = Qle_bool 0 q) as ->.
  { destruct (Qle_bool 0 q) eqn:Hq.
    - apply Qle_bool_iff. apply Qle_bool_iff in Hq. rewrite E. done.
    - destruct (Qle_bool 0 p) eqn:Hp; [|done].
      apply Qle_bool_iff in Hp. rewrite E in Hp. apply Qle_bool_iff in Hp. congruence. }
  destruct (negb (Qle_bool 0 q)).
  - assert (Qfloor (- p * 1000 + (1 # 2)) = Qfloor (- q * 1000 + (1 # 2))) as ->; [|done].
    apply Qfloor_comp. rewrite E. reflexivity.
  - assert (Qfloor (p * 1000 + (1 # 2)) = Qfloor (q * 1000 + (1 # 2))) as ->; [|done].
    apply Qfloor_comp. rewrite E. reflexivity.
Qed.

Lemma groupKey_same (c c' : Component) :
  stage c = stage c' -> sameNumber (y c) (y c') -> groupKey c = groupKey c'.
Proof.
  unfold groupKey, sameNumber. intros -> Hy. f_equal.
  destruct (y c) as [[p|]|], (y c') as [[q|]|]; try done.
  apply toFixed3_proper. done.
Qed.

Lemma Qdiv_nonneg (r d : Q) : (0 <= r)%Q -> (0 < d)%Q -> (0 <= r / d)%Q.
Proof. intros Hr Hd. apply Qle_shift_div_l; [done|]. lra. Qed.

(** An offset stays within half the width of the spread, on either side. *)
Lemma offset_bounds (r P d : Q) :
  (0 <= r)%Q -> (1 <= d)%Q -> (0 <= P)%Q -> (P <= d)%Q ->
  (- (r / 2) <= (P - d / 2) * (r / d) /\ (P - d / 2) * (r / d) <= r / 2)%Q.
Proof.
  intros Hr Hd HP0 HPd.
  assert (0 <= r / d)%Q as Hrd by (apply Qdiv_nonneg; lra).
  assert (~ d == 0)%Q as Hd0 by lra.
  split.
  - assert ((P - d / 2) * (r / d) + r / 2 == P * (r / d))%Q as E by (field; done).
    pose proof (Qmult_le_0_compat _ _ HP0 Hrd). lra.
  - assert (r / 2 - (P - d / 2) * (r / d) == (d - P) * (r / d))%Q as E by (field; done).
    assert (0 <= d - P)%Q as H1 by lra.
    pose proof (Qmult_le_0_compat _ _ H1 Hrd). lra.
Qed.

(** Two offsets of a group are as far apart as their positions, times the
    step of the group. *)
Lemma offset_step (r P P' d : Q) :
  (0 <= r)%Q -> (1 <= d)%Q -> (P + 1 <= P')%Q ->
  ((P - d / 2) * (r / d) + r / d <= (P' - d / 2) * (r / d))%Q.
Proof.
  intros Hr Hd HP.
  assert (0 <= r / d)%Q as Hrd by (apply Qdiv_nonneg; lra).
  assert (~ d == 0)%Q as Hd0 by lra.
  assert ((P' - d / 2) * (r / d) - ((P - d / 2) * (r / d) + r / d)
          == (P' - P - 1) * (r / d))%Q as E by (field; done).
  assert (0 <= P' - P - 1)%Q as H1 by lra.
  pose proof (Qmult_le_0_compat _ _ H1 Hrd). lra.
Qed.

Lemma adaptiveSpread_value (len : nat) :
  exists r,
    adaptiveSpread len = Num r /\
    (0.12 <= r)%Q /\ (0.04 * inject_Z (Z.of_nat len) <= r)%Q /\
    ((len <= 6)%nat -> (r <= 0.24)%Q).
Proof.
  unfold adaptiveSpread, ofNat, ofZ.
  assert (ndiv (Num (inject_Z (Z.of_nat len))) (Num (inject_Z 3)) =
          Num (inject_Z (Z.of_nat len) / inject_Z 3)) as -> by reflexivity.
  cbn [nmax nmul]. eexists. split; [reflexivity|].
  set (L := inject_Z (Z.of_nat len)).
  change (inject_Z 3) with 3%Q. change (inject_Z 1) with 1%Q.
  assert ((len <= 6)%nat -> (L <= 6)%Q) as H6.
  { intros H. unfold L. change 6%Q with (inject_Z 6). rewrite <- Zle_Qle. lia. }
  assert (L == 3 * (L / 3))%Q as HT by field.
  destruct (Qle_bool 1 (L / 3)) eqn:E.
  - apply Qle_bool_iff in E. revert HT E. generalize (L / 3)%Q. intros T HT E.
    split; [lra|]. split; [lra|]. intros H. specialize (H6 H). lra.
  - assert (~ (1 <= L / 3)%Q) as Hn.
    { intros H. apply Qle_bool_iff in H. congruence. }
    apply Qnot_le_lt in Hn. revert HT Hn. generalize (L / 3)%Q. intros T HT Hn.
    split; [lra|]. split; [lra|]. intros _. lra.
Qed.

(** *** The size of a group *)

Lemma length_filter_split {A} (P : A -> Prop) `{!forall a, Decision (P a)} (l : list A) :
  (length (filter P l) + length (filter (fun a => ~ P a) l) = length l)%nat.
Proof.
  induction l as [|a l IH]; [done|].
  rewrite !filter_cons. destruct (decide (P a)) as [Ha|Ha].
  - rewrite decide_False by tauto. cbn. lia.
  - rewrite decide_True by done. cbn. lia.
Qed.

Lemma length_filter_fmap {A B} (f : A -> B) `{EqDecision B} (b : B) (l : list A) :
  length (filter (fun a => f a = b) l) = length (filter (fun v => v = b) (f <$> l)).
Proof.
  induction l as [|a l IH]; [done|].
  rewrite fmap_cons, !filter_cons. destruct (decide (f a = b)); cbn; rewrite IH; done.
Qed.

(** Distinct positions of a list that all hold a value with the property
    [P] are no more than the values of the list with that property. *)
Lemma length_positions {A} (P : A -> Prop) `{!forall a, Decision (P a)} (l : list A) :
  forall g : list nat,
    NoDup g -> (forall i, i ∈ g -> exists a, l !! i = Some a /\ P a) ->
    (length g <= length (filter P l))%nat.
Proof.
  induction l as [|c l IH] using rev_ind; intros g Hnd Hg.
  - destruct g as [|i g]; [done|]. destruct (Hg i) as (a & Ha & _); [left|done].
  - rewrite filter_app, length_app.
    rewrite <- (length_filter_split (fun i => i < length l)%nat g).
    assert (length (filter (fun i => i < length l)%nat g) <= length (filter P l))%nat as H1.
    { apply IH; [apply NoDup_filter; done|].
      intros i [Hi Hin]%list_elem_of_filter. destruct (Hg i Hin) as (a & Ha & HP).
      rewrite lookup_app_l in Ha by done. eauto. }
    assert (length (filter (fun i => ~ (i < length l)%nat) g) <= length (filter P [c]))%nat as H2.
    { assert (forall i, i ∈ filter (fun i => ~ (i < length l)%nat) g -> i = length l /\ P c)
        as Hlast.
      { intros i [Hi Hin]%list_elem_of_filter. destruct (Hg i Hin) as (a & Ha & HP).
        assert (i = length l) as ->.
        { apply lookup_lt_Some in Ha. rewrite length_app in Ha. cbn in Ha. lia. }
        rewrite lookup_app_r, Nat.sub_diag in Ha by done. injection Ha as ->. done. }
      assert (NoDup (filter (fun i => ~ (i < length l)%nat) g)) as Hnd2
        by (apply NoDup_filter; done).
      destruct (filter (fun i => ~ (i < length l)%nat) g) as [|i [|j rest]]; [cbn; lia| |].
      - destruct (Hlast i) as [_ HP]; [left|]. rewrite filter_cons, decide_True by done.
        cbn. lia.
      - destruct (Hlast i) as [-> _]; [left|]. destruct (Hlast j) as [-> _]; [right; left|].
        apply NoDup_cons in Hnd2 as [Hn _]. exfalso. apply Hn. left. }
    lia.
Qed.

(** *** Where the overlap resolution places a component *)

Lemma group_unique (G : list (jsstring * list nat)) (k : jsstring) (g g' : list nat) :
  NoDup (map fst G) -> (k, g) ∈ G -> (k, g') ∈ G -> g = g'.
Proof.
  induction G as [|[k0 g0] G IH]; cbn; [intros _ H; by apply elem_of_nil in H|].
  intros [Hk Hnd]%NoDup_cons [[= -> ->]|H1]%elem_of_cons [[= E]|H2]%elem_of_cons.
  - done.
  - exfalso. apply Hk. apply list_elem_of_fmap. exists (k0, g'). done.
  - subst. exfalso. apply Hk. apply list_elem_of_fmap. exists (k0, g). done.
  - auto.
Qed.

Lemma spreadWith_placed (range : nat -> number) (comps : list Component)
    (i : nat) (c : Component) :
  Forall (fun c => x c = Some (STAGE_POSITIONS (stage c))) comps ->
  comps !! i = Some c ->
  exists g p c',
    (groupKey c, g) ∈ groupFrom 0 comps [] /\ g !! p = Some i /\
    spreadWith range comps !! i = Some c' /\
    name c' = name c /\ stage c' = stage c /\ isAnchor c' = isAnchor c /\ y c' = y c /\
    x c' = if bool_decide (1 < length g)%nat
           then Some (nadd (STAGE_POSITIONS (stage c))
                           (spreadOffset (range (length g)) (length g) p))
           else Some (STAGE_POSITIONS (stage c)).
Proof.
  intros Hx Hc. destruct (spreadWith_lookup range comps i c Hc) as (g & p & Hg & Hp & Hlook).
  exists g, p, (placeIn range comps g p c). split; [done|]. split; [done|]. split; [done|].
  unfold placeIn. case_bool_decide as Hlen.
  - cbn. repeat split. f_equal. f_equal.
    destruct g as [|h g']; [cbn in Hlen; lia|]. cbn [head mbind option_bind].
    destruct (grp_members _ _ _ (grouped_final comps) _ _ h Hg ltac:(left)) as [Hh Hkey].
    destruct (comps !! h) as [ch|] eqn:Ech; [|done]. cbn in Hkey. injection Hkey as Hkey.
    cbn [mbind option_bind].
    rewrite Forall_forall in Hx. rewrite (Hx ch) by (eapply list_elem_of_lookup_2; eauto).
    cbn. rewrite (groupKey_stage _ _ Hkey). done.
  - repeat split. rewrite Forall_forall in Hx. apply Hx.
    eapply list_elem_of_lookup_2; eauto.
Qed.

(** The members of a group of two or more, in a spread of finite width
    [r]: each one stands within [r / 2] of the centre of its stage. *)
Lemma placed_within (range : nat -> number) (comps : list Component)
    (i : nat) (c : Component) (half : Q) :
  Forall (fun c => x c = Some (STAGE_POSITIONS (stage c))) comps ->
  comps !! i = Some c ->
  (0 <= half)%Q ->
  (forall g, (groupKey c, g) ∈ groupFrom 0 comps [] -> (2 <= length g)%nat ->
     exists r, range (length g) = Num r /\ (0 <= r)%Q /\ (r / 2 <= half)%Q) ->
  exists c' q centre,
    spreadWith range comps !! i = Some c' /\
    x c' = Some (Num q) /\ STAGE_POSITIONS (stage c') = Num centre /\
    (centre - half <= q)%Q /\ (q <= centre + half)%Q.
Proof.
  intros Hx Hc Hhalf Hrange.
  destruct (spreadWith_placed range comps i c Hx Hc)
    as (g & p & c' & Hg & Hp & Hlook & _ & Hs & _ & _ & Hxc).
  assert (exists centre, STAGE_POSITIONS (stage c) = Num centre) as [centre Hcentre].
  { destruct (stage c); eexists; reflexivity. }
  exists c'. case_bool_decide as Hlen.
  - destruct (Hrange g Hg ltac:(lia)) as (r & Hr & Hr0 & Hr2).
    destruct (spreadOffset_value r (length g) p ltac:(lia)) as (off & Hoff & Evalue).
    rewrite Hr, Hoff, Hcentre in Hxc. cbn [nadd] in Hxc.
    exists (centre + off)%Q, centre. split; [done|]. split; [done|].
    split; [rewrite Hs; done|].
    assert (p < length g)%nat as Hplt by (eapply lookup_lt_Some; eauto).
    set (d := (inject_Z (Z.of_nat (length g)) - 1)%Q) in *.
    assert (1 <= d)%Q as Hd.
    { unfold d, Qminus. change 1%Q with (inject_Z 1).
      rewrite <- inject_Z_opp, <- inject_Z_plus, <- Zle_Qle. lia. }
    assert (0 <= inject_Z (Z.of_nat p))%Q as HP0.
    { change 0%Q with (inject_Z 0). rewrite <- Zle_Qle. lia. }
    assert (inject_Z (Z.of_nat p) <= d)%Q as HPd.
    { unfold d, Qminus. change 1%Q with (inject_Z 1).
      rewrite <- inject_Z_opp, <- inject_Z_plus, <- Zle_Qle. lia. }
    destruct (offset_bounds r _ d Hr0 Hd HP0 HPd) as [Hlo Hhi].
    rewrite <- Evalue in Hlo, Hhi. split; lra.
  - rewrite Hcentre in Hxc. exists centre, centre. split; [done|]. split; [done|].
    split; [rewrite Hs; done|]. split; lra.
Qed.

(** *** The components when the overlap resolution starts *)

Lemma before_spread (layers : gmap jsstring Z) (maxLayer : Z)
    (comps : list Component) (evos : list Evolution) :
  let pre :=
    foldl inheritY
      (map (assignY layers maxLayer)
         (map (fun comp => setX comp (Some (STAGE_POSITIONS (stage comp)))) comps))
      evos in
  Forall (fun c => x c = Some (STAGE_POSITIONS (stage c))) pre /\
  stage <$> pre = stage <$> comps /\ length pre = length comps.
Proof.
  intros pre.
  pose proof (inheritY_all_projection (fun c => (stage c, x c)) evos
                ltac:(intros c v; reflexivity)
                (map (assignY layers maxLayer)
                   (map (fun comp => setX comp (Some (STAGE_POSITIONS (stage comp)))) comps)))
    as Hproj.
  fold pre in Hproj.
  assert (Forall (fun c => x c = Some (STAGE_POSITIONS (stage c)))
            (map (assignY layers maxLayer)
               (map (fun comp => setX comp (Some (STAGE_POSITIONS (stage comp)))) comps)))
    as Hstart.
  { apply Forall_fmap, Forall_fmap, Forall_forall. intros c _. cbn.
    destruct (assignY_fields layers maxLayer
                (setX c (Some (STAGE_POSITIONS (stage c))))) as (_ & -> & _ & ->).
    done. }
  split; [|split].
  - apply (Forall_fmap (fun c => (stage c, x c)) (fun p => p.2 = Some (STAGE_POSITIONS p.1))) in Hstart.
    rewrite <- Hproj in Hstart.
    apply (Forall_fmap (fun c => (stage c, x c)) (fun p => p.2 = Some (STAGE_POSITIONS p.1))) in Hstart.
    exact Hstart.
  - unfold pre. rewrite (inheritY_all_projection stage) by done.
    clear. induction comps as [|c comps IH]; [done|].
    cbn [map fmap list_fmap]. f_equal; [|exact IH].
    destruct (assignY_fields layers maxLayer
                (setX c (Some (STAGE_POSITIONS (stage c))))) as (_ & -> & _). done.
  - apply (f_equal length) in Hproj. rewrite !length_fmap in Hproj. done.
Qed.

Lemma standalone_calculatePositions_Some (fuel : nat) (m m' : WardleyMap) :
  Standalone.calculatePositions fuel m = Some m' ->
  exists layers,
    m' = withComponents m
           (spreadWith (fun _ => Num 0.08)
              (foldl inheritY
                 (map (assignY layers (maxLayerOf layers))
                    (map (fun comp => setX comp (Some (STAGE_POSITIONS (stage comp))))
                       (components m)))
                 [])).
Proof.
  unfold Standalone.calculatePositions.
  destruct (topologicalSort fuel _ (dependencies m)) as [layers|]; [|done].
  cbn. intros [= <-]. exists layers. done.
Qed.

(** X12. In [generate-svg.js] the overlap resolution never moves a
    component out of the column of its stage, whatever the number of
    components: every [x] lies strictly inside the quarter of the axis
    around the centre of its stage, hence strictly between 0 and 1.  (The
    exact offsets stay within 0.04 of the centre; the bound stated is the
    half width of the column, 0.125, far beyond the rounding of the
    sums.) *)
Theorem standalone_x_in_stage_band (fuel : nat) (m m' : WardleyMap) :
  Standalone.calculatePositions fuel m = Some m' ->
  Forall (fun c => exists q centre,
            x c = Some (Num q) /\ STAGE_POSITIONS (stage c) = Num centre /\
            (centre - 0.125 < q)%Q /\ (q < centre + 0.125)%Q /\
            (0 < q)%Q /\ (q < 1)%Q)
    (components m').
Proof.
  intros (layers & ->)%standalone_calculatePositions_Some. cbn [components withComponents].
  set (pre := foldl inheritY _ []).
  destruct (before_spread layers (maxLayerOf layers) (components m) []) as (Hx & _ & _).
  fold pre in Hx.
  apply Forall_lookup. intros i c' Hc'.
  assert (is_Some (pre !! i)) as [c Hc].
  { apply lookup_lt_is_Some. apply lookup_lt_Some in Hc'.
    rewrite <- (length_fmap name), spreadWith_projection, length_fmap in Hc'; done. }
  destruct (placed_within (fun _ => Num 0.08) pre i c 0.04 Hx Hc ltac:(lra))
    as (c2 & q & centre & Hlook & Hq & Hcentre & Hlo & Hhi).
  { intros g _ _. exists 0.08%Q. split; [done|]. split; vm_compute; discriminate. }
  assert (c2 = c') as -> by congruence.
  exists q, centre. split; [done|]. split; [done|].
  split; [lra|]. split; [lra|].
  destruct (stage c'); injection Hcentre as <-; split; lra.
Qed.

Lemma standalone_x_in_stage_band_witness :
  exists m',
    Standalone.calculatePositions 10 teaShopMap = Some m' /\
    Forall (fun c => exists q centre,
              x c = Some (Num q) /\ STAGE_POSITIONS (stage c) = Num centre /\
              (centre - 0.125 < q)%Q /\ (q < centre + 0.125)%Q /\
              (0 < q)%Q /\ (q < 1)%Q)
      (components m').
Proof.
  eexists. split; [vm_compute; reflexivity|].
  eapply (standalone_x_in_stage_band 10 teaShopMap). vm_compute. reflexivity.
Defined.

Lemma group_size (comps : list Component) (c : Component) (g : list nat) :
  (groupKey c, g) ∈ groupFrom 0 comps [] ->
  (length g <= length (filter (fun c' => stage c' = stage c) comps))%nat.
Proof.
  intros Hg. pose proof (grouped_final comps) as [Hkeys Hmem Hall Honce Hord].
  apply length_positions.
  - clear -Hg Honce. induction (groupFrom 0 comps []) as [|[k0 g0] G IH];
      [by apply elem_of_nil in Hg|].
    cbn [map snd concat] in Honce. apply NoDup_app in Honce as (H0 & _ & Hrest).
    apply elem_of_cons in Hg as [[= <- <-]|Hg]; [done|auto].
  - intros i Hi. destruct (Hmem _ _ i Hg Hi) as [_ Hkey].
    destruct (comps !! i) as [ci|]; [|done]. cbn in Hkey. injection Hkey as Hkey.
    exists ci. split; [done|]. apply groupKey_stage. done.
Qed.

(** X13. When no stage holds more than six components, the overlap
    resolution of the plugin moves no component further than 0.12 from the
    centre of its stage: every [x] lies in the band of its stage, and in the
    unit interval. *)
Theorem placed_x_in_stage_band (fuel : nat) (m m' : WardleyMap) :
  calculatePositions fuel m = Some m' ->
  (forall s, (length (filter (fun c => stage c = s) (components m)) <= 6)%nat) ->
  Forall (fun c => exists q centre,
            x c = Some (Num q) /\ STAGE_POSITIONS (stage c) = Num centre /\
            (centre - 0.12 <= q)%Q /\ (q <= centre + 0.12)%Q /\
            (0 < q)%Q /\ (q < 1)%Q)
    (components m').
Proof.
  intros (layers & _ & ->)%calculatePositions_Some Hsix. cbn [components withComponents].
  set (pre := foldl inheritY _ (evolutions m)).
  destruct (before_spread layers (maxLayerOf layers) (components m) (evolutions m))
    as (Hx & Hstage & _).
  fold pre in Hx, Hstage.
  apply Forall_lookup. intros i c' Hc'. unfold spreadOverlappingComponents in Hc'.
  assert (is_Some (pre !! i)) as [c Hc].
  { apply lookup_lt_is_Some. apply lookup_lt_Some in Hc'.
    rewrite <- (length_fmap name), spreadWith_projection, length_fmap in Hc'; done. }
  destruct (placed_within adaptiveSpread pre i c 0.12 Hx Hc ltac:(lra))
    as (c2 & q & centre & Hlook & Hq & Hcentre & Hlo & Hhi).
  { intros g Hg _. destruct (adaptiveSpread_value (length g)) as (r & Hr & H12 & _ & H24).
    exists r. split; [done|]. split; [lra|].
    assert (length g <= 6)%nat as Hlen.
    { etrans; [apply (group_size pre c g Hg)|].
      rewrite length_filter_fmap, Hstage, <- length_filter_fmap. apply Hsix. }
    specialize (H24 Hlen). apply Qle_shift_div_r; [done|]. lra. }
  assert (c2 = c') as -> by congruence.
  exists q, centre. split; [done|]. split; [done|]. split; [done|]. split; [done|].
  destruct (stage c'); injection Hcentre as <-; split; lra.
Qed.

Lemma placed_x_in_stage_band_witness :
  exists m',
    calculatePositions 10 teaShopMap = Some m' /\
    Forall (fun c => exists q centre,
              x c = Some (Num q) /\ STAGE_POSITIONS (stage c) = Num centre /\
              (centre - 0.12 <= q)%Q /\ (q <= centre + 0.12)%Q /\
              (0 < q)%Q /\ (q < 1)%Q)
      (components m').
Proof.
  eexists. split; [vm_compute; reflexivity|].
  eapply (placed_x_in_stage_band 10 teaShopMap); [vm_compute; reflexivity|].
  intros s. destruct s; vm_compute; lia.
Defined.

(** X14. Two components of the same stage on the same row are never drawn
    on top of each other by the plugin: the one declared first stands to
    the left, more than 0.04 away from the other. *)
Theorem same_row_left_to_right (fuel : nat) (m m' : WardleyMap) (i j : nat)
    (ci cj : Component) :
  calculatePositions fuel m = Some m' ->
  components m' !! i = Some ci -> components m' !! j = Some cj -> (i < j)%nat ->
  stage ci = stage cj -> sameNumber (y ci) (y cj) ->
  exists p q, x ci = Some (Num p) /\ x cj = Some (Num q) /\ (p + 0.04 < q)%Q.
Proof.
  intros (layers & _ & ->)%calculatePositions_Some. cbn [components withComponents].
  set (pre := foldl inheritY _ (evolutions m)).
  destruct (before_spread layers (maxLayerOf layers) (components m) (evolutions m))
    as (Hx & _ & _).
  fold pre in Hx. unfold spreadOverlappingComponents.
  intros Hci Hcj Hij Hstage Hy.
  assert (forall k c', spreadWith adaptiveSpread pre !! k = Some c' ->
            exists c g p,
              pre !! k = Some c /\ (groupKey c', g) ∈ groupFrom 0 pre [] /\ g !! p = Some k /\
              x c' = if bool_decide (1 < length g)%nat
                     then Some (nadd (STAGE_POSITIONS (stage c'))
                                  (spreadOffset (adaptiveSpread (length g)) (length g) p))
                     else Some (STAGE_POSITIONS (stage c'))) as Hplaced.
  { intros k c' Hc'.
    assert (is_Some (pre !! k)) as [c Hc].
    { apply lookup_lt_is_Some. apply lookup_lt_Some in Hc'.
      rewrite <- (length_fmap name), spreadWith_projection, length_fmap in Hc'; done. }
    destruct (spreadWith_placed adaptiveSpread pre k c Hx Hc)
      as (g & p & c2 & Hg & Hp & Hlook & _ & Hs & _ & Hyc & Hxc).
    assert (c2 = c') as -> by congruence.
    exists c, g, p. split; [done|].
    assert (groupKey c' = groupKey c) as ->.
    { apply groupKey_same; [done|]. rewrite Hyc. destruct (y c) as [[?|]|]; cbn; done. }
    rewrite Hs. done. }
  destruct (Hplaced i ci Hci) as (ci0 & g & p & _ & Hg & Hp & Hxi).
  destruct (Hplaced j cj Hcj) as (cj0 & g' & p' & _ & Hg' & Hp' & Hxj).
  rewrite <- (groupKey_same ci cj Hstage Hy) in Hg'.
  pose proof (grouped_final pre) as [Hkeys Hmem Hall Honce Hord].
  assert (g' = g) as -> by (eapply group_unique; eauto).
  assert (p < p')%nat as Hpp.
  { destruct (Nat.lt_trichotomy p p') as [H|[->|H]]; [done| |].
    - assert (i = j) by congruence. lia.
    - pose proof (Hord _ _ _ _ _ _ Hg H Hp' Hp). lia. }
  assert (p' < length g)%nat as Hp'lt by (eapply lookup_lt_Some; eauto).
  rewrite bool_decide_true in Hxi, Hxj by lia.
  destruct (adaptiveSpread_value (length g)) as (r & Hr & H12 & H04 & _).
  rewrite Hr in Hxi, Hxj.
  destruct (spreadOffset_value r (length g) p ltac:(lia)) as (off & Hoff & Eoff).
  destruct (spreadOffset_value r (length g) p' ltac:(lia)) as (off' & Hoff' & Eoff').
  rewrite Hoff in Hxi. rewrite Hoff' in Hxj. rewrite <- Hstage in Hxj.
  assert (exists centre, STAGE_POSITIONS (stage ci) = Num centre) as [centre Hcentre].
  { destruct (stage ci); eexists; reflexivity. }
  rewrite Hcentre in Hxi, Hxj. cbn [nadd] in Hxi, Hxj.
  exists (centre + off)%Q, (centre + off')%Q. split; [done|]. split; [done|].
  set (d := (inject_Z (Z.of_nat (length g)) - 1)%Q) in *.
  assert (1 <= d)%Q as Hd.
  { unfold d, Qminus. change 1%Q with (inject_Z 1).
    rewrite <- inject_Z_opp, <- inject_Z_plus, <- Zle_Qle. lia. }
  assert (inject_Z (Z.of_nat p) + 1 <= inject_Z (Z.of_nat p'))%Q as Hstep.
  { change 1%Q with (inject_Z 1). rewrite <- inject_Z_plus, <- Zle_Qle. lia. }
  pose proof (offset_step r _ _ d ltac:(lra) Hd Hstep) as Hfar.
  rewrite <- Eoff, <- Eoff' in Hfar.
  assert (0.04 < r / d)%Q as Hwide.
  { apply Qlt_shift_div_l; [lra|]. unfold d. lra. }
  lra.
Qed.

Lemma same_row_left_to_right_witness :
  exists m' ci cj,
    calculatePositions 10 teaShopMap = Some m' /\
    components m' !! 3%nat = Some ci /\ components m' !! 4%nat = Some cj /\
    exists p q, x ci = Some (Num p) /\ x cj = Some (Num q) /\ (p + 0.04 < q)%Q.
Proof.
  eexists _, _, _. split; [vm_compute; reflexivity|].
  split; [vm_compute; reflexivity|]. split; [vm_compute; reflexivity|].
  eapply (same_row_left_to_right 10 teaShopMap _ 3 4);
    [vm_compute; reflexivity|vm_compute; reflexivity|vm_compute; reflexivity|lia
    |vm_compute; reflexivity|vm_compute; reflexivity].
Defined.

(** ** The rows *)

Lemma layers_strict (fuel : nat) (comps : list Component) (deps : list Dependency)
    (layers : gmap jsstring Z) :
  validGraph comps deps -> acyclic deps ->
  topologicalSort fuel comps deps = Some layers ->
  forall d, d ∈ deps -> layerOf layers (to d) < layerOf layers (from d).
Proof.
  intros Hvalid Hacyc Hsort. unfold topologicalSort in Hsort.
  destruct (bfs fuel _ _) as [st|] eqn:Hrun; [|done].
  cbn in Hsort. injection Hsort as <-.
  destruct (bfs_layering comps deps fuel Hvalid [] _ _ (layering_start _ _ Hvalid) Hrun)
    as (P & Hinv & Hq).
  pose proof (layering_complete _ _ _ _ Hvalid Hacyc Hinv Hq) as Hall.
  destruct Hinv as [_ _ _ _ Habove _].
  intros d Hd. destruct Hvalid as [_ Hvalid]. destruct (Hvalid d Hd) as [_ Ht].
  destruct (Habove d Hd (Hall _ Ht)) as (vf & vt & Hf & Hto & Hlt).
  unfold layerOf. rewrite Hf, Hto. done.
Qed.

Lemma visit_keeps_leaf (comps : list Component) (deps : list Dependency)
    (n c : jsstring) (st : TopoState) :
  (forall d, d ∈ deps -> from d <> n) ->
  layers (visit (buildGraph comps deps) c st) !! n = layers st !! n.
Proof.
  intros Hleaf. unfold visit. rewrite relax_all_layers.
  rewrite decide_False; [done|].
  rewrite buildGraph_lookup. case_decide; cbn; [|apply not_elem_of_nil].
  intros (d & Hd & Hfrom & _)%elem_of_dependents. exact (Hleaf d Hd Hfrom).
Qed.

Lemma bfs_keeps_leaf (comps : list Component) (deps : list Dependency)
    (n : jsstring) (fuel : nat) :
  (forall d, d ∈ deps -> from d <> n) ->
  forall st st',
    bfs fuel (buildGraph comps deps) st = Some st' ->
    layers st' !! n = layers st !! n.
Proof.
  intros Hleaf. induction fuel as [|fuel IH]; intros [ls dg q] st' Hrun.
  - destruct q; cbn in Hrun; [|done]. injection Hrun as <-. done.
  - destruct q as [|c rest]; cbn in Hrun.
    + injection Hrun as <-. done.
    + rewrite (IH _ _ Hrun). rewrite visit_keeps_leaf by done. done.
Qed.

(** A component that depends on nothing is given layer 0, on every graph. *)
Lemma leaf_layer_0 (fuel : nat) (comps : list Component) (deps : list Dependency)
    (layers : gmap jsstring Z) (n : jsstring) :
  topologicalSort fuel comps deps = Some layers ->
  n ∈ map name comps -> (forall d, d ∈ deps -> from d <> n) ->
  layers !! n = Some 0.
Proof.
  unfold topologicalSort. intros Hsort Hn Hleaf.
  destruct (bfs fuel _ _) as [st|] eqn:Hrun; [|done].
  cbn in Hsort. injection Hsort as <-.
  rewrite (bfs_keeps_leaf comps deps n fuel Hleaf _ _ Hrun).
  unfold topoStart.
  destruct (seed_all comps (mkTopoState ∅ (buildInDegree comps deps) [])) as (_ & _ & Hl).
  rewrite Hl. rewrite decide_True; [done|].
  apply list_elem_of_filter. split; [|done]. cbn.
  rewrite buildInDegree_lookup by done. f_equal.
  apply pendingOf_zero. intros d Hd Hfrom. destruct (Hleaf d Hd Hfrom).
Qed.


Lemma assignY_onRow (layers : gmap jsstring Z) (c : Component) :
  0 <= layerOf layers (name c) ->
  onRow (maxLayerOf layers)
    (if isAnchor c then 0 else maxLayerOf layers - layerOf layers (name c))
    (y (assignY layers (maxLayerOf layers) c)).
Proof.
  intros Hl. pose proof (layerOf_upper layers (name c)) as Hu.
  pose proof (maxLayerOf_nonneg layers) as Hm.
  destruct c as [n s [] vx vy]; unfold assignY; cbn [isAnchor setY y name] in *.
  - split; [lia|]. exists (inject_Z 0). split; [done|].
    unfold Qeq, Qdiv, Qmult, Qinv, inject_Z. cbn. destruct (maxLayerOf layers + 1); done.
  - rewrite layer_row_finite by done. split; [lia|]. eexists. split; done.
Qed.

Lemma placed_untargeted (fuel : nat) (m m' : WardleyMap) (i : nat) (c : Component) :
  calculatePositions fuel m = Some m' ->
  components m !! i = Some c ->
  Forall (fun e => eto e <> name c) (evolutions m) ->
  exists layers c',
    topologicalSort fuel (components m) (dependencies m) = Some layers /\
    components m' !! i = Some c' /\ name c' = name c /\ isAnchor c' = isAnchor c /\
    y c' = y (assignY layers (maxLayerOf layers) c).
Proof.
  intros (layers & Hsort & ->)%calculatePositions_Some Hi Hevo.
  exists layers. cbn [components withComponents].
  set (comps2 := map (assignY layers (maxLayerOf layers)) _).
  set (c2 := assignY layers (maxLayerOf layers) (setX c (Some (STAGE_POSITIONS (stage c))))).
  assert (name c2 = name c /\ isAnchor c2 = isAnchor c /\
          y c2 = y (assignY layers (maxLayerOf layers) c)) as (Hn2 & Ha2 & Hy2).
  { unfold c2. destruct c as [n s [] vx vy]; done. }
  assert (foldl inheritY comps2 (evolutions m) !! i = Some c2) as H3.
  { apply inheritY_all_other.
    - unfold comps2. rewrite !list_lookup_fmap, Hi. done.
    - rewrite Hn2. done. }
  set (comps3 := foldl inheritY comps2 (evolutions m)) in *.
  pose proof (spreadWith_projection (fun c => (name c, isAnchor c, y c)) adaptiveSpread comps3
                ltac:(done)) as Hp.
  apply (f_equal (fun l => l !! i)) in Hp. cbn beta in Hp.
  rewrite !list_lookup_fmap, H3 in Hp. unfold spreadOverlappingComponents.
  destruct (spreadWith adaptiveSpread comps3 !! i) as [c'|]; [|done].
  cbn in Hp. injection Hp as Hn Ha Hy.
  exists c'. split; [done|]. split; [done|]. repeat split; congruence.
Qed.



(** X16. A component that depends on nothing, that is no anchor and that no
    evolution edge targets, is given layer 0 and placed on the bottom row,
    on every graph. *)
Theorem leaf_on_bottom_row (fuel : nat) (m m' : WardleyMap) (i : nat) (c : Component) :
  calculatePositions fuel m = Some m' ->
  components m !! i = Some c ->
  (forall d, d ∈ dependencies m -> from d <> name c) ->
  isAnchor c = false ->
  Forall (fun e => eto e <> name c) (evolutions m) ->
  exists layers c',
    topologicalSort fuel (components m) (dependencies m) = Some layers /\
    layers !! name c = Some 0 /\
    components m' !! i = Some c' /\ name c' = name c /\
    onRow (maxLayerOf layers) (maxLayerOf layers) (y c').
Proof.
  intros Hrun Hi Hleaf Hanchor Hevo.
  destruct (placed_untargeted fuel m m' i c Hrun Hi Hevo)
    as (layers & c' & Hsort & Hi' & Hn & _ & Hy).
  assert (layers !! name c = Some 0) as Hl.
  { eapply leaf_layer_0; [exact Hsort| |done].
    apply list_elem_of_fmap. exists c. split; [done|].
    eapply list_elem_of_lookup_2. eauto. }
  exists layers, c'. split; [done|]. split; [done|]. split; [done|]. split; [done|].
  rewrite Hy.
  pose proof (assignY_onRow layers c) as Hrow.
  unfold layerOf in Hrow. rewrite Hl, Hanchor in Hrow. cbn [default from_option Datatypes.id] in Hrow.
  rewrite Z.sub_0_r in Hrow. apply Hrow. lia.
Qed.

Lemma leaf_on_bottom_row_witness :
  exists m',
    calculatePositions 4 diamondMap = Some m' /\
    exists layers c',
      topologicalSort 4 (components diamondMap) (dependencies diamondMap) = Some layers /\
      layers !! js "D" = Some 0 /\
      components m' !! 3%nat = Some c' /\ name c' = js "D" /\
      onRow (maxLayerOf layers) (maxLayerOf layers) (y c').
Proof.
  eexists. split; [vm_compute; reflexivity|].
  eapply (leaf_on_bottom_row 4 diamondMap _ 3 (mkComponent (js "D") commodity false None None)).
  - vm_compute. reflexivity.
  - reflexivity.
  - intros d Hd. apply list_elem_of_In in Hd. vm_compute in Hd.
    repeat (destruct Hd as [<-|Hd]; [vm_compute; discriminate|]). destruct Hd.
  - reflexivity.
  - constructor.
Defined.

(** X17. On a valid graph without cycle, every dependency is drawn
    downward: the component that depends stands on a row strictly above
    the component that it depends on, as long as the latter is no anchor
    and no evolution edge targets either of them. *)
Theorem dependency_drawn_downward (fuel : nat) (m m' : WardleyMap) (d : Dependency)
    (i j : nat) (cf ct : Component) :
  calculatePositions fuel m = Some m' ->
  validGraph (components m) (dependencies m) -> acyclic (dependencies m) ->
  d ∈ dependencies m ->
  components m !! i = Some cf -> name cf = from d ->
  components m !! j = Some ct -> name ct = to d ->
  isAnchor ct = false ->
  Forall (fun e => eto e <> from d /\ eto e <> to d) (evolutions m) ->
  exists cf' ct' p q,
    components m' !! i = Some cf' /\ components m' !! j = Some ct' /\
    name cf' = from d /\ name ct' = to d /\
    y cf' = Some (Num p) /\ y ct' = Some (Num q) /\ (p < q)%Q.
Proof.
  intros Hrun Hvalid Hacyc Hd Hi Hnf Hj Hnt Hanchor Hevo.
  destruct (placed_untargeted fuel m m' i cf Hrun Hi)
    as (layers & cf' & Hsort & Hi' & Hnf' & _ & Hyf).
  { eapply Forall_impl; [exact Hevo|]. cbn. intros e [H _]. congruence. }
  destruct (placed_untargeted fuel m m' j ct Hrun Hj)
    as (layers2 & ct' & Hsort2 & Hj' & Hnt' & _ & Hyt).
  { eapply Forall_impl; [exact Hevo|]. cbn. intros e [_ H]. congruence. }
  assert (layers2 = layers) as -> by congruence.
  pose proof (layers_strict fuel _ _ layers Hvalid Hacyc Hsort d Hd) as Hstrict.
  rewrite <- Hnf, <- Hnt in Hstrict.
  assert (0 <= layerOf layers (name ct)) as Ht0 by (eapply topologicalSort_nonneg; eauto).
  assert (0 <= layerOf layers (name cf)) as Hf0 by (eapply topologicalSort_nonneg; eauto).
  pose proof (layerOf_upper layers (name cf)) as Hfu.
  destruct (assignY_onRow layers cf Hf0) as [Hkf (p & Hp & Ep)].
  destruct (assignY_onRow layers ct Ht0) as [Hkt (q & Hq & Eq)].
  rewrite Hanchor in Hkt, Eq.
  exists cf', ct', p, q. split; [done|]. split; [done|].
  split; [congruence|]. split; [congruence|].
  split; [congruence|]. split; [congruence|].
  rewrite Ep, Eq.
  assert (0 < inject_Z (maxLayerOf layers + 1))%Q as Hpos.
  { unfold Qlt, inject_Z; cbn. lia. }
  apply Qmult_lt_r; [apply Qinv_lt_0_compat; done|].
  rewrite <- Zlt_Qlt. destruct (isAnchor cf); lia.
Qed.

Lemma dependency_drawn_downward_witness :
  exists m',
    calculatePositions 4 diamondMap = Some m' /\
    exists cf' ct' p q,
      components m' !! 0%nat = Some cf' /\ components m' !! 1%nat = Some ct' /\
      name cf' = js "A" /\ name ct' = js "B" /\
      y cf' = Some (Num p) /\ y ct' = Some (Num q) /\ (p < q)%Q.
Proof.
  eexists. split; [vm_compute; reflexivity|].
  eapply (dependency_drawn_downward 4 diamondMap _ (mkDependency (js "A") (js "B") None) 0 1
            (mkComponent (js "A") genesis false None None)
            (mkComponent (js "B") custom false None None)).
  - vm_compute. reflexivity.
  - split.
    + apply (bool_decide_unpack _). vm_compute. exact I.
    + apply Forall_forall. repeat constructor;
        apply (bool_decide_unpack _); vm_compute; exact I.
  - apply (acyclic_ranked _ diamondRank).
    apply Forall_forall. repeat constructor.
  - right. left.
  - reflexivity.
  - reflexivity.
  - reflexivity.
  - reflexivity.
  - reflexivity.
  - constructor.
Defined.

(** ** Anchors on the top row *)

(** X18. In the plugin an anchor that no evolution edge targets is placed
    on the top row, [y = 0], whatever depends on it and whatever it
    depends on. *)
Theorem anchor_on_top_row (fuel : nat) (m m' : WardleyMap) (i : nat) (c : Component) :
  calculatePositions fuel m = Some m' ->
  components m !! i = Some c -> isAnchor c = true ->
  Forall (fun e => eto e <> name c) (evolutions m) ->
  exists c',
    components m' !! i = Some c' /\ name c' = name c /\ isAnchor c' = true /\
    y c' = Some (ofZ 0).
Proof.
  intros Hrun Hi Hanchor Hevo.
  destruct (placed_untargeted fuel m m' i c Hrun Hi Hevo)
    as (layers & c' & _ & Hi' & Hn & Ha & Hy).
  exists c'. split; [done|]. split; [done|]. split; [congruence|].
  rewrite Hy. destruct c as [n s a vx vy]. cbn in Hanchor. subst a. done.
Qed.

Lemma anchor_on_top_row_witness :
  exists m',
    calculatePositions 10 teaShopMap = Some m' /\
    exists c',
      components m' !! 1%nat = Some c' /\ name c' = js "Public" /\ isAnchor c' = true /\
      y c' = Some (ofZ 0).
Proof.
  eexists. split; [vm_compute; reflexivity|].
  eapply (anchor_on_top_row 10 teaShopMap _ 1
            (mkComponent (js "Public") commodity true None None)).
  - vm_compute. reflexivity.
  - vm_compute. reflexivity.
  - reflexivity.
  - apply Forall_forall. intros e He.
    apply list_elem_of_In in He. vm_compute in He.
    destruct He as [<-|[]]. vm_compute. discriminate.
Defined.



(** ** Counting the elements of the drawing *)

Lemma startsWith_prefix (p a b : jsstring) :
  (length p <= length a)%nat -> startsWith p (a ++ b) = startsWith p a.
Proof.
  revert a. induction p as [|c p IH]; intros a Hlen; [done|].
  destruct a as [|u a]; [cbn in Hlen; lia|]. cbn.
  rewrite IH by (cbn in Hlen; lia). done.
Qed.

Lemma startsWith_line (p a r : jsstring) :
  10%N ∉ p -> startsWith p (a ++ nl ++ r) = startsWith p a.
Proof.
  revert a. induction p as [|c p IH]; intros a Hp; [done|].
  apply not_elem_of_cons in Hp as [Hc Hp].
  destruct a as [|u a]; cbn.
  - destruct (N.eqb_spec c 10); [congruence|done].
  - rewrite IH by done. done.
Qed.

Lemma countOcc_nil (p : jsstring) : countOcc p [] = 0%nat.
Proof. done. Qed.

(** No match starts where the first code unit of the pattern is absent. *)
Lemma countOcc_free (c : N) (p a b : jsstring) :
  c ∉ a -> countOcc (c :: p) (a ++ b) = countOcc (c :: p) b.
Proof.
  induction a as [|u a IH]; intros Ha; [done|].
  apply not_elem_of_cons in Ha as [Hu Ha].
  cbn [app countOcc startsWith]. destruct (N.eqb_spec c u); [congruence|].
  cbn. apply IH. done.
Qed.

Lemma countOcc_free_all (c : N) (p a : jsstring) :
  c ∉ a -> countOcc (c :: p) a = 0%nat.
Proof.
  intros Ha. rewrite <- (app_nil_r a). rewrite countOcc_free by done. done.
Qed.

(** A pattern without line feed does not match across the lines. *)
Lemma countOcc_lines (p : jsstring) (lines : list jsstring) :
  10%N ∉ p -> p <> [] ->
  countOcc p (joinLines lines) = countIn p lines.
Proof.
  intros Hp Hne.
  assert (forall a r, countOcc p (a ++ nl ++ r) = (countOcc p a + countOcc p r)%nat) as Hjoin.
  { intros a r. induction a as [|u a IH].
    - cbn [app countOcc nl]. destruct p as [|c p]; [done|].
      apply not_elem_of_cons in Hp as [Hc _]. cbn [startsWith].
      destruct (N.eqb_spec c 10); [congruence|]. done.
    - cbn [app countOcc]. rewrite IH.
      change (u :: a ++ nl ++ r) with ((u :: a) ++ nl ++ r).
      rewrite startsWith_line by done. lia. }
  induction lines as [|l lines IH]; [done|].
  destruct lines as [|l' lines].
  - cbn. lia.
  - change (joinLines (l :: l' :: lines)) with (l ++ nl ++ joinLines (l' :: lines)).
    rewrite Hjoin, IH. done.
Qed.

(** The matches of a pattern whose first code unit occurs nowhere else in
    it do not overlap: counting them from left to right counts the places
    where the pattern occurs. *)
Lemma countFrom_skip (p a r : jsstring) :
  countFrom p (length a) (a ++ r) = countFrom p 0 r.
Proof.
  induction a as [|u a IH]; [|exact IH].
  cbn [length app]. destruct r; done.
Qed.

Lemma countMatches_countOcc (c : N) (p s : jsstring) :
  c ∉ p -> countMatches (c :: p) s = countOcc (c :: p) s.
Proof.
  intros Hc. unfold countMatches.
  remember (length s) as n eqn:Hn. revert s Hn.
  induction (lt_wf n) as [n _ IH]. intros s ->.
  destruct s as [|u s]; [done|]. cbn [countFrom countOcc].
  destruct (startsWith (c :: p) (u :: s)) eqn:E.
  - apply startsWith_spec in E as [r E]. cbn [app] in E. injection E as -> ->.
    replace (length (c :: p) - 1)%nat with (length p) by (cbn; lia).
    rewrite countFrom_skip.
    rewrite countOcc_free by done.
    rewrite (IH (length r)); [done| |done]. cbn. rewrite length_app. lia.
  - cbn. apply (IH (length s)); [cbn; lia|done].
Qed.

Lemma countOcc_open (p L0 L R : jsstring) :
  L0 = 60%N :: L -> 60%N ∉ L -> (length p <= length L)%nat ->
  countOcc (60%N :: p) (L0 ++ R) =
    ((if startsWith p L then 1 else 0) + countOcc (60%N :: p) R)%nat.
Proof.
  intros -> HL Hlen. cbn [app countOcc startsWith]. rewrite N.eqb_refl. cbn [andb].
  rewrite startsWith_prefix by done. rewrite countOcc_free by done. done.
Qed.

Lemma countOcc_close (p L0 L : jsstring) :
  L0 = 60%N :: L -> 60%N ∉ L -> (length p <= length L)%nat ->
  countOcc (60%N :: p) L0 = if startsWith p L then 1%nat else 0%nat.
Proof.
  intros E HL Hlen. rewrite <- (app_nil_r L0), (countOcc_open p L0 L []) by done.
  cbn. lia.
Qed.

Lemma countIn_app (p : jsstring) (a b : list jsstring) :
  countIn p (a ++ b) = (countIn p a + countIn p b)%nat.
Proof.
  unfold countIn. induction a as [|l a IH]; cbn [app foldr]; [done|]. rewrite IH. lia.
Qed.

Lemma countIn_concat {A} (p : jsstring) (f : A -> list jsstring) (l : list A) (k : A -> nat) :
  (forall a, a ∈ l -> countIn p (f a) = k a) ->
  countIn p (concat (List.map f l)) = foldr (fun a n => (k a + n)%nat) 0%nat l.
Proof.
  induction l as [|a l IH]; intros H; cbn [List.map concat foldr]; [done|].
  rewrite countIn_app, H by left. rewrite IH; [done|]. intros b Hb. apply H. right. done.
Qed.

Lemma foldr_const {A} (l : list A) (c : nat) :
  foldr (fun _ n => (c + n)%nat) 0%nat l = (c * length l)%nat.
Proof. induction l as [|a l IH]; cbn; [lia|]. rewrite IH. lia. Qed.

Lemma escapeHtml_free (s : jsstring) : 60%N ∉ escapeHtml s.
Proof.
  intros Hin. pose proof (escapeHtml_safe s) as H.
  rewrite Forall_forall in H. destruct (H _ Hin) as [H60 _]. done.
Qed.

Lemma stage_texts_free (s : EvolutionStage) :
  (60%N ∉ STAGE_LABELS s) /\ (60%N ∉ (getStageColors s).1) /\
  (60%N ∉ (getStageColors s).2).
Proof. destruct s; repeat split; apply (bool_decide_unpack _); vm_compute; exact I. Qed.

Lemma anchor_class_free (c : Component) :
  60%N ∉ (if isAnchor c then js "anchor" else js "component").
Proof. destruct (isAnchor c); apply (bool_decide_unpack _); vm_compute; exact I. Qed.

Ltac free H :=
  repeat (apply not_elem_of_app; split);
  first [ apply H | apply escapeHtml_free | apply stage_texts_free
        | apply anchor_class_free | assumption | closed_free ].

(** The count of a tag in a line of the drawing: at each literal that
    opens an element, then over the text that holds no [<]. *)
Ltac count_line H :=
  repeat first
    [ match goal with
      | |- context [countOcc (60%N :: ?p) (lit ?s ++ ?R)] =>
          rewrite (countOcc_open p (lit s) (List.tl (lit s)) R)
            by first [vm_compute; reflexivity | closed_free | vm_compute; lia]
      | |- context [countOcc (60%N :: ?p) (lit ?s)] =>
          rewrite (countOcc_close p (lit s) (List.tl (lit s)))
            by first [vm_compute; reflexivity | closed_free | vm_compute; lia]
      end
    | rewrite countOcc_free by (free H) ].

Section Counting.

Variable numberToString : number -> jsstring.
Hypothesis numberToString_free : forall v, 60%N ∉ numberToString v.

Variable p : jsstring.
Hypothesis p_tag : p = js "circle" \/ p = js "line".

Lemma count_componentNode (w h pad r f : number) (comp : Component) :
  is_Some (x comp) -> is_Some (y comp) ->
  countIn (60%N :: p) (componentNode numberToString w h pad r f comp) =
    isTag p (js "circle").
Proof.
  intros [cx Hx] [cy Hy]. unfold componentNode, countIn. rewrite Hx, Hy. cbn [foldr].
  destruct p_tag as [-> | ->]; count_line numberToString_free; vm_compute; reflexivity.
Qed.

Lemma count_unplaced (w h pad r f : number) (comp : Component) :
  ~ (is_Some (x comp) /\ is_Some (y comp)) ->
  componentNode numberToString w h pad r f comp = [].
Proof.
  unfold componentNode. destruct (x comp), (y comp); try done.
  intros H. destruct H. split; eauto.
Qed.

Lemma count_head (w h : number) :
  countIn (60%N :: p)
    [svgHeader numberToString w h; svgDefs; svgBackground numberToString w h] = 0%nat.
Proof.
  unfold countIn, svgHeader, svgBackground. cbn [foldr].
  destruct p_tag as [-> | ->]; count_line numberToString_free; vm_compute; reflexivity.
Qed.

Lemma count_stageGrid (w h pad : number) (stage : EvolutionStage) :
  countIn (60%N :: p) (stageGrid numberToString w h pad stage) = isTag p (js "line").
Proof.
  unfold countIn, stageGrid. cbn [foldr].
  destruct p_tag as [-> | ->]; count_line numberToString_free; vm_compute; reflexivity.
Qed.

Lemma count_axesLabels (w h : number) :
  countIn (60%N :: p) (axesLabels numberToString w h) = 0%nat.
Proof.
  unfold countIn, axesLabels. cbn [foldr].
  destruct p_tag as [-> | ->]; count_line numberToString_free; vm_compute; reflexivity.
Qed.

Lemma count_titleText (w : number) (t : option jsstring) :
  countIn (60%N :: p) (titleText numberToString w t) = 0%nat.
Proof.
  unfold countIn, titleText. destruct t as [[|u t]|]; cbn [foldr]; try done.
  destruct p_tag as [-> | ->]; count_line numberToString_free; vm_compute; reflexivity.
Qed.

Lemma count_dependencyArrow (w h pad : number) (comps : list Component) (dep : Dependency) :
  countIn (60%N :: p) (dependencyArrow numberToString w h pad comps dep) =
    (isTag p (js "line") * drawn w h pad comps (from dep) (to dep))%nat.
Proof.
  unfold countIn, dependencyArrow, drawn.
  destruct (edgeEnds w h pad comps (from dep) (to dep)) as [[[[x1 y1] x2] y2]|];
    [|cbn; lia].
  destruct (label dep) as [[|u t]|]; cbn [foldr];
    destruct p_tag as [-> | ->]; count_line numberToString_free; vm_compute; reflexivity.
Qed.

Lemma count_evolutionArrow (w h pad : number) (comps : list Component) (evo : Evolution) :
  countIn (60%N :: p) (evolutionArrow numberToString w h pad comps evo) =
    (isTag p (js "line") * drawn w h pad comps (efrom evo) (eto evo))%nat.
Proof.
  unfold countIn, evolutionArrow, drawn.
  destruct (edgeEnds w h pad comps (efrom evo) (eto evo)) as [[[[x1 y1] x2] y2]|];
    [|cbn; lia].
  cbn [foldr].
  destruct p_tag as [-> | ->]; count_line numberToString_free; vm_compute; reflexivity.
Qed.

Lemma count_annotationTexts (pad : number) (anns : list Annotation) :
  Forall (fun a => 60%N ∉ id a) anns ->
  forall annotY, countIn (60%N :: p) (annotationTexts numberToString pad annotY anns) = 0%nat.
Proof.
  induction 1 as [|ann anns Hid _ IH]; intros annotY; [done|].
  cbn [annotationTexts]. change (countIn (60%N :: p) (?l :: ?ls))
    with (countOcc (60%N :: p) l + countIn (60%N :: p) ls)%nat.
  rewrite IH.
  destruct p_tag as [-> | ->]; count_line numberToString_free; vm_compute; reflexivity.
Qed.

Lemma count_svgLines (m : WardleyMap) (options : RenderOptions) :
  Forall (fun a => 60%N ∉ id a) (annotations m) ->
  Forall (fun c => is_Some (x c) /\ is_Some (y c)) (components m) ->
  Forall (fun dep => drawn (default (ofZ 800) (width options))
                       (default (ofZ 600) (height options))
                       (default (ofZ 60) (padding options))
                       (components m) (from dep) (to dep) = 1%nat) (dependencies m) ->
  Forall (fun evo => drawn (default (ofZ 800) (width options))
                       (default (ofZ 600) (height options))
                       (default (ofZ 60) (padding options))
                       (components m) (efrom evo) (eto evo) = 1%nat) (evolutions m) ->
  countIn (60%N :: p) (svgLines numberToString m options) =
    (isTag p (js "line") * (4 + length (dependencies m) + length (evolutions m)) +
     isTag p (js "circle") * length (components m))%nat.
Proof.
  intros Hids Hplaced Hdeps Hevos. unfold svgLines. cbv zeta.
  rewrite !countIn_app.
  rewrite count_head, count_axesLabels, count_titleText.
  rewrite (count_annotationTexts _ _ Hids).
  rewrite (countIn_concat _ _ _ (fun _ => isTag p (js "line")))
    by (intros; apply count_stageGrid).
  rewrite (countIn_concat _ _ (dependencies m) (fun _ => isTag p (js "line"))).
  2:{ intros dep Hdep. rewrite count_dependencyArrow.
      rewrite Forall_forall in Hdeps. rewrite (Hdeps dep Hdep). lia. }
  rewrite (countIn_concat _ _ (evolutions m) (fun _ => isTag p (js "line"))).
  2:{ intros evo Hevo. rewrite count_evolutionArrow.
      rewrite Forall_forall in Hevos. rewrite (Hevos evo Hevo). lia. }
  rewrite (countIn_concat _ _ (components m) (fun _ => isTag p (js "circle"))).
  2:{ intros c Hc. rewrite Forall_forall in Hplaced. destruct (Hplaced c Hc).
      apply count_componentNode; done. }
  rewrite !foldr_const.
  assert (countIn (60%N :: p) [lit "</svg>"] = 0%nat) as ->.
  { destruct p_tag as [-> | ->]; vm_compute; reflexivity. }
  cbn [length]. lia.
Qed.

(** The circles alone, whatever the edges that are drawn. *)
Lemma count_circles (m : WardleyMap) (options : RenderOptions) :
  p = js "circle" ->
  Forall (fun a => 60%N ∉ id a) (annotations m) ->
  Forall (fun c => is_Some (x c) /\ is_Some (y c)) (components m) ->
  countIn (60%N :: p) (svgLines numberToString m options) = length (components m).
Proof.
  intros Hp Hids Hplaced. unfold svgLines. cbv zeta.
  rewrite !countIn_app.
  rewrite count_head, count_axesLabels, count_titleText.
  rewrite (count_annotationTexts _ _ Hids).
  rewrite (countIn_concat _ _ _ (fun _ => isTag p (js "line")))
    by (intros; apply count_stageGrid).
  rewrite (countIn_concat _ _ (dependencies m) (fun _ => 0%nat)).
  2:{ intros dep Hdep. rewrite count_dependencyArrow. subst p. vm_compute. reflexivity. }
  rewrite (countIn_concat _ _ (evolutions m) (fun _ => 0%nat)).
  2:{ intros evo Hevo. rewrite count_evolutionArrow. subst p. vm_compute. reflexivity. }
  rewrite (countIn_concat _ _ (components m) (fun _ => isTag p (js "circle"))).
  2:{ intros c Hc. rewrite Forall_forall in Hplaced. destruct (Hplaced c Hc).
      apply count_componentNode; done. }
  rewrite !foldr_const. subst p.
  change (countIn (60%N :: js "circle") [lit "</svg>"]) with 0%nat.
  change (isTag (js "circle") (js "line")) with 0%nat.
  change (isTag (js "circle") (js "circle")) with 1%nat. cbn [length]. lia.
Qed.

End Counting.

(** Once laid out, every component carries both coordinates. *)
Lemma placed_all (fuel : nat) (m m' : WardleyMap) :
  calculatePositions fuel m = Some m' ->
  Forall (fun c => is_Some (x c) /\ is_Some (y c)) (components m').
Proof.
  intros Hrun. pose proof (placed_y_in_unit_interval fuel m m' Hrun) as Hy.
  apply calculatePositions_Some in Hrun as (layers & _ & ->).
  cbn [components withComponents] in *.
  set (pre := foldl inheritY _ (evolutions m)) in *.
  destruct (before_spread layers (maxLayerOf layers) (components m) (evolutions m))
    as (Hx & _ & _).
  fold pre in Hx.
  assert (Forall (fun c => isFinite (x c)) (spreadOverlappingComponents pre)) as Hfin.
  { apply spreadWith_finite; [apply adaptiveSpread_finite|].
    eapply Forall_impl; [exact Hx|]. cbn. intros c ->. destruct (stage c); eexists; done. }
  rewrite Forall_forall in Hfin, Hy. apply Forall_forall. intros c Hc. split.
  - destruct (Hfin c Hc) as [q ->]. eauto.
  - destruct (Hy c Hc) as (q & -> & _). eauto.
Qed.

Lemma drawn_declared (w h pad : number) (comps : list Component) (a b : jsstring) :
  Forall (fun c => is_Some (x c) /\ is_Some (y c)) comps ->
  a ∈ map name comps -> b ∈ map name comps ->
  drawn w h pad comps a b = 1%nat.
Proof.
  intros Hplaced Ha Hb. unfold drawn, edgeEnds.
  destruct (findComponent_declared _ _ Ha) as [[i ca] Ea].
  destruct (findComponent_declared _ _ Hb) as [[j cb] Eb].
  rewrite Ea, Eb.
  apply findComponent_Some in Ea as [Hi _]. apply findComponent_Some in Eb as [Hj _].
  rewrite Forall_forall in Hplaced.
  destruct (Hplaced ca) as [[? ->] [? ->]]; [eapply list_elem_of_lookup_2; eauto|].
  destruct (Hplaced cb) as [[? ->] [? ->]]; [eapply list_elem_of_lookup_2; eauto|].
  done.
Qed.

(** X20. The drawing holds one circle for each component of the map, so
    that the count that [test-svg.mjs] makes of the text [<circle] finds
    no mismatch: this for every map, whatever its names and labels, as
    long as no annotation identifier holds a [<] (an identifier is the one
    text that the renderer writes without escaping it). *)
Theorem drawing_shows_every_component (numberToString : number -> jsstring)
    (fuel : nat) (m : WardleyMap) (options : RenderOptions) (svg : jsstring) :
  (forall v, 60%N ∉ numberToString v) ->
  Forall (fun a => 60%N ∉ id a) (annotations m) ->
  renderWardleyMap numberToString fuel m options = Some svg ->
  countMatches (js "<circle") svg = length (components m).
Proof.
  intros Hshow Hids. unfold renderWardleyMap.
  destruct (calculatePositions fuel m) as [m'|] eqn:Hrun; [|done].
  cbn [fmap option_fmap option_map]. intros Hsvg.
  assert (svg = joinLines (svgLines numberToString m' options)) as -> by congruence.
  clear Hsvg. change (js "<circle") with (60%N :: js "circle").
  rewrite countMatches_countOcc by closed_free.
  rewrite countOcc_lines by first [closed_free | done].
  destruct (calculatePositions_fields _ _ _ Hrun) as (Hn & _ & _ & _ & _ & _ & Hann & _).
  rewrite (count_circles numberToString Hshow (js "circle")); [| |done| |].
  - rewrite <- (List.length_map name (components m')), Hn, List.length_map. done.
  - left. done.
  - rewrite Hann. done.
  - eapply placed_all. exact Hrun.
Qed.

(** X21. When every dependency and every evolution edge joins two declared
    components, as in the maps that the parser returns, the drawing holds
    one line for each of them, besides the four lines of the grid. *)
Theorem drawing_shows_every_edge (numberToString : number -> jsstring)
    (fuel : nat) (m : WardleyMap) (options : RenderOptions) (svg : jsstring) :
  (forall v, 60%N ∉ numberToString v) ->
  Forall (fun a => 60%N ∉ id a) (annotations m) ->
  (forall d, d ∈ dependencies m ->
     from d ∈ map name (components m) /\ to d ∈ map name (components m)) ->
  (forall e, e ∈ evolutions m ->
     efrom e ∈ map name (components m) /\ eto e ∈ map name (components m)) ->
  renderWardleyMap numberToString fuel m options = Some svg ->
  countMatches (js "<line") svg =
    (4 + length (dependencies m) + length (evolutions m))%nat.
Proof.
  intros Hshow Hids Hdeps Hevos. unfold renderWardleyMap.
  destruct (calculatePositions fuel m) as [m'|] eqn:Hrun; [|done].
  cbn [fmap option_fmap option_map]. intros Hsvg.
  assert (svg = joinLines (svgLines numberToString m' options)) as -> by congruence.
  clear Hsvg. change (js "<line") with (60%N :: js "line").
  rewrite countMatches_countOcc by closed_free.
  rewrite countOcc_lines by first [closed_free | done].
  destruct (calculatePositions_fields _ _ _ Hrun) as (Hn & _ & _ & Hd & He & _ & Hann & _).
  pose proof (placed_all _ _ _ Hrun) as Hplaced.
  rewrite (count_svgLines numberToString Hshow (js "line")).
  - rewrite Hd, He. change (isTag (js "line") (js "line")) with 1%nat.
    change (isTag (js "line") (js "circle")) with 0%nat. lia.
  - right. done.
  - rewrite Hann. done.
  - done.
  - rewrite Hd. apply Forall_forall. intros d Hin. destruct (Hdeps d Hin).
    apply drawn_declared; [done| |]; change (list_fmap _ _ name) with (map name) in *;
      rewrite Hn; done.
  - rewrite He. apply Forall_forall. intros e Hin. destruct (Hevos e Hin).
    apply drawn_declared; [done| |]; rewrite Hn; done.
Qed.

Lemma uintDigits_free (u : Decimal.uint) : 60%N ∉ uintDigits u.
Proof.
  induction u; cbn [uintDigits]; [apply not_elem_of_nil|..];
    (apply not_elem_of_cons; split; [lia|assumption]).
Qed.

(** [toFixed] writes digits, a point, a sign or [NaN]. *)
Lemma toFixed3_free (v : number) : 60%N ∉ toFixed3 v.
Proof.
  destruct v as [q|]; [|closed_free]. unfold toFixed3.
  set (m := replicate _ 48%N ++ digits _).
  assert (60%N ∉ m) as Hm.
  { unfold m. apply not_elem_of_app. split; [|apply uintDigits_free].
    intros [H _]%elem_of_replicate. lia. }
  repeat (apply not_elem_of_app; split).
  - destruct (negb _); closed_free.
  - intros H. apply Hm. eapply subseteq_take. exact H.
  - closed_free.
  - intros H. apply Hm. eapply subseteq_drop. exact H.
Qed.

Lemma drawing_shows_every_component_witness :
  exists svg,
    renderWardleyMap toFixed3 10 teaShopMap pluginOptions = Some svg /\
    countMatches (js "<circle") svg = length (components teaShopMap).
Proof.
  eexists. split; [vm_compute; reflexivity|].
  eapply (drawing_shows_every_component toFixed3 10 teaShopMap pluginOptions).
  - apply toFixed3_free.
  - anns_free.
  - vm_compute. reflexivity.
Defined.

Lemma drawing_shows_every_edge_witness :
  exists svg,
    renderWardleyMap toFixed3 10 teaShopMap pluginOptions = Some svg /\
    countMatches (js "<line") svg =
      (4 + length (dependencies teaShopMap) + length (evolutions teaShopMap))%nat.
Proof.
  eexists. split; [vm_compute; reflexivity|].
  eapply (drawing_shows_every_edge toFixed3 10 teaShopMap pluginOptions).
  - apply toFixed3_free.
  - anns_free.
  - intros d Hd. apply list_elem_of_In in Hd. vm_compute in Hd.
    repeat (destruct Hd as [<-|Hd]; [split; closed_free|]). destruct Hd.
  - intros e He. apply list_elem_of_In in He. vm_compute in He.
    repeat (destruct He as [<-|He]; [split; closed_free|]). destruct He.
  - vm_compute. reflexivity.
Defined.

(** ** No markup from the texts of the map *)

Lemma startsWith_more (p a b : jsstring) :
  startsWith p a = true -> startsWith p (a ++ b) = true.
Proof.
  intros [r ->]%startsWith_spec. rewrite <- app_assoc. apply startsWith_app.
Qed.

Lemma tagsOnly_free (a : jsstring) : 60%N ∉ a -> tagsOnly a = true.
Proof.
  induction a as [|u a IH]; intros Ha; [done|].
  apply not_elem_of_cons in Ha as [Hu Ha]. cbn [tagsOnly].
  rewrite IH by done. destruct (N.eqb_spec u 60); [congruence|done].
Qed.

Lemma tagsOnly_app (a b : jsstring) :
  tagsOnly a = true -> tagsOnly b = true -> tagsOnly (a ++ b) = true.
Proof.
  intros Ha Hb. induction a as [|u a IH]; [done|].
  cbn [tagsOnly app] in *. apply andb_true_iff in Ha as [Hu Ha].
  rewrite IH by done. rewrite andb_true_r.
  apply orb_true_iff in Hu as [Hu|Hu]; [rewrite Hu; done|].
  apply orb_true_iff. right.
  apply existsb_exists in Hu as (tag & Htag & Hs). apply existsb_exists.
  exists tag. split; [done|]. apply (startsWith_more tag (u :: a) b). done.
Qed.

Lemma tagsOnly_lines (lines : list jsstring) :
  Forall (fun l => tagsOnly l = true) lines -> tagsOnly (joinLines lines) = true.
Proof.
  induction 1 as [|l lines Hl Hall IH]; [done|].
  destruct lines as [|l' lines]; [done|].
  change (joinLines (l :: l' :: lines)) with (l ++ nl ++ joinLines (l' :: lines)).
  apply tagsOnly_app; [done|]. apply tagsOnly_app; [done|exact IH].
Qed.

Lemma tagsOnly_spec (s : jsstring) :
  tagsOnly s = true <->
  forall k, s !! k = Some 60%N ->
    exists tag, tag ∈ svgTags /\ startsWith tag (drop k s) = true.
Proof.
  induction s as [|u s IH]; cbn [tagsOnly].
  - split; [intros _ k Hk; done|done].
  - rewrite andb_true_iff, IH. split.
    + intros [Hu Hs] [|k] Hk.
      * cbn in Hk. injection Hk as ->. rewrite N.eqb_refl in Hu.
        cbn [negb orb] in Hu. apply existsb_exists in Hu as (tag & Htag & Hst).
        exists tag. split; [apply list_elem_of_In; done|done].
      * apply Hs. done.
    + intros H. split.
      * destruct (N.eqb_spec u 60) as [->|Hne]; [|done]. cbn [negb orb].
        destruct (H 0%nat eq_refl) as (tag & Htag & Hst).
        apply existsb_exists. exists tag. split; [apply list_elem_of_In; done|done].
      * intros k Hk. apply (H (S k)). done.
Qed.

(** The lines of the drawing, one kind after the other. *)
Ltac tags_line H :=
  repeat (apply tagsOnly_app);
  first [ (apply tagsOnly_free; free H) | (vm_compute; reflexivity) ].

Lemma tagsOnly_svgLines (numberToString : number -> jsstring) (m : WardleyMap)
    (options : RenderOptions) :
  (forall v, 60%N ∉ numberToString v) ->
  Forall (fun a => 60%N ∉ id a) (annotations m) ->
  Forall (fun l => tagsOnly l = true) (svgLines numberToString m options).
Proof.
  intros Hshow Hids. unfold svgLines. cbv zeta.
  generalize (default (ofZ 800) (width options)) as w.
  generalize (default (ofZ 600) (height options)) as h.
  generalize (default (ofZ 60) (padding options)) as pad.
  generalize (default (ofZ 8) (nodeRadius options)) as r.
  generalize (default (ofZ 12) (fontSize options)) as f.
  intros f r pad h w.
  apply Forall_app; split.
  { repeat constructor; unfold svgHeader, svgBackground; tags_line Hshow. }
  apply Forall_app; split.
  { apply Forall_concat, Forall_forall.
    intros l (stage & <- & _)%list_elem_of_In%in_map_iff.
    unfold stageGrid. repeat constructor; tags_line Hshow. }
  apply Forall_app; split.
  { unfold axesLabels. repeat constructor; tags_line Hshow. }
  apply Forall_app; split.
  { unfold titleText. destruct (title m) as [[|u t]|]; repeat constructor.
    tags_line Hshow. }
  apply Forall_app; split.
  { apply Forall_concat, Forall_forall.
    intros l (dep & <- & _)%list_elem_of_In%in_map_iff.
    unfold dependencyArrow.
    destruct (edgeEnds w h pad (components m) (from dep) (to dep)) as [[[[x1 y1] x2] y2]|];
      [|constructor].
    constructor; [tags_line Hshow|].
    destruct (label dep) as [[|u t]|]; repeat constructor. tags_line Hshow. }
  apply Forall_app; split.
  { apply Forall_concat, Forall_forall.
    intros l (evo & <- & _)%list_elem_of_In%in_map_iff.
    unfold evolutionArrow.
    destruct (edgeEnds w h pad (components m) (efrom evo) (eto evo)) as [[[[x1 y1] x2] y2]|];
      repeat constructor. tags_line Hshow. }
  apply Forall_app; split.
  { apply Forall_concat, Forall_forall.
    intros l (c & <- & _)%list_elem_of_In%in_map_iff.
    unfold componentNode. destruct (x c), (y c); repeat constructor; tags_line Hshow. }
  apply Forall_app; split.
  { generalize (nsub h (ofZ 35)) as annotY.
    induction Hids as [|ann anns Hid _ IH]; intros annotY; [constructor|].
    cbn [annotationTexts]. constructor; [|apply IH]. tags_line Hshow. }
  repeat constructor.
Qed.

(** X22. The texts of the map never become markup: in the drawing every [<]
    starts one of the elements that the renderer itself writes, whatever
    the title, the names, the labels and the annotation texts, as long as
    no annotation identifier holds a [<]. *)
Theorem drawing_has_no_foreign_markup (numberToString : number -> jsstring)
    (fuel : nat) (m : WardleyMap) (options : RenderOptions) (svg : jsstring) :
  (forall v, 60%N ∉ numberToString v) ->
  Forall (fun a => 60%N ∉ id a) (annotations m) ->
  renderWardleyMap numberToString fuel m options = Some svg ->
  forall k, svg !! k = Some 60%N ->
    exists tag, tag ∈ svgTags /\ startsWith tag (drop k svg) = true.
Proof.
  intros Hshow Hids. unfold renderWardleyMap.
  destruct (calculatePositions fuel m) as [m'|] eqn:Hrun; [|done].
  cbn [fmap option_fmap option_map]. intros Hsvg.
  assert (svg = joinLines (svgLines numberToString m' options)) as -> by congruence.
  apply tagsOnly_spec, tagsOnly_lines, tagsOnly_svgLines; [done|].
  destruct (calculatePositions_fields _ _ _ Hrun) as (_ & _ & _ & _ & _ & _ & -> & _).
  done.
Qed.

Lemma drawing_has_no_foreign_markup_witness :
  exists svg,
    renderWardleyMap toFixed3 10 teaShopMap pluginOptions = Some svg /\
    forall k, svg !! k = Some 60%N ->
      exists tag, tag ∈ svgTags /\ startsWith tag (drop k svg) = true.
Proof.
  eexists. split; [vm_compute; reflexivity|].
  eapply (drawing_has_no_foreign_markup toFixed3 10 teaShopMap pluginOptions).
  - apply toFixed3_free.
  - anns_free.
  - vm_compute. reflexivity.
Defined.

(** ** What a block shows *)

(** X23. A block always shows something, and never both: either the list of
    the errors, one item for each error in the order of the parser, or the
    drawing of the map that the parser returned.  An item starts with
    [Line n: ] for an error found on line [n]; the errors of the validation
    pass, which carry no line, are shown as their message alone. *)
Theorem block_shows_errors_or_drawing (numberToString : number -> jsstring)
    (source : jsstring) :
  exists fuel d,
    renderWardleyBlock numberToString fuel source = Some d /\
    match d with
    | ErrorList items =>
        errors_ (parseWardleyMap source) <> [] /\
        map_ (parseWardleyMap source) = None /\
        items = errorItem <$> errors_ (parseWardleyMap source) /\
        Forall (fun e =>
                  ((1 <= line e <= length (splitNewline source))%nat /\
                   errorItem e =
                     js "Line " ++ digits (Z.of_nat (line e)) ++ js ": " ++ message e) \/
                  (exists n, e = undeclaredReference n /\
                     errorItem e = js "Component '" ++ n ++ js "' referenced but not declared"))
          (errors_ (parseWardleyMap source))
    | MapDrawing svg =>
        errors_ (parseWardleyMap source) = [] /\
        exists m, map_ (parseWardleyMap source) = Some m /\
                  renderWardleyMap numberToString fuel m pluginOptions = Some svg
    | Blank => False
    end.
Proof.
  unfold renderWardleyBlock.
  destruct (errors_ (parseWardleyMap source)) as [|e0 errs] eqn:Herr.
  - assert (exists m, map_ (parseWardleyMap source) = Some m) as [m Hm].
    { unfold parseWardleyMap, parseProgram in *. cbn [errors_ map_] in *.
      rewrite Herr. cbn. eauto. }
    destruct (calculatePositions_total m) as (fuel & m' & Hrun).
    exists fuel, (MapDrawing (joinLines (svgLines numberToString m' pluginOptions))).
    cbn [length Nat.ltb Nat.leb]. rewrite Hm. unfold renderWardleyMap. rewrite Hrun.
    split; [done|]. split; [done|]. exists m. split; [done|]. rewrite Hrun. done.
  - exists 0%nat, (ErrorList (errorItem <$> e0 :: errs)). split; [done|].
    split; [done|]. split.
    { unfold parseWardleyMap, parseProgram in *. cbn [errors_ map_] in *.
      rewrite Herr. done. }
    split; [done|]. rewrite <- Herr. clear Herr.
    unfold parseWardleyMap, parseProgram, validateDependencies. cbn [errors_].
    set (st := parseLines initialState 0 (splitNewline source)).
    destruct (parseLines_increasing (splitNewline source) initialState 0)
      as (read & He & _ & Hl).
    fold st in He. cbn in He. rewrite He. apply Forall_app. split.
    + eapply Forall_impl; [exact Hl|]. cbn. intros e [H1 H2]. left.
      split; [lia|]. unfold errorItem.
      destruct (Nat.ltb_spec 0 (line e)); [done|lia].
    + apply Forall_forall. intros e He'.
      apply list_elem_of_In, in_concat in He' as (l & Hl' & Hel).
      apply in_map_iff in Hl' as (d & <- & Hd).
      unfold validateDependency in Hel.
      apply in_app_or in Hel as [Hel|Hel].
      * destruct (has (componentMap st) (from d)) eqn:Hf; cbn in Hel; [done|].
        destruct Hel as [<-|[]]. right. exists (from d). done.
      * destruct (has (componentMap st) (to d)) eqn:Ht; cbn in Hel; [done|].
        destruct Hel as [<-|[]]. right. exists (to d). done.
Qed.
